(** * jupyter_cpp_kernel: the real-time subprocess engine

    A shallow embedding of [RealTimeSubprocess] (kernel.py, lines 10-64) and
    of the part of [CppKernel.do_execute] that drives it (lines 161-189).

    The engine is concurrent: the child process, the two daemon threads
    running [_enqueue_output] and the thread that calls [write_contents] and
    [poll] all advance independently.  It is modelled as an interleaving
    machine: every atomic operation of the source (one [stream.read], one
    [queue.put], one [queue.qsize], one [queue.get_nowait], one callback
    invocation, ...) is one step, each thread has its own program counter,
    and a schedule (a list of actions) chooses which thread moves next.  All
    step functions are executable. *)

From Stdlib Require Import Strings.String Strings.Ascii.
From Stdlib Require Import List Arith NArith ZArith Lia Bool.
From Stdlib Require Import Strings.Byte.
Import ListNotations.

(** ** Bytes *)

Definition bytes := list byte.

(** Python truthiness of a [bytes] object: [if contents:] *)
Definition truthy (b : bytes) : bool :=
  match b with
  | [] => false
  | _ :: _ => true
  end.

(** ** [queue.Queue()]: an unbounded FIFO of chunks *)

Module Queue.

Definition t := list bytes.

Definition empty : t := [].

(** [queue.put(line)]; the queue is unbounded, so [put] never waits. *)
Definition put (line : bytes) (q : t) : t := q ++ [line].

Definition qsize (q : t) : nat := length q.

(** [queue.get_nowait()]: [None] stands for the exception [queue.Empty]. *)
Definition get_nowait (q : t) : option (bytes * t) :=
  match q with
  | [] => None
  | line :: q' => Some (line, q')
  end.

End Queue.

(** ** The pipe behind [self.stdout] / [self.stderr]

    [Popen(..., stdout=PIPE, stderr=PIPE, bufsize=0)] gives the parent the
    read end of two operating-system pipes as unbuffered raw streams.  The
    capacity of a pipe is not modelled: a full pipe only delays the child. *)

Record pipe := mkPipe {
  buffered : bytes;      (* written by the child, not yet read by the parent *)
  writer_open : bool;    (* the child still holds the write end *)
  closed : bool          (* [stream.close()] was called on the read end *)
}.

Definition new_pipe : pipe := mkPipe [] true false.

Inductive read_result :=
| ReadData (line : bytes)   (* at least one byte *)
| ReadEof                   (* the value [b''] *)
| ReadBlocked               (* nothing to read yet: the call does not return *)
| ReadError.                (* the call raises *)

(** [stream.read(n)] on an unbuffered pipe: one read system call.  It returns
    what is available, at most [n] bytes; it waits while the pipe is empty and
    the writer is alive; it returns [b''] once the pipe is empty and the
    writer is gone; it raises on a closed stream. *)
Definition read (n : nat) (p : pipe) : read_result * pipe :=
  if closed p then (ReadError, p)
  else match buffered p with
       | [] => if writer_open p then (ReadBlocked, p) else (ReadEof, p)
       | _ :: _ =>
           (ReadData (firstn n (buffered p)),
            mkPipe (skipn n (buffered p)) (writer_open p) (closed p))
       end.

Definition close (p : pipe) : pipe := mkPipe (buffered p) (writer_open p) true.

(** The child's side of the pipe. *)
Definition os_write (data : bytes) (p : pipe) : pipe :=
  if writer_open p then mkPipe (buffered p ++ data) true (closed p) else p.

Definition os_close_writer (p : pipe) : pipe :=
  mkPipe (buffered p) false (closed p).

(** ** The two streams *)

Inductive which := Out | Err.

Definition which_eqb (a b : which) : bool :=
  match a, b with
  | Out, Out | Err, Err => true
  | _, _ => false
  end.

(** ** Observable operations

    Every atomic operation a thread performs is appended to a history. *)

Inductive op :=
| OpRead (w : which) (r : read_result)    (* drain thread: [stream.read(4096)] returned / raised *)
| OpPut (w : which) (line : bytes)        (* drain thread: [queue.put(line)] *)
| OpClose (w : which)                     (* drain thread: [stream.close()] *)
| OpCall                                  (* caller: enters [write_contents] *)
| OpQsize (w : which) (size : nat)        (* caller: [queue.qsize()] *)
| OpGet (w : which) (line : bytes)        (* caller: [queue.get_nowait()] *)
| OpCallback (w : which) (contents : bytes) (* caller: [self._write_to_stdout/_stderr(contents)] *)
| OpReturn                                (* caller: leaves [write_contents] *)
| OpPoll (r : option Z).                  (* caller: [poll()] returned [r] *)

(** ** [_enqueue_output(stream, queue)]  (lines 36-43)

<<
    for line in iter(lambda: stream.read(4096), b''):
        queue.put(line)
    stream.close()
>>
    The program counter of one drain thread. *)

Inductive task :=
| Reading                  (* line 41: about to call [stream.read(4096)] *)
| Putting (line : bytes)   (* line 42: about to call [queue.put(line)] *)
| Closing                  (* line 43: about to call [stream.close()] *)
| Finished                 (* the function returned; the thread is over *)
| Crashed.                 (* an exception left the function; the thread is over *)

Definition chunk_size : nat := 4096.

(** Everything that belongs to one stream: [self.stdout], [_stdout_queue]
    and [_stdout_thread] (resp. stderr).  [written] is a ghost field: all
    bytes the child has ever written to the stream. *)
Record channel := mkChannel {
  written : bytes;
  stream : pipe;
  thread : task;
  queue : Queue.t
}.

Definition new_channel : channel := mkChannel [] new_pipe Reading Queue.empty.

(** One atomic step of the drain thread of stream [w].  [fault] says that the
    operating system fails the read (an I/O error other than end-of-data).
    The result is the new channel and the operations performed. *)
Definition enqueue_output_step (w : which) (fault : bool) (c : channel)
  : channel * list op :=
  match thread c with
  | Reading =>
      if fault then
        (mkChannel (written c) (stream c) Crashed (queue c), [OpRead w ReadError])
      else
        match read chunk_size (stream c) with
        | (ReadData line, p') =>
            (mkChannel (written c) p' (Putting line) (queue c),
             [OpRead w (ReadData line)])
        | (ReadEof, p') =>
            (mkChannel (written c) p' Closing (queue c), [OpRead w ReadEof])
        | (ReadBlocked, _) => (c, [])
        | (ReadError, p') =>
            (mkChannel (written c) p' Crashed (queue c), [OpRead w ReadError])
        end
  | Putting line =>
      (mkChannel (written c) (stream c) Reading (Queue.put line (queue c)),
       [OpPut w line])
  | Closing =>
      (mkChannel (written c) (close (stream c)) Finished (queue c), [OpClose w])
  | Finished => (c, [])
  | Crashed => (c, [])
  end.

(** ** [write_contents]  (lines 45-64)

<<
    def read_all_from_queue(queue):
        res = b''
        size = queue.qsize()
        while size != 0:
            res += queue.get_nowait()
            size -= 1
        return res

    stdout_contents = read_all_from_queue(self._stdout_queue)
    if stdout_contents:
        self._write_to_stdout(stdout_contents)
    stderr_contents = read_all_from_queue(self._stderr_queue)
    if stderr_contents:
        self._write_to_stderr(stderr_contents)
>>
    The program counter of the calling thread inside [write_contents]. *)

Inductive flush_pc :=
| Idle                                          (* not inside [write_contents] *)
| Snapshot (w : which)                          (* line 53: about to call [qsize] *)
| Draining (w : which) (size : nat) (res : bytes) (* line 54: at the loop test *)
| Deliver (w : which) (res : bytes)             (* line 60 / 63: at the [if] *)
| Raised.                                       (* [queue.Empty] left the function *)

(** The sequential reading of [read_all_from_queue], when no other thread
    runs in between: the loop of lines 54-56 on a snapshot [size]. *)
Fixpoint read_all_loop (size : nat) (res : bytes) (q : Queue.t)
  : option (bytes * Queue.t) :=
  match size with
  | O => Some (res, q)
  | S size' =>
      match Queue.get_nowait q with
      | None => None
      | Some (line, q') => read_all_loop size' (res ++ line) q'
      end
  end.

Definition read_all_from_queue (q : Queue.t) : option (bytes * Queue.t) :=
  read_all_loop (Queue.qsize q) [] q.

(** ** The process object *)

Record proc := mkProc {
  stdout : channel;
  stderr : channel;
  exit_status : option Z;   (* operating system: [None] while the child runs *)
  returncode : option Z;    (* [self.returncode], set by [poll()] *)
  fpc : flush_pc;
  history : list op
}.

Definition chan (w : which) (s : proc) : channel :=
  match w with
  | Out => stdout s
  | Err => stderr s
  end.

Definition set_chan (w : which) (c : channel) (s : proc) : proc :=
  match w with
  | Out => mkProc c (stderr s) (exit_status s) (returncode s) (fpc s) (history s)
  | Err => mkProc (stdout s) c (exit_status s) (returncode s) (fpc s) (history s)
  end.

Definition set_fpc (pc : flush_pc) (s : proc) : proc :=
  mkProc (stdout s) (stderr s) (exit_status s) (returncode s) pc (history s).

Definition log (ops : list op) (s : proc) : proc :=
  mkProc (stdout s) (stderr s) (exit_status s) (returncode s) (fpc s)
         (history s ++ ops).

(** The state right after a successful [__init__]: both queues empty, both
    threads started, nothing written yet. *)
Definition spawned : proc :=
  mkProc new_channel new_channel None None Idle [].

(** One atomic step of the drain thread of [w] inside the process. *)
Definition drain_step (w : which) (fault : bool) (s : proc) : proc :=
  let (c, ops) := enqueue_output_step w fault (chan w s) in
  log ops (set_chan w c s).

(** The callback invoked after [read_all_from_queue] on stream [w], and where
    control goes next: from stdout to the stderr queue, from stderr out of
    the function. *)
Definition after_deliver (w : which) : flush_pc * list op :=
  match w with
  | Out => (Snapshot Err, [])
  | Err => (Idle, [OpReturn])
  end.

(** One atomic step of the thread executing [write_contents].  At [Idle] the
    step is the call itself. *)
Definition write_contents_step (s : proc) : proc :=
  match fpc s with
  | Idle => log [OpCall] (set_fpc (Snapshot Out) s)
  | Snapshot w =>
      let size := Queue.qsize (queue (chan w s)) in
      log [OpQsize w size] (set_fpc (Draining w size []) s)
  | Draining w O res => set_fpc (Deliver w res) s
  | Draining w (S size') res =>
      let c := chan w s in
      match Queue.get_nowait (queue c) with
      | None => set_fpc Raised s
      | Some (line, q') =>
          log [OpGet w line]
              (set_fpc (Draining w size' (res ++ line))
                 (set_chan w (mkChannel (written c) (stream c) (thread c) q') s))
      end
  | Deliver w res =>
      let (pc, ret) := after_deliver w in
      log ((if truthy res then [OpCallback w res] else []) ++ ret) (set_fpc pc s)
  | Raised => s
  end.

(** [poll()]: non-blocking; records the exit status in [returncode]. *)
Definition poll (s : proc) : proc :=
  log [OpPoll (exit_status s)]
      (mkProc (stdout s) (stderr s) (exit_status s) (exit_status s) (fpc s)
              (history s)).

(** The child process. *)
Definition child_write (w : which) (data : bytes) (s : proc) : proc :=
  match exit_status s with
  | Some _ => s
  | None =>
      let c := chan w s in
      if writer_open (stream c) then
        set_chan w (mkChannel (written c ++ data) (os_write data (stream c))
                              (thread c) (queue c)) s
      else s
  end.

Definition child_close (w : which) (s : proc) : proc :=
  match exit_status s with
  | Some _ => s
  | None =>
      let c := chan w s in
      set_chan w (mkChannel (written c) (os_close_writer (stream c))
                            (thread c) (queue c)) s
  end.

Definition child_exit (code : Z) (s : proc) : proc :=
  match exit_status s with
  | Some _ => s
  | None =>
      let o := stdout s in
      let e := stderr s in
      mkProc (mkChannel (written o) (os_close_writer (stream o)) (thread o) (queue o))
             (mkChannel (written e) (os_close_writer (stream e)) (thread e) (queue e))
             (Some code) (returncode s) (fpc s) (history s)
  end.

(** ** The interleaving machine *)

Inductive action :=
| ChildWrite (w : which) (data : bytes)
| ChildClose (w : which)
| ChildExit (code : Z)
| Drain (w : which) (fault : bool)
| Flush
| Poll.

Definition step (a : action) (s : proc) : proc :=
  match a with
  | ChildWrite w data => child_write w data s
  | ChildClose w => child_close w s
  | ChildExit code => child_exit code s
  | Drain w fault => drain_step w fault s
  | Flush => write_contents_step s
  | Poll => poll s
  end.

Fixpoint run (sch : list action) (s : proc) : proc :=
  match sch with
  | [] => s
  | a :: sch' => run sch' (step a s)
  end.

(** ** Projections of a history *)

Definition reads (w : which) (h : list op) : list bytes :=
  flat_map (fun o => match o with
                     | OpRead w' (ReadData line) =>
                         if which_eqb w w' then [line] else []
                     | _ => []
                     end) h.

Definition puts (w : which) (h : list op) : list bytes :=
  flat_map (fun o => match o with
                     | OpPut w' line => if which_eqb w w' then [line] else []
                     | _ => []
                     end) h.

Definition gets (w : which) (h : list op) : list bytes :=
  flat_map (fun o => match o with
                     | OpGet w' line => if which_eqb w w' then [line] else []
                     | _ => []
                     end) h.

(** The byte sequences handed to the callback of stream [w], in order. *)
Definition callbacks (w : which) (h : list op) : list bytes :=
  flat_map (fun o => match o with
                     | OpCallback w' contents =>
                         if which_eqb w w' then [contents] else []
                     | _ => []
                     end) h.

Definition delivered (w : which) (h : list op) : bytes :=
  concat (callbacks w h).

(** The chunks removed from the queue of [w] by the call of [write_contents]
    that is in progress (or by the last one, when none is). *)
Definition cur_gets (w : which) (h : list op) : list bytes :=
  fold_left (fun acc o => match o with
                          | OpCall => []
                          | OpGet w' line =>
                              if which_eqb w w' then acc ++ [line] else acc
                          | _ => acc
                          end) h [].

(** Bytes a thread holds in a local variable: [res] of the caller, [line] of
    a drain thread. *)
Definition in_hand (w : which) (pc : flush_pc) : bytes :=
  match pc with
  | Draining w' _ res => if which_eqb w w' then res else []
  | Deliver w' res => if which_eqb w w' then res else []
  | _ => []
  end.

Definition held (t : task) : list bytes :=
  match t with
  | Putting line => [line]
  | _ => []
  end.

Definition is_callback (o : op) : bool :=
  match o with
  | OpCallback _ _ => true
  | _ => false
  end.

(** Operations of the thread that calls [write_contents] and [poll]. *)
Definition is_caller_op (o : op) : bool :=
  match o with
  | OpRead _ _ | OpPut _ _ | OpClose _ => false
  | _ => true
  end.



Definition is_caller_action (a : action) : bool :=
  match a with
  | Flush | Poll => true
  | _ => false
  end.

(** ** The order of operations inside one call of [write_contents]

    A small acceptor over histories.  [Pending] is a call that has not yet
    touched the stderr queue, [Late] one that has. *)

Inductive stage := Outside | Pending | Late.

Definition side (o : op) : option which :=
  match o with
  | OpQsize w _ | OpGet w _ | OpCallback w _ => Some w
  | _ => None
  end.

Definition stage_step (st : option stage) (o : op) : option stage :=
  match st with
  | None => None
  | Some Outside =>
      match o with
      | OpCall => Some Pending
      | OpReturn => None
      | _ => match side o with Some _ => None | None => Some Outside end
      end
  | Some Pending =>
      match o with
      | OpCall => None
      | OpReturn => Some Outside
      | _ => match side o with
             | Some Err => Some Late
             | _ => Some Pending
             end
      end
  | Some Late =>
      match o with
      | OpCall => None
      | OpReturn => Some Outside
      | _ => match side o with
             | Some Out => None
             | _ => Some Late
             end
      end
  end.

Definition stage_run (st : option stage) (h : list op) : option stage :=
  fold_left stage_step h st.

Definition stage_of (pc : flush_pc) : option stage :=
  match pc with
  | Idle => Some Outside
  | Snapshot _ => Some Pending
  | Draining Out _ _ => Some Pending
  | Deliver Out _ => Some Pending
  | Draining Err _ _ => Some Late
  | Deliver Err _ => Some Late
  | Raised => None
  end.

(** ** Running [write_contents] against an arbitrary environment

    [rounds envs k s]: [k] times, let the other threads run the schedule
    [envs i] and then let the caller take one step of [write_contents]. *)


Fixpoint rounds (envs : nat -> list action) (k : nat) (s : proc) : proc :=
  match k with
  | O => s
  | S k' =>
      rounds (fun i => envs (S i)) k' (write_contents_step (run (envs O) s))
  end.

(** ** [RealTimeSubprocess.__init__]  (lines 15-34) *)

Inductive oserror := FileNotFound | PermissionDenied | ResourceExhausted.

(** The outcome of [subprocess.Popen.__init__], decided by the operating
    system. *)
Inductive popen_result := Started | Fails (e : oserror).

(** The attributes of the object under construction and the threads started
    on its behalf. *)
Record instance := mkInstance {
  callbacks_set : bool;                 (* lines 21-22 *)
  streams : option (pipe * pipe);       (* [self.stdout], [self.stderr] *)
  stdout_queue : option Queue.t;
  stderr_queue : option Queue.t;
  threads_started : list which
}.

(** [__init__] statement by statement; the second component is the exception
    that leaves the constructor, if any. *)
Definition init (r : popen_result) : instance * option oserror :=
  let o1 := mkInstance true None None None [] in
  match r with
  | Fails e => (o1, Some e)
  | Started =>
      let o2 := mkInstance true (Some (new_pipe, new_pipe)) None None [] in
      let o3 := mkInstance true (streams o2) (Some Queue.empty) None [Out] in
      let o4 := mkInstance true (streams o3) (stdout_queue o3)
                           (Some Queue.empty) (threads_started o3 ++ [Err]) in
      (o4, None)
  end.


(** ** Python [str]

    A [str] is a sequence of Unicode code points.  The methods below follow
    the language reference; they are the ones [_magic] uses, and [decode]
    produces one. *)

Definition char := N.
Definition str := list char.

(** A string constant of the source, all of which are ASCII. *)
Definition lit (s : string) : str := map N_of_ascii (list_ascii_of_string s).

Fixpoint eqb_str (a b : str) : bool :=
  match a, b with
  | [], [] => true
  | x :: a', y :: b' => N.eqb x y && eqb_str a' b'
  | _, _ => false
  end.

(** [c.isspace()]: the white space of [str.strip()] and [str.split()]. *)
Definition isspace (c : char) : bool :=
  ((9 <=? c) && (c <=? 13) || (28 <=? c) && (c <=? 32) || (c =? 133)
   || (c =? 160) || (c =? 5760) || (8192 <=? c) && (c <=? 8202)
   || (c =? 8232) || (c =? 8233) || (c =? 8239) || (c =? 8287)
   || (c =? 12288))%N.

(** The line boundaries of [str.splitlines()]. *)
Definition is_linebreak (c : char) : bool :=
  ((10 <=? c) && (c <=? 13) || (28 <=? c) && (c <=? 30) || (c =? 133)
   || (c =? 8232) || (c =? 8233))%N.

Fixpoint lstrip (s : str) : str :=
  match s with
  | [] => []
  | c :: s' => if isspace c then lstrip s' else s
  end.

Definition rstrip (s : str) : str := rev (lstrip (rev s)).

(** [s.strip()] *)
Definition strip (s : str) : str := rstrip (lstrip s).

(** [s.startswith(p)] *)
Fixpoint startswith (p s : str) : bool :=
  match p, s with
  | [], _ => true
  | x :: p', y :: s' => N.eqb x y && startswith p' s'
  | _ :: _, [] => false
  end.

(** [p in s] *)
Fixpoint contains (p s : str) : bool :=
  startswith p s ||
  match s with
  | [] => false
  | _ :: s' => contains p s'
  end.

(** [s.split()]: split at runs of white space; no empty strings. *)
Fixpoint split_ws_from (cur : str) (s : str) : list str :=
  match s with
  | [] => match cur with [] => [] | _ :: _ => [rev cur] end
  | c :: s' =>
      if isspace c then
        match cur with
        | [] => split_ws_from [] s'
        | _ :: _ => rev cur :: split_ws_from [] s'
        end
      else split_ws_from (c :: cur) s'
  end.

Definition split_ws (s : str) : list str := split_ws_from [] s.

(** [s.split(sep)] for a separator of one character: one more part than
    there are separators; parts may be empty. *)
Fixpoint split_on_from (sep : char) (cur : str) (s : str) : list str :=
  match s with
  | [] => [rev cur]
  | c :: s' =>
      if N.eqb c sep then rev cur :: split_on_from sep [] s'
      else split_on_from sep (c :: cur) s'
  end.

Definition split_on (sep : char) (s : str) : list str := split_on_from sep [] s.

(** [s.splitlines()]: ["\r\n"] is one boundary; a final boundary does not
    open an empty last line. *)
Fixpoint splitlines_from (cur : str) (s : str) : list str :=
  match s with
  | [] => match cur with [] => [] | _ :: _ => [rev cur] end
  | c :: s' =>
      if is_linebreak c then
        rev cur ::
        match s' with
        | d :: s'' =>
            if N.eqb c 13 && N.eqb d 10 then splitlines_from [] s''
            else splitlines_from [] s'
        | [] => splitlines_from [] s'
        end
      else splitlines_from (c :: cur) s'
  end.

Definition splitlines (s : str) : list str := splitlines_from [] s.

(** [sep.join(parts)] *)
Fixpoint join (sep : str) (parts : list str) : str :=
  match parts with
  | [] => []
  | [p] => p
  | p :: rest => p ++ sep ++ join sep rest
  end.

Definition count_char (c : char) (s : str) : nat :=
  length (filter (N.eqb c) s).

(** ** [bytes.decode()]

    The callbacks of [create_jupyter_subprocess] (lines 108-109) call
    [contents.decode()]: UTF-8, errors [strict].  The well-formed byte
    sequences are those of the Unicode standard: no overlong form, no
    surrogate, nothing above U+10FFFF.  [None] is [UnicodeDecodeError]. *)

Definition continuation (b : N) : bool := ((128 <=? b) && (b <=? 191))%N.

(** The second byte of a three-byte sequence. *)
Definition second_of_three (b0 b1 : N) : bool :=
  (if b0 =? 224 then (160 <=? b1) && (b1 <=? 191)
   else if b0 =? 237 then (128 <=? b1) && (b1 <=? 159)
   else continuation b1)%N.

(** The second byte of a four-byte sequence. *)
Definition second_of_four (b0 b1 : N) : bool :=
  (if b0 =? 240 then (144 <=? b1) && (b1 <=? 191)
   else if b0 =? 244 then (128 <=? b1) && (b1 <=? 143)
   else continuation b1)%N.

Fixpoint utf_8_decode (b : list N) : option str :=
  (match b with
  | [] => Some []
  | b0 :: r0 =>
      if b0 <? 128 then option_map (cons b0) (utf_8_decode r0)
      else if (194 <=? b0) && (b0 <=? 223) then
        match r0 with
        | b1 :: r1 =>
            if continuation b1
            then option_map (cons ((b0 - 192) * 64 + (b1 - 128)))
                            (utf_8_decode r1)
            else None
        | _ => None
        end
      else if (224 <=? b0) && (b0 <=? 239) then
        match r0 with
        | b1 :: b2 :: r2 =>
            if second_of_three b0 b1 && continuation b2
            then option_map
                   (cons ((b0 - 224) * 4096 + (b1 - 128) * 64 + (b2 - 128)))
                   (utf_8_decode r2)
            else None
        | _ => None
        end
      else if (240 <=? b0) && (b0 <=? 244) then
        match r0 with
        | b1 :: b2 :: b3 :: r3 =>
            if second_of_four b0 b1 && continuation b2 && continuation b3
            then option_map
                   (cons ((b0 - 240) * 262144 + (b1 - 128) * 4096
                          + (b2 - 128) * 64 + (b3 - 128)))
                   (utf_8_decode r3)
            else None
        | _ => None
        end
      else None
  end)%N.

Definition decode (contents : bytes) : option str :=
  utf_8_decode (map Byte.to_N contents).


(** ** The waiting loops of [CppKernel.do_execute]  (lines 170-172, 183-185)

<<
    while p.poll() is None:
        p.write_contents()
    p.write_contents()
>>
    The process was created by [create_jupyter_subprocess] (lines 105-109),
    whose callbacks are

<<
    lambda contents: self._write_to_stdout(contents.decode())
    lambda contents: self._write_to_stderr(contents.decode())
>>
    Neither [write_contents] nor [do_execute] catches anything, so a
    [UnicodeDecodeError] raised by [decode] leaves the callback,
    [write_contents], the loop and [do_execute]. *)

Inductive loop_pc :=
| AtPoll                  (* at the loop test *)
| InFlush (final : bool)  (* in (or about to enter) [write_contents]; [final]: the call after the loop *)
| AfterLoop
| Unwound (w : which) (contents : bytes).  (* the callback of [w], called with [contents], raised *)

Definition is_idle (pc : flush_pc) : bool :=
  match pc with
  | Idle => true
  | _ => false
  end.

(** The callback [write_contents] is about to invoke, with its argument. *)
Definition callback_due (p : proc) : option (which * bytes) :=
  match fpc p with
  | Deliver w res => if truthy res then Some (w, res) else None
  | _ => None
  end.

(** The callback about to be invoked raises. *)
Definition raising (p : proc) : option (which * bytes) :=
  match callback_due p with
  | Some (w, res) =>
      match decode res with
      | None => Some (w, res)
      | Some _ => None
      end
  | None => None
  end.

(** One step of the kernel thread in a waiting loop.  When the callback
    raises, nothing is sent and the process object stays as the exception
    found it, inside a call of [write_contents] that is never resumed: its
    history records the callbacks that returned. *)
Definition wait_step (c : loop_pc) (p : proc) : loop_pc * proc :=
  match c with
  | AtPoll =>
      let p' := poll p in
      match returncode p' with
      | None => (InFlush false, p')
      | Some _ => (InFlush true, p')
      end
  | InFlush final =>
      match raising p with
      | Some (w, res) => (Unwound w res, p)
      | None =>
          let p' := write_contents_step p in
          if is_idle (fpc p') then ((if final then AfterLoop else AtPoll), p')
          else (InFlush final, p')
      end
  | AfterLoop => (AfterLoop, p)
  | Unwound w res => (Unwound w res, p)
  end.

(** ** The process handling of [do_execute]  (lines 169-189)

    Source preparation, temporary files and the kernel protocol are left out;
    what remains is which processes are spawned, how each is waited for and
    what is sent on the IOPub socket. *)

Inductive message :=
| RunningCmd                        (* line 106 *)
| Stream (w : which) (text : str)   (* lines 100, 103, from a callback *)
| CompileFailed (code : option Z)   (* lines 174-177 *)
| ExitedWith (code : option Z).     (* line 188 *)

(** What the step [wait_step c p] sends: the decoded text, when the step
    invokes a callback and [decode] returns. *)
Definition sent (c : loop_pc) (p : proc) : list message :=
  match c with
  | InFlush _ =>
      match callback_due p with
      | Some (w, res) =>
          match decode res with
          | Some text => [Stream w text]
          | None => []
          end
      | None => []
      end
  | _ => []
  end.

(** [CallbackRaised w contents done p]: the exception raised by the callback
    of [w] on [contents] has left [do_execute]; [p] is the process that was
    being waited for, [done] those waited for before. *)
Inductive exec_pc :=
| Start
| Compiling (c : loop_pc) (p : proc)
| Executing (compiler : proc) (c : loop_pc) (p : proc)
| Returned (procs : list proc)
| Propagated (e : oserror) (procs : list proc)
| CallbackRaised (w : which) (contents : bytes) (done : list proc) (p : proc).

Record kernel := mkKernel {
  pc : exec_pc;
  iopub : list message
}.

(** [p.returncode != 0] *)
Definition nonzero (r : option Z) : bool :=
  match r with
  | Some 0%Z => false
  | _ => true
  end.

Inductive exec_action :=
| Env (a : action)             (* the child or a drain thread of the current process *)
| Caller (spawn : popen_result). (* the kernel thread; [spawn] is consulted when it creates a process *)

Definition env_step (a : action) (p : proc) : proc :=
  if is_caller_action a then p else step a p.

Definition exec_env (a : action) (k : kernel) : kernel :=
  match pc k with
  | Compiling c p => mkKernel (Compiling c (env_step a p)) (iopub k)
  | Executing q c p => mkKernel (Executing q c (env_step a p)) (iopub k)
  | _ => k
  end.

Definition do_execute_step (spawn : popen_result) (k : kernel) : kernel :=
  match pc k with
  | Start =>
      match init spawn with
      | (_, Some e) => mkKernel (Propagated e []) (iopub k ++ [RunningCmd])
      | (_, None) => mkKernel (Compiling AtPoll spawned) (iopub k ++ [RunningCmd])
      end
  | Compiling AfterLoop p =>
      if nonzero (returncode p) then
        mkKernel (Returned [p]) (iopub k ++ [CompileFailed (returncode p)])
      else
        match init spawn with
        | (_, Some e) => mkKernel (Propagated e [p]) (iopub k ++ [RunningCmd])
        | (_, None) =>
            mkKernel (Executing p AtPoll spawned) (iopub k ++ [RunningCmd])
        end
  | Compiling c p =>
      match wait_step c p with
      | (Unwound w res, p') => mkKernel (CallbackRaised w res [] p') (iopub k)
      | (c', p') => mkKernel (Compiling c' p') (iopub k ++ sent c p)
      end
  | Executing q AfterLoop p =>
      mkKernel (Returned [q; p])
               (iopub k ++ (if nonzero (returncode p)
                            then [ExitedWith (returncode p)] else []))
  | Executing q c p =>
      match wait_step c p with
      | (Unwound w res, p') => mkKernel (CallbackRaised w res [q] p') (iopub k)
      | (c', p') => mkKernel (Executing q c' p') (iopub k ++ sent c p)
      end
  | Returned _ => k
  | Propagated _ _ => k
  | CallbackRaised _ _ _ _ => k
  end.

Definition exec_step (a : exec_action) (k : kernel) : kernel :=
  match a with
  | Env a' => exec_env a' k
  | Caller spawn => do_execute_step spawn k
  end.

Fixpoint exec_run (sch : list exec_action) (k : kernel) : kernel :=
  match sch with
  | [] => k
  | a :: sch' => exec_run sch' (exec_step a k)
  end.

Definition entered : kernel := mkKernel Start [].

(** Every process [do_execute] has created so far, and those it has finished
    waiting for. *)
Definition procs_of (k : kernel) : list proc :=
  match pc k with
  | Start => []
  | Compiling _ p => [p]
  | Executing q _ p => [q; p]
  | Returned ps => ps
  | Propagated _ ps => ps
  | CallbackRaised _ _ done p => done ++ [p]
  end.

Definition waited_for (k : kernel) : list proc :=
  match pc k with
  | Start => []
  | Compiling AfterLoop p => [p]
  | Compiling _ _ => []
  | Executing q AfterLoop p => [q; p]
  | Executing q _ _ => [q]
  | Returned ps => ps
  | Propagated _ ps => ps
  | CallbackRaised _ _ done _ => done
  end.

Definition is_usage_op (o : op) : bool :=
  match o with
  | OpPoll _ | OpCall | OpReturn => true
  | _ => false
  end.

(** The polls and the calls of [write_contents], in order. *)
Definition usage (h : list op) : list op := filter is_usage_op h.

Definition loop_iteration : list op := [OpPoll None; OpCall; OpReturn].

(** ** Recognisers *)

Definition is_return (o : op) : bool :=
  match o with
  | OpReturn => true
  | _ => false
  end.

Definition is_call (o : op) : bool :=
  match o with
  | OpCall => true
  | _ => false
  end.

Definition is_flush (a : action) : bool :=
  match a with
  | Flush => true
  | _ => false
  end.


(** ** Invariants of the machine *)

Definition chunk_ok (line : bytes) : Prop :=
  line <> [] /\ length line <= chunk_size.

(** What ties the history, the queue, the pipe and the local variables of
    the threads of one stream together. *)
Record chan_inv (w : which) (s : proc) : Prop := mkChanInv {
  ci_reads :
    reads w (history s) = puts w (history s) ++ held (thread (chan w s));
  ci_puts :
    puts w (history s) = gets w (history s) ++ queue (chan w s);
  ci_written :
    written (chan w s) =
    concat (reads w (history s)) ++ buffered (stream (chan w s));
  ci_gets :
    concat (gets w (history s)) = delivered w (history s) ++ in_hand w (fpc s);
  ci_chunks : Forall chunk_ok (reads w (history s));
  ci_size :
    forall n res, fpc s = Draining w n res -> n <= length (queue (chan w s));
  ci_eof :
    thread (chan w s) = Closing \/ thread (chan w s) = Finished ->
    buffered (stream (chan w s)) = [] /\ writer_open (stream (chan w s)) = false;
  ci_callbacks : Forall (fun d => d <> []) (callbacks w (history s))
}.

(** The local variable [res] is the concatenation of what the current call
    has removed so far. *)
Definition call_inv (s : proc) : Prop :=
  match fpc s with
  | Snapshot Out => cur_gets Out (history s) = [] /\ cur_gets Err (history s) = []
  | Draining Out _ res => concat (cur_gets Out (history s)) = res /\ cur_gets Err (history s) = []
  | Deliver Out res => concat (cur_gets Out (history s)) = res /\ cur_gets Err (history s) = []
  | Snapshot Err => cur_gets Err (history s) = []
  | Draining Err _ res => concat (cur_gets Err (history s)) = res
  | Deliver Err res => concat (cur_gets Err (history s)) = res
  | _ => True
  end.

Record inv (s : proc) : Prop := mkInv {
  inv_chan : forall w, chan_inv w s;
  inv_call : call_inv s;
  inv_stage : stage_run (Some Outside) (history s) = stage_of (fpc s);
  inv_raised : fpc s <> Raised
}.

(** The chunks put on the queue of [w] since its length was last read. *)
Definition since_qsize (w : which) (h : list op) : list bytes :=
  fold_left (fun acc o => match o with
                          | OpQsize w' _ => if which_eqb w w' then [] else acc
                          | OpPut w' line =>
                              if which_eqb w w' then acc ++ [line] else acc
                          | _ => acc
                          end) h [].

(** Whether the latest call of [write_contents] has read the length of the
    queue of [w]. *)
Definition snapped (w : which) (h : list op) : bool :=
  fold_left (fun acc o => match o with
                          | OpCall => false
                          | OpQsize w' _ => if which_eqb w w' then true else acc
                          | _ => acc
                          end) h false.

(** How many chunks the loop of [read_all_from_queue] still has to remove. *)
Definition remaining (w : which) (pc : flush_pc) : nat :=
  match pc with
  | Draining w' n _ => if which_eqb w w' then n else 0
  | _ => 0
  end.

Definition snapped_at (pc : flush_pc) (h : list op) : Prop :=
  match pc with
  | Idle => existsb is_call h = true -> snapped Out h = true /\ snapped Err h = true
  | Snapshot Out => True
  | Draining Out _ _ => snapped Out h = true
  | Deliver Out _ => snapped Out h = true
  | Snapshot Err => snapped Out h = true
  | Draining Err _ _ => snapped Out h = true /\ snapped Err h = true
  | Deliver Err _ => snapped Out h = true /\ snapped Err h = true
  | Raised => True
  end.

Record snap_inv (s : proc) : Prop := mkSnapInv {
  si_length :
    forall w, length (queue (chan w s)) =
              remaining w (fpc s) + length (since_qsize w (history s));
  si_snapped : snapped_at (fpc s) (history s)
}.

(** ** Notions used in the statements *)

(** How many steps of [write_contents] a schedule contains. *)
Definition flushes (sch : list action) : nat := length (filter is_flush sch).

(** How many calls of [write_contents] a history contains. *)
Definition calls (h : list op) : nat := length (filter is_call h).

(** The other threads never execute [write_contents] themselves. *)
Definition quiet (envs : nat -> list action) : Prop :=
  forall i, flushes (envs i) = 0.

(** [returns s]: whatever the other threads do, the call in progress in [s]
    is over after finitely many steps of the caller. *)
Definition returns (s : proc) : Prop :=
  forall envs, quiet envs -> exists k, fpc (rounds envs k s) = Idle.



(** What holds of a process at each point of the waiting loop. *)
Definition loop_inv (c : loop_pc) (p : proc) : Prop :=
  match c with
  | AtPoll =>
      fpc p = Idle /\
      exists n, usage (history p) = concat (repeat loop_iteration n)
  | InFlush final =>
      exists n r,
        returncode p = r /\
        (final = false <-> r = None) /\
        ((fpc p = Idle /\
          usage (history p) = concat (repeat loop_iteration n) ++ [OpPoll r])
         \/ (fpc p <> Idle /\
             usage (history p) =
             concat (repeat loop_iteration n) ++ [OpPoll r; OpCall]))
  | AfterLoop =>
      fpc p = Idle /\
      exists n code,
        returncode p = Some code /\
        usage (history p) =
        concat (repeat loop_iteration n) ++ [OpPoll (Some code); OpCall; OpReturn]
  | Unwound _ _ => False
  end.

(** What holds of the process whose callback raised: the call in progress
    was about to hand [contents] to the callback of [w], [contents] is not
    valid UTF-8, and the call has not returned. *)
Definition raised_inv (w : which) (contents : bytes) (p : proc) : Prop :=
  fpc p = Deliver w contents /\ truthy contents = true /\
  decode contents = None /\
  exists n r,
    usage (history p) = concat (repeat loop_iteration n) ++ [OpPoll r; OpCall].

Definition kernel_inv (k : kernel) : Prop :=
  match pc k with
  | Start => True
  | Compiling c p => loop_inv c p
  | Executing q c p => loop_inv AfterLoop q /\ loop_inv c p
  | Returned ps => forall p, In p ps -> loop_inv AfterLoop p
  | Propagated _ ps => forall p, In p ps -> loop_inv AfterLoop p
  | CallbackRaised w d done p =>
      (forall q, In q done -> loop_inv AfterLoop q) /\ raised_inv w d p
  end.





(** The call in progress in [p] is at a callback that raises. *)
Definition raises_at (w : which) (contents : bytes) (p : proc) : Prop :=
  fpc p = Deliver w contents /\ truthy contents = true /\
  decode contents = None.

(** The operations of one whole call of [write_contents] that finds [qo] in
    the stdout queue and [qe] in the stderr queue and is not interleaved
    with any other thread. *)
Definition call_ops (qo qe : Queue.t) : list op :=
  [OpCall; OpQsize Out (Queue.qsize qo)] ++ map (OpGet Out) qo ++
  (if truthy (concat qo) then [OpCallback Out (concat qo)] else []) ++
  [OpQsize Err (Queue.qsize qe)] ++ map (OpGet Err) qe ++
  (if truthy (concat qe) then [OpCallback Err (concat qe)] else []) ++
  [OpReturn].

(** ** Concrete schedules *)

Definition hello : bytes :=
  ["h"; "e"; "l"; "l"; "o"; "010"]%byte.

(** One whole call of [write_contents] on empty queues takes seven steps. *)
Definition flush_empty : list action :=
  [Flush; Flush; Flush; Flush; Flush; Flush; Flush].

(** The child prints and exits, the caller polls and flushes once, and only
    then is the stdout drain thread scheduled. *)
Definition late_drain : list action :=
  [ChildWrite Out hello; ChildExit 0; Poll] ++ flush_empty ++
  [Drain Out false; Drain Out false; Drain Out false; Drain Out false].

(** The child prints and exits, the drain threads run to their end, and then
    the caller polls and flushes. *)
Definition echo_hello : list action :=
  [ChildWrite Out hello; ChildExit 0;
   Drain Out false; Drain Out false; Drain Out false; Drain Out false;
   Drain Err false; Drain Err false;
   Poll; Flush; Flush; Flush; Flush; Flush; Flush; Flush; Flush].

(** Two calls of [write_contents] in a row, nothing to deliver. *)
Definition two_flushes : list action := flush_empty ++ flush_empty.

(** The child prints on stdout; the drain thread reads and enqueues; the
    caller has just finished the loop of [read_all_from_queue] on stdout. *)
Definition at_deliver : list action :=
  [ChildWrite Out hello; Drain Out false; Drain Out false;
   Flush; Flush; Flush; Flush].

(** A channel whose pipe holds [hello], with the drain thread at the loop
    head. *)
Definition hello_channel : channel :=
  mkChannel hello (mkPipe hello true false) Reading Queue.empty.

(** The child has printed, the drain thread has enqueued one chunk, and the
    caller has just entered [write_contents]. *)
Definition at_snapshot : list action :=
  [ChildWrite Out hello; Drain Out false; Drain Out false; Flush].

(** The child has printed and the drain thread has enqueued the chunk; no
    call of [write_contents] has been made yet. *)
Definition enqueued : list action :=
  [ChildWrite Out hello; Drain Out false; Drain Out false].

(** One whole call of [write_contents] that finds one chunk on stdout. *)
Definition flush_one : list action := Flush :: flush_empty.


(** A run of [do_execute] in which both the compiler and the program exit
    with status 0 without printing anything. *)
Definition quiet_process : list exec_action :=
  [Env (ChildExit 0);
   Caller Started; Caller Started; Caller Started; Caller Started;
   Caller Started; Caller Started; Caller Started; Caller Started].

(** A run of [do_execute] in which the program prints [hello] while it is
    polled, then exits with status 0. *)
Definition busy_process : list exec_action :=
  [Caller Started;                       (* poll: still running *)
   Env (ChildWrite Out hello);
   Caller Started; Caller Started; Caller Started; Caller Started;
   Caller Started; Caller Started; Caller Started;   (* one call, nothing queued yet *)
   Env (Drain Out false); Env (Drain Out false);
   Env (ChildExit 0);
   Env (Drain Out false); Env (Drain Out false);
   Caller Started;                       (* poll: exited *)
   Caller Started; Caller Started; Caller Started; Caller Started;
   Caller Started; Caller Started; Caller Started; Caller Started].

Definition compile_and_print : list exec_action :=
  Caller Started :: quiet_process ++ Caller Started :: busy_process
  ++ [Caller Started].


(** The first byte of the two-byte UTF-8 encoding of U+00E9. *)
Definition half_char : bytes := ["195"]%byte.

(** A run of [do_execute] in which the program writes the first byte of a
    two-byte character, the drain thread enqueues it, and the kernel thread
    calls [write_contents] before the program writes the second byte. *)
Definition compile_and_garble : list exec_action :=
  Caller Started :: quiet_process ++
  [Caller Started;                       (* the program is started *)
   Caller Started;                       (* poll: still running *)
   Env (ChildWrite Out half_char);
   Env (Drain Out false); Env (Drain Out false);
   Caller Started; Caller Started; Caller Started; Caller Started;
   Caller Started].                      (* the stdout callback *)

(** The child prints on stderr, and the drain thread enqueues the chunk. *)
Definition enqueued_err : list action :=
  [ChildWrite Err hello; Drain Err false; Drain Err false].

(** A chunk reaches the stdout queue while a call of [write_contents] is in
    progress, after the call has read the length of that queue; the call
    then runs to its end. *)
Definition put_during_call : list action :=
  [ChildWrite Out hello; Drain Out false;
   Flush; Flush;
   Drain Out false;
   Flush; Flush; Flush; Flush; Flush].

(** * The kernel around the engine

    What follows models the rest of [CppKernel]: the directives of [_magic],
    the command line built by [compile], the temporary files, and the
    preparation of a process in [do_execute].  *)

(** ** Exceptions that leave the kernel's methods *)

Inductive exn :=
| ValueError                       (* unpacking a list that has not two elements *)
| TypeError                        (* [list + None] *)
| FileNotFoundError (path : str)   (* [os.remove] of a missing file *)
| SpawnError (e : oserror)         (* [Popen] failed *)
| TempFileError.                   (* [NamedTemporaryFile] failed *)

(** ** The attributes of a [CppKernel]  (lines 80-84) *)

Record CppKernel := mkCppKernel {
  files : list str;
  file_suffix : str;
  compiler : str
}.

(** [CppKernel.__init__] *)
Definition new_kernel : CppKernel := mkCppKernel [] (lit ".cc") (lit "g++").

(** ** [_magic]  (lines 111-153) *)

(** The local variables of [_magic]. *)
Record magic_vars := mkVars {
  topcodes : list str;
  add_main : bool;
  cflags : list str;
  ldflags : list str
}.

Definition magic_start : magic_vars := mkVars [] true [] [].

(** What [_magic] writes to the kernel process's own log and output. *)
Inductive console :=
| Warning (text : str)   (* [logging.warning] *)
| Printed (text : str).  (* [print] *)

Definition colon : char := 58%N.

(** Line 122: the headers of [includes:full]. *)
Definition default_headers : list str :=
  split_ws (lit "iostream vector string set map functional").

(** ['#include <%s>' % header] *)
Definition include_line (header : str) : str :=
  lit "#include <" ++ header ++ lit ">".

(** ['using namespace %s;' % value] *)
Definition namespace_line (value : str) : str :=
  lit "using namespace " ++ value ++ lit ";".

(** Lines 126-146: the effect of one directive, [if] by [if]. *)
Definition magic_apply (key value : str) (k : CppKernel) (v : magic_vars)
  : CppKernel * magic_vars :=
  let k1 :=
    if eqb_str key (lit "compiler") then
      let k' := mkCppKernel (files k) (file_suffix k) value in
      if contains (lit "nvcc") value
      then mkCppKernel (files k') (lit ".cu") (compiler k')
      else k'
    else k in
  let k2 :=
    if eqb_str key (lit "suffix")
    then mkCppKernel (files k1) value (compiler k1)
    else k1 in
  let v1 :=
    if eqb_str key (lit "includes") then
      let headers :=
        if negb (eqb_str value (lit "full")) then split_ws value
        else default_headers in
      mkVars (topcodes v ++ map include_line headers)
             (add_main v) (cflags v) (ldflags v)
    else v in
  let v2 :=
    if eqb_str key (lit "namespace")
    then mkVars (topcodes v1 ++ [namespace_line value])
                (add_main v1) (cflags v1) (ldflags v1)
    else v1 in
  let v3 :=
    if eqb_str key (lit "main") && eqb_str value (lit "no")
    then mkVars (topcodes v2) false (cflags v2) (ldflags v2)
    else v2 in
  let v4 :=
    if eqb_str key (lit "cflags")
    then mkVars (topcodes v3) (add_main v3)
                (cflags v3 ++ split_ws (strip value)) (ldflags v3)
    else v3 in
  let v5 :=
    if eqb_str key (lit "ldflags")
    then mkVars (topcodes v4) (add_main v4) (cflags v4)
                (ldflags v4 ++ split_ws (strip value))
    else v4 in
  (k2, v5).

(** Lines 117-121: how a line is read.  [None]: not a directive.
    [Some None]: a directive that cannot be unpacked into key and value.
    [Some (Some (key, value))]: a directive. *)
Definition read_directive (line : str) : option (option (str * str)) :=
  let line := strip line in
  if startswith (lit "//%") line then
    match split_on colon (strip (skipn 3 line)) with
    | [key; value] => Some (Some (strip key, strip value))
    | _ => Some None
    end
  else None.

(** ["%s:%s" % (key, value)] *)
Definition key_value (key value : str) : str := key ++ lit ":" ++ value.

(** The loop of lines 116-146.  The kernel's attributes are modified in
    place, so they keep the changes made before an exception. *)
Fixpoint magic_loop (lines : list str) (k : CppKernel) (v : magic_vars)
  (out : list console) : CppKernel * list console * (exn + magic_vars) :=
  match lines with
  | [] => (k, out, inr v)
  | line :: rest =>
      match read_directive line with
      | None => magic_loop rest k v out
      | Some None => (k, out, inl ValueError)
      | Some (Some (key, value)) =>
          let out' := out ++ [Warning (key_value key value);
                              Printed (key_value key value)] in
          let (k', v') := magic_apply key value k v in
          magic_loop rest k' v' out'
      end
  end.

(** Lines 148-151. *)
Definition main_wrapper (code : str) : str :=
  lit "
int main() {
" ++ code ++ lit "
return 0;
}".

Definition assemble (v : magic_vars) (code : str) : str :=
  if add_main v
  then join (lit "
") (topcodes v) ++ main_wrapper code
  else join (lit "
") (topcodes v) ++ code.

Definition _magic (code : str) (k : CppKernel)
  : CppKernel * list console * (exn + (str * list str * list str)) :=
  match magic_loop (splitlines code) k magic_start [] with
  | (k', out, inl e) => (k', out, inl e)
  | (k', out, inr v) => (k', out, inr (assemble v code, cflags v, ldflags v))
  end.

(** The directives of a cell, in order, up to the first that cannot be
    unpacked. *)
Fixpoint directives (lines : list str) : list (str * str) :=
  match lines with
  | [] => []
  | line :: rest =>
      match read_directive line with
      | None => directives rest
      | Some None => []
      | Some (Some kv) => kv :: directives rest
      end
  end.

Definition is_directive (line : str) : bool :=
  startswith (lit "//%") (strip line).

(** A directive line whose text after ["//%"] has not exactly one colon. *)
Definition malformed (line : str) : bool :=
  is_directive line &&
  negb (Nat.eqb (count_char colon (skipn 3 (strip line))) 1).

(** ** [compile]  (lines 156-159) *)

(** The argument list; a parameter left at its default [None] makes the list
    concatenation raise. *)
Definition compile_args (compiler source_filename binary_filename : str)
  (cflags ldflags : option (list str)) : exn + list str :=
  match cflags with
  | None => inl TypeError
  | Some cf =>
      let cf := lit "-std=c++11" :: cf in
      match ldflags with
      | None => inl TypeError
      | Some lf =>
          inr ([compiler; source_filename] ++ cf
               ++ [lit "-o"; binary_filename] ++ lf)
      end
  end.

(** ** [create_jupyter_subprocess]  (lines 105-109) *)

(** A [stream] message on the IOPub socket: the stream's name and the text. *)
Definition stream_msg : Type := which * str.

(** ['running cmd: %s\n' % ' '.join(cmd)], written to stderr. *)
Definition running_cmd (cmd : list str) : stream_msg :=
  (Err, lit "running cmd: " ++ join (lit " ") cmd ++ lit "
").

Definition create_jupyter_subprocess (cmd : list str) (spawn : popen_result)
  : list stream_msg * (exn + proc) :=
  match init spawn with
  | (_, Some e) => ([running_cmd cmd], inl (SpawnError e))
  | (_, None) => ([running_cmd cmd], inr spawned)
  end.

Definition compile (compiler source_filename binary_filename : str)
  (cflags ldflags : option (list str)) (spawn : popen_result)
  : list stream_msg * (exn + proc) :=
  match compile_args compiler source_filename binary_filename cflags ldflags with
  | inl e => ([], inl e)
  | inr args => create_jupyter_subprocess args spawn
  end.

(** A token of [str.split()]: not empty, no white space inside. *)
Definition is_token (t : str) : Prop :=
  t <> [] /\ forallb (fun c => negb (isspace c)) t = true.

Definition is_main_no (kv : str * str) : bool :=
  eqb_str (fst kv) (lit "main") && eqb_str (snd kv) (lit "no").

Definition is_key (key : string) (kv : str * str) : bool :=
  eqb_str (fst kv) (lit key).

(** A directive that changes [self.file_suffix]. *)
Definition sets_suffix (kv : str * str) : bool :=
  is_key "suffix" kv || is_key "compiler" kv && contains (lit "nvcc") (snd kv).

(** The directives of a cell applied one after the other. *)
Definition apply_all (ds : list (str * str)) (k : CppKernel) (v : magic_vars)
  : CppKernel * magic_vars :=
  fold_left (fun st kv => magic_apply (fst kv) (snd kv) (fst st) (snd st))
            ds (k, v).

(** The tokens the directives with a given key contribute. *)
Definition tokens_of (key : string) (ds : list (str * str)) : list str :=
  flat_map (fun kv => if is_key key kv then split_ws (strip (snd kv)) else [])
           ds.

(** A line [_magic] puts before the code. *)
Definition is_topcode (t : str) : Prop :=
  (exists header, is_token header /\ t = include_line header) \/
  (exists value, t = namespace_line value).

(** The value of the last directive with a given key, if any. *)
Definition last_value (key : string) (ds : list (str * str)) (default : str)
  : str :=
  fold_left (fun cur kv => if is_key key kv then snd kv else cur) ds default.

(** ** Temporary files  (lines 86-97, 191-193)

    The file system, as far as the kernel touches it: the existing paths
    with their contents. *)

Definition filesystem := list (str * str).

Definition exists_file (path : str) (d : filesystem) : bool :=
  existsb (fun e => eqb_str path (fst e)) d.

(** [os.remove(path)] *)
Definition os_remove (path : str) (d : filesystem) : exn + filesystem :=
  if exists_file path d
  then inr (filter (fun e => negb (eqb_str path (fst e))) d)
  else inl (FileNotFoundError path).

(** [cleanup_files]: the loop stops at the first [os.remove] that raises;
    [self.files] is left as it is. *)
Fixpoint remove_each (paths : list str) (d : filesystem)
  : filesystem * option exn :=
  match paths with
  | [] => (d, None)
  | path :: rest =>
      match os_remove path d with
      | inl e => (d, Some e)
      | inr d' => remove_each rest d'
      end
  end.

Definition cleanup_files (k : CppKernel) (d : filesystem)
  : filesystem * option exn :=
  remove_each (files k) d.

Definition do_shutdown (restart : bool) (k : CppKernel) (d : filesystem)
  : filesystem * option exn :=
  cleanup_files k d.

(** [tempfile.NamedTemporaryFile(suffix=..., delete=False, mode='w')]
    (line 95).  The library chooses a stem (the temporary directory, a
    prefix and a random part) and creates the empty file [stem ++ suffix],
    or it raises.  It raises in particular when the suffix holds a path
    separator: the name then lies inside a directory called by the stem just
    chosen, and there is no such directory. *)
Inductive temp_result := Created (stem : str) | NotCreated.

Definition has_separator (suffix : str) : bool := existsb (N.eqb 47) suffix.

Definition NamedTemporaryFile (suffix : str) (tmp : temp_result) : option str :=
  match tmp with
  | NotCreated => None
  | Created stem =>
      if has_separator suffix then None else Some (stem ++ suffix)
  end.

(** [new_temp_file(suffix=...)]: the name of the file created is appended
    to [self.files]; when line 95 raises, line 96 is not reached. *)
Definition new_temp_file (suffix : str) (tmp : temp_result) (k : CppKernel)
  (d : filesystem) : exn + (CppKernel * filesystem * str) :=
  match NamedTemporaryFile suffix tmp with
  | None => inl TempFileError
  | Some name =>
      inr (mkCppKernel (files k ++ [name]) (file_suffix k) (compiler k),
           (name, []) :: d,
           name)
  end.

(** [file.write(text); file.flush()] on a file just created. *)
Definition write_file (name text : str) (d : filesystem) : filesystem :=
  map (fun e => if eqb_str name (fst e) then (name, text) else e) d.

Definition read_file (name : str) (d : filesystem) : option str :=
  match find (fun e => eqb_str name (fst e)) d with
  | Some e => Some (snd e)
  | None => None
  end.

(** ** [do_execute] up to the creation of the compiler process
    (lines 164-169) *)

Record prepared := mkPrepared {
  source_name : str;
  binary_name : str;
  compiler_proc : proc
}.

Definition do_execute_prepare (code : str) (tmp_src tmp_bin : temp_result)
  (spawn : popen_result) (k : CppKernel) (d : filesystem)
  : CppKernel * filesystem * list console * list stream_msg
    * (exn + prepared) :=
  match _magic code k with
  | (k1, out, inl e) => (k1, d, out, [], inl e)
  | (k1, out, inr (code', cf, lf)) =>
      match new_temp_file (file_suffix k1) tmp_src k1 d with
      | inl e => (k1, d, out, [], inl e)
      | inr (k2, d2, src) =>
          let d3 := write_file src code' d2 in
          match new_temp_file (lit ".out") tmp_bin k2 d3 with
          | inl e => (k2, d3, out, [], inl e)
          | inr (k3, d4, bin) =>
              match compile (compiler k3) src bin (Some cf) (Some lf) spawn with
              | (msgs, inl e) => (k3, d4, out, msgs, inl e)
              | (msgs, inr p) => (k3, d4, out, msgs, inr (mkPrepared src bin p))
              end
          end
      end
  end.

(** Line 182: the command that runs the program. *)
Definition run_cmd (pr : prepared) : list str := [binary_name pr].

(** ** Sample cells *)

Definition plain_cell : str := lit "std::cout << 1;
return 1;".

Definition flags_cell : str := lit "//%cflags: -O2  -Wall
//%compiler: nvcc
//%ldflags:-lm
//%cflags:-g
int x = 0;".

Definition bad_cell : str := lit "//%compiler:clang++
//%cflags:-I/opt:/usr
int x = 0;".

Definition slash_cell : str := lit "//%suffix:/x
int x = 0;".

(** A file system holding two files the kernel made and one it did not. *)
Definition sample_disk : filesystem :=
  [(lit "/tmp/a.cc", lit "int x;"); (lit "/tmp/a.out", []);
   (lit "/home/user/notes", lit "keep")].

Definition sample_kernel : CppKernel :=
  mkCppKernel [lit "/tmp/a.cc"; lit "/tmp/a.out"] (lit ".cc") (lit "g++").

(** ** How often a callback is invoked in one call

    An acceptor over histories that remembers, inside a call of
    [write_contents], which of the two callbacks has been invoked. *)

Inductive delivery_stage :=
| NoCall
| InCall (out_done err_done : bool).

Definition once_step (st : option delivery_stage) (o : op)
  : option delivery_stage :=
  match st with
  | None => None
  | Some NoCall =>
      match o with
      | OpCall => Some (InCall false false)
      | OpReturn => None
      | OpCallback _ _ => None
      | _ => st
      end
  | Some (InCall a b) =>
      match o with
      | OpCall => None
      | OpReturn => Some NoCall
      | OpCallback Out _ => if a then None else Some (InCall true b)
      | OpCallback Err _ => if b then None else Some (InCall a true)
      | _ => st
      end
  end.

Definition once_run (st : option delivery_stage) (h : list op)
  : option delivery_stage :=
  fold_left once_step h st.

Definition once_ok (pc : flush_pc) (st : delivery_stage) : Prop :=
  match pc with
  | Idle => st = NoCall
  | Snapshot Out => st = InCall false false
  | Draining Out _ _ => st = InCall false false
  | Deliver Out _ => st = InCall false false
  | Snapshot Err => exists a, st = InCall a false
  | Draining Err _ _ => exists a, st = InCall a false
  | Deliver Err _ => exists a, st = InCall a false
  | Raised => True
  end.

Definition done_for (w : which) (st : delivery_stage) : bool :=
  match st, w with
  | InCall a _, Out => a
  | InCall _ b, Err => b
  | NoCall, _ => false
  end.

(** ** What is known of the processes of [do_execute] *)

Definition compiled_ok (k : kernel) : Prop :=
  (forall q p rest, procs_of k = q :: p :: rest -> returncode q = Some 0%Z)
  /\ (forall p,
        pc k = Returned [p] ->
        nonzero (returncode p) = true /\
        In (CompileFailed (returncode p)) (iopub k)).

(** ** Letting one drain thread and the caller run *)

(** What is left for the drain thread of a channel to do. *)
Definition drain_work (c : channel) : nat :=
  2 * length (buffered (stream c)) +
  match thread c with Putting _ => 1 | _ => 0 end.

Definition drain_ready (c : channel) : Prop :=
  thread c <> Crashed /\
  (closed (stream c) = true -> thread c = Finished) /\
  (thread c = Closing \/ thread c = Finished -> buffered (stream c) = []).

Definition only_drain_and_flush (w : which) (sch : list action) : Prop :=
  Forall (fun a => a = Drain w false \/ a = Flush) sch.

(** [n] steps of the drain thread of [w], seen on its channel. *)
Fixpoint drain_times (w : which) (n : nat) (c : channel) : channel :=
  match n with
  | O => c
  | S n' => drain_times w n' (fst (enqueue_output_step w false c))
  end.

(** * Properties *)

(** ** Histories grow at the end *)

Lemma reads_app w h1 h2 : reads w (h1 ++ h2) = reads w h1 ++ reads w h2.
Proof. apply flat_map_app. Qed.

Lemma puts_app w h1 h2 : puts w (h1 ++ h2) = puts w h1 ++ puts w h2.
Proof. apply flat_map_app. Qed.

Lemma gets_app w h1 h2 : gets w (h1 ++ h2) = gets w h1 ++ gets w h2.
Proof. apply flat_map_app. Qed.

Lemma callbacks_app w h1 h2 :
  callbacks w (h1 ++ h2) = callbacks w h1 ++ callbacks w h2.
Proof. apply flat_map_app. Qed.

Lemma delivered_app w h1 h2 :
  delivered w (h1 ++ h2) = delivered w h1 ++ delivered w h2.
Proof. unfold delivered. rewrite callbacks_app. apply concat_app. Qed.

Lemma cur_gets_snoc w h o :
  cur_gets w (h ++ [o]) =
  match o with
  | OpCall => []
  | OpGet w' line => if which_eqb w w' then cur_gets w h ++ [line] else cur_gets w h
  | _ => cur_gets w h
  end.
Proof. unfold cur_gets. rewrite fold_left_app. reflexivity. Qed.

Lemma stage_run_app st h1 h2 :
  stage_run st (h1 ++ h2) = stage_run (stage_run st h1) h2.
Proof. apply fold_left_app. Qed.

Lemma stage_run_none h : stage_run None h = None.
Proof. induction h; simpl; auto. Qed.

Lemma run_app sch1 sch2 s : run (sch1 ++ sch2) s = run sch2 (run sch1 s).
Proof. revert s. induction sch1; simpl; auto. Qed.

Lemma which_eqb_refl w : which_eqb w w = true.
Proof. destruct w; reflexivity. Qed.

(** ** What one drain step does to its channel *)

Lemma read_data n p line p' :
  read n p = (ReadData line, p') ->
  line = firstn n (buffered p) /\ buffered p' = skipn n (buffered p) /\
  buffered p <> [] /\ writer_open p' = writer_open p /\ closed p' = closed p.
Proof.
  unfold read. destruct (closed p) eqn:Hc; [discriminate|].
  destruct (buffered p) as [|b bs] eqn:Hb.
  - destruct (writer_open p); discriminate.
  - intros H. inversion H; subst; simpl. repeat split; auto. discriminate.
Qed.

Lemma read_eof n p p' :
  read n p = (ReadEof, p') ->
  p' = p /\ buffered p = [] /\ writer_open p = false.
Proof.
  unfold read. destruct (closed p); [discriminate|].
  destruct (buffered p); [|discriminate].
  destruct (writer_open p); [discriminate|].
  intros H; inversion H; auto.
Qed.

Lemma read_error n p p' : read n p = (ReadError, p') -> p' = p.
Proof.
  unfold read. destruct (closed p).
  - intros H; inversion H; auto.
  - destruct (buffered p); [destruct (writer_open p)|]; discriminate.
Qed.

Lemma inv_spawned : inv spawned.
Proof.
  split; [intros w; split; destruct w | | |]; simpl; auto; try discriminate.
  1,2: intros [X|X]; discriminate.
  exact I.
Qed.

Ltac hist :=
  repeat (rewrite ?reads_app, ?puts_app, ?gets_app, ?callbacks_app,
           ?delivered_app, ?cur_gets_snoc, ?stage_run_app, ?concat_app,
           ?which_eqb_refl, ?app_nil_r; simpl).

Lemma inv_child_write w data s : inv s -> inv (child_write w data s).
Proof.
  intros [Hc Hcall Hst Hr]. unfold child_write.
  destruct (exit_status s) eqn:He; [split; auto|].
  destruct (writer_open (stream (chan w s))) eqn:Hw; [|split; auto].
  split; [| destruct s, w; simpl in *; auto ..].
  intros w'. destruct (Hc w') as [H1 H2 H3 H4 H5 H6 H7 H8].
  destruct s as [o e es rc f h]; destruct w, w'; simpl in *;
    split; simpl; auto; unfold os_write; rewrite ?Hw; simpl;
    try (rewrite H3, app_assoc; reflexivity).
  all: intros X; destruct (H7 X); congruence.
Qed.

Lemma inv_child_close w s : inv s -> inv (child_close w s).
Proof.
  intros [Hc Hcall Hst Hr]. unfold child_close.
  destruct (exit_status s) eqn:He; [split; auto|].
  split; [| destruct s, w; simpl in *; auto ..].
  intros w'. destruct (Hc w') as [H1 H2 H3 H4 H5 H6 H7 H8].
  destruct s as [o e es rc f h]; destruct w, w'; simpl in *;
    split; simpl; auto.
  all: intros X; destruct (H7 X); auto.
Qed.

Lemma inv_child_exit code s : inv s -> inv (child_exit code s).
Proof.
  intros [Hc Hcall Hst Hr]. unfold child_exit.
  destruct (exit_status s) eqn:He; [split; auto|].
  split; [| destruct s; simpl in *; auto ..].
  intros w'. destruct (Hc w') as [H1 H2 H3 H4 H5 H6 H7 H8].
  destruct s as [o e es rc f h]; destruct w'; simpl in *;
    split; simpl; auto.
  all: intros X; destruct (H7 X); auto.
Qed.

Lemma inv_poll s : inv s -> inv (poll s).
Proof.
  intros [Hc Hcall Hst Hr].
  split.
  - intros w'. destruct (Hc w') as [H1 H2 H3 H4 H5 H6 H7 H8].
    destruct s as [o e es rc f h]; destruct w'; simpl in *;
      split; simpl; hist; auto.
  - destruct s as [o e es rc f h]; unfold call_inv in *; simpl in *.
    destruct f as [|[]|[]|[]|]; hist; auto.
  - destruct s as [o e es rc f h]; simpl in *. hist. rewrite Hst.
    destruct f as [|[]|[]|[]|]; simpl; auto.
  - destruct s; simpl in *; auto.
Qed.

Lemma chan_log w ops s : chan w (log ops s) = chan w s.
Proof. destruct w; reflexivity. Qed.

Lemma chan_set_fpc w pc s : chan w (set_fpc pc s) = chan w s.
Proof. destruct w; reflexivity. Qed.

Lemma history_log ops s : history (log ops s) = history s ++ ops.
Proof. reflexivity. Qed.

Lemma history_set_chan w c s : history (set_chan w c s) = history s.
Proof. destruct w; reflexivity. Qed.

Lemma history_set_fpc pc s : history (set_fpc pc s) = history s.
Proof. reflexivity. Qed.

Lemma fpc_log ops s : fpc (log ops s) = fpc s.
Proof. reflexivity. Qed.

Lemma fpc_set_chan w c s : fpc (set_chan w c s) = fpc s.
Proof. destruct w; reflexivity. Qed.

Lemma fpc_set_fpc pc s : fpc (set_fpc pc s) = pc.
Proof. reflexivity. Qed.

Lemma chan_set_same w c s : chan w (set_chan w c s) = c.
Proof. destruct w; reflexivity. Qed.


Create Rewrite HintDb proc.
#[local] Hint Rewrite chan_log chan_set_fpc history_log history_set_chan
  history_set_fpc fpc_log fpc_set_chan fpc_set_fpc chan_set_same : proc.

Ltac norm := autorewrite with proc; simpl.

Lemma chan_inv_frame w s s' ops :
  chan w s' = chan w s -> fpc s' = fpc s -> history s' = history s ++ ops ->
  reads w ops = [] -> puts w ops = [] -> gets w ops = [] ->
  callbacks w ops = [] ->
  chan_inv w s -> chan_inv w s'.
Proof.
  intros Hc Hf Hh Hr Hp Hg Hcb [H1 H2 H3 H4 H5 H6 H7 H8].
  split; rewrite ?Hc, ?Hf, ?Hh; unfold delivered;
    rewrite ?reads_app, ?puts_app, ?gets_app, ?callbacks_app, ?Hr, ?Hp, ?Hg, ?Hcb,
      ?app_nil_r; auto.
Qed.


Lemma which_eqb_neq a b : a <> b -> which_eqb a b = false.
Proof. destruct a, b; simpl; congruence. Qed.

Lemma enqueue_output_ops_other w w' fault c :
  w <> w' ->
  let ops := snd (enqueue_output_step w' fault c) in
  reads w ops = [] /\ puts w ops = [] /\ gets w ops = [] /\ callbacks w ops = [].
Proof.
  intros Hn. unfold enqueue_output_step.
  destruct (thread c); simpl; auto.
  - destruct fault; simpl; auto.
    destruct (read chunk_size (stream c)) as [[] ?]; simpl;
      rewrite ?(which_eqb_neq _ _ Hn); auto.
  - rewrite (which_eqb_neq _ _ Hn); auto.
Qed.

Lemma enqueue_output_chan_inv w fault s :
  chan_inv w s -> chan_inv w (drain_step w fault s).
Proof.
  intros [H1 H2 H3 H4 H5 H6 H7 H8]. unfold drain_step, enqueue_output_step.
  destruct (thread (chan w s)) eqn:Ht; simpl in *; rewrite ?app_nil_r in *.
  - destruct fault.
    + split; norm; hist; auto. intros [X|X]; discriminate.
    + destruct (read chunk_size (stream (chan w s))) as [r p'] eqn:Hrd.
      destruct r.
      * apply read_data in Hrd. destruct Hrd as (Hl & Hb & Hne & Hw & Hcl).
        split; norm; hist; rewrite ?which_eqb_refl; simpl; auto;
          try (intros [X|X]; discriminate).
        -- rewrite H1. reflexivity.
        -- rewrite H3, Hb, Hl, <- app_assoc, firstn_skipn. reflexivity.
        -- apply Forall_app; split; auto. constructor; auto. split.
           ++ rewrite Hl. destruct (buffered (stream (chan w s))); [congruence|].
              unfold chunk_size. simpl. discriminate.
           ++ rewrite Hl. apply firstn_le_length.
      * apply read_eof in Hrd. destruct Hrd as (-> & Hb & Hw).
        split; norm; hist; auto.
      * split; norm; hist; rewrite ?Ht; simpl; rewrite ?app_nil_r; auto.
      * apply read_error in Hrd. subst p'.
        split; norm; hist; auto. intros [X|X]; discriminate.
  - split; norm; hist; rewrite ?which_eqb_refl; simpl; auto;
      try (intros [X|X]; discriminate).
    + unfold Queue.put. rewrite H2, app_assoc. reflexivity.
    + intros n res Hf. unfold Queue.put. rewrite length_app. simpl.
      specialize (H6 _ _ Hf). lia.
  - split; norm; hist; auto.
  - split; norm; hist; rewrite ?Ht; simpl; rewrite ?app_nil_r; auto.
  - split; norm; hist; rewrite ?Ht; simpl; rewrite ?app_nil_r; auto.
Qed.

Lemma enqueue_output_ops w fault c :
  Forall (fun o => is_caller_op o = false) (snd (enqueue_output_step w fault c)).
Proof.
  unfold enqueue_output_step.
  destruct (thread c); simpl; auto.
  destruct fault; simpl; auto.
  destruct (read chunk_size (stream c)) as [[] ?]; simpl; auto.
Qed.

Lemma cur_gets_silent w h ops :
  Forall (fun o => is_caller_op o = false) ops ->
  cur_gets w (h ++ ops) = cur_gets w h.
Proof.
  intros H. unfold cur_gets. rewrite fold_left_app.
  induction H as [|o ops Ho _ IH]; simpl; auto.
  destruct o; try discriminate; auto.
Qed.

Lemma stage_step_silent st o :
  is_caller_op o = false -> stage_step st o = st.
Proof. destruct st as [[]|], o; simpl; auto; discriminate. Qed.

Lemma stage_run_silent st h ops :
  Forall (fun o => is_caller_op o = false) ops ->
  stage_run st (h ++ ops) = stage_run st h.
Proof.
  intros H. rewrite stage_run_app. generalize (stage_run st h). 
  induction H as [|o ops Ho _ IH]; simpl; auto.
  intros st'. rewrite stage_step_silent by auto. apply IH.
Qed.

Lemma inv_drain w fault s : inv s -> inv (drain_step w fault s).
Proof.
  intros [Hc Hcall Hst Hr].
  assert (Hh : history (drain_step w fault s) =
               history s ++ snd (enqueue_output_step w fault (chan w s))).
  { unfold drain_step. destruct (enqueue_output_step w fault (chan w s)).
    norm. reflexivity. }
  assert (Hf : fpc (drain_step w fault s) = fpc s).
  { unfold drain_step. destruct (enqueue_output_step w fault (chan w s)).
    norm. reflexivity. }
  pose proof (enqueue_output_ops w fault (chan w s)) as Hops.
  split.
  - intros w'. destruct w, w'; try (apply enqueue_output_chan_inv; apply Hc).
    + assert (Hn : Err <> Out) by discriminate.
      destruct (enqueue_output_ops_other Err Out fault (stdout s) Hn) as (A & B & C & D).
      apply chan_inv_frame with (s := s)
        (ops := snd (enqueue_output_step Out fault (chan Out s))); auto.
      unfold drain_step. simpl chan at 2.
      destruct (enqueue_output_step Out fault (stdout s)). reflexivity.
    + assert (Hn : Out <> Err) by discriminate.
      destruct (enqueue_output_ops_other Out Err fault (stderr s) Hn) as (A & B & C & D).
      apply chan_inv_frame with (s := s)
        (ops := snd (enqueue_output_step Err fault (chan Err s))); auto.
      unfold drain_step. simpl chan at 2.
      destruct (enqueue_output_step Err fault (stderr s)). reflexivity.
  - unfold call_inv. rewrite Hf, Hh, !cur_gets_silent by assumption. exact Hcall.
  - rewrite Hf, Hh, stage_run_silent by assumption. exact Hst.
  - rewrite Hf. exact Hr.
Qed.

Ltac fin :=
  simpl in *; rewrite ?app_nil_r in *; auto;
  try (intros; discriminate); try congruence.

Lemma inv_write_contents s : inv s -> inv (write_contents_step s).
Proof.
  intros [Hc Hcall Hst Hr]. unfold write_contents_step.
  destruct (fpc s) as [|w|w n res|w res|] eqn:Hf.
  - split; norm; hist; auto; try discriminate.
    + intros w'. destruct (Hc w') as [H1 H2 H3 H4 H5 H6 H7 H8].
      rewrite Hf in *. split; norm; hist; fin.
    + unfold call_inv. norm. hist. auto.
    + rewrite Hst. reflexivity.
  - split; norm; hist; auto; try discriminate.
    + intros w'. destruct (Hc w') as [H1 H2 H3 H4 H5 H6 H7 H8].
      rewrite Hf in *. split; norm; hist; fin.
      * destruct (which_eqb w' w); fin.
      * intros n res X. inversion X; subst. reflexivity.
    + unfold call_inv in *. rewrite Hf in *. norm. hist.
      destruct w; simpl in *;
        [destruct Hcall as [A B]; rewrite A, B | rewrite Hcall]; auto.
    + rewrite Hst. destruct w; reflexivity.
  - destruct n as [|n].
    + split; norm; hist; auto; try discriminate.
      * intros w'. destruct (Hc w') as [H1 H2 H3 H4 H5 H6 H7 H8].
        rewrite Hf in *. split; norm; hist; fin.
      * unfold call_inv in *. rewrite Hf in *. norm. destruct w; auto.
    + pose proof (ci_size _ _ (Hc w) _ _ Hf) as Hlen.
      destruct (queue (chan w s)) as [|line q'] eqn:Hq; [simpl in Hlen; lia|].
      simpl. split; norm; hist; auto; try discriminate.
      * intros w'. destruct (Hc w') as [H1 H2 H3 H4 H5 H6 H7 H8].
        rewrite Hf in *.
        destruct w, w'; simpl in *; rewrite ?Hq in *;
          split; norm; hist; fin.
        all: try (rewrite H2, <- app_assoc; reflexivity).
        all: try (rewrite H4, <- app_assoc; reflexivity).
        all: intros n0 res0 X; inversion X; subst; simpl in Hlen; lia.
      * unfold call_inv in *. rewrite Hf in *. norm. hist.
        destruct w; simpl in *; hist.
        -- destruct Hcall as [A B]. rewrite A, B. auto.
        -- rewrite Hcall. auto.
      * rewrite Hst. destruct w; reflexivity.
  - split.
    + intros w'. destruct (Hc w') as [H1 H2 H3 H4 H5 H6 H7 H8].
      rewrite Hf in *.
      destruct w, w', res as [|b res]; simpl in *;
        split; norm; unfold delivered in *; hist; fin.
      all: apply Forall_app; split; auto; constructor; auto; discriminate.
    + unfold call_inv in *. rewrite Hf in *.
      destruct w, res as [|b res]; simpl in *; norm; hist; tauto.
    + destruct w, res as [|b res]; simpl in *; norm; hist;
        rewrite Hst; reflexivity.
    + destruct w; simpl; discriminate.
  - contradiction.
Qed.

Lemma inv_step a s : inv s -> inv (step a s).
Proof.
  destruct a; simpl.
  - apply inv_child_write.
  - apply inv_child_close.
  - apply inv_child_exit.
  - apply inv_drain.
  - apply inv_write_contents.
  - apply inv_poll.
Qed.

Lemma inv_run sch s : inv s -> inv (run sch s).
Proof.
  revert s. induction sch as [|a sch IH]; simpl; auto using inv_step.
Qed.

Lemma inv_reachable sch : inv (run sch spawned).
Proof. apply inv_run, inv_spawned. Qed.

(** ** Where callbacks happen (C6, C9) *)

Lemma accepted sch :
  exists st, stage_run (Some Outside) (history (run sch spawned)) = Some st.
Proof.
  destruct (inv_reachable sch) as [_ _ Hst Hr]. rewrite Hst.
  destruct (fpc (run sch spawned)) as [|[]|[]|[]|]; simpl; eauto. contradiction.
Qed.

Lemma stage_run_cons st o h :
  stage_run st (o :: h) = stage_run (stage_step st o) h.
Proof. reflexivity. Qed.

Lemma in_is_return h : existsb is_return h = true -> In OpReturn h.
Proof.
  rewrite existsb_exists. intros (o & Hin & Ho). destruct o; try discriminate. exact Hin.
Qed.

Lemma late_stays h st :
  stage_run (Some Late) h = Some st -> existsb is_return h = false -> st = Late.
Proof.
  induction h as [|o h IH]; simpl.
  - congruence.
  - intros Hrun Hex. apply orb_false_elim in Hex. destruct Hex as [Ho Hex].
    destruct o; simpl in *; try discriminate; auto;
      try (rewrite stage_run_none in Hrun; discriminate);
      match goal with w : which |- _ => destruct w end; simpl in *; auto;
      rewrite stage_run_none in Hrun; discriminate.
Qed.

Lemma stdout_before_stderr sch h1 o1 h2 o2 h3 :
  history (run sch spawned) = h1 ++ o1 :: h2 ++ o2 :: h3 ->
  side o1 = Some Err -> side o2 = Some Out -> In OpReturn h2.
Proof.
  intros Hh H1 H2. destruct (accepted sch) as [st Hacc].
  rewrite Hh, stage_run_app, stage_run_cons, stage_run_app, stage_run_cons in Hacc.
  destruct (existsb is_return h2) eqn:Hex; [apply in_is_return; exact Hex|].
  exfalso.
  assert (Hl : stage_step (stage_run (Some Outside) h1) o1 = Some Late
               \/ stage_step (stage_run (Some Outside) h1) o1 = None).
  { destruct (stage_run (Some Outside) h1) as [[]|], o1; simpl in *;
      try discriminate; auto; inversion H1; subst; auto. }
  destruct Hl as [Hl|Hl]; rewrite Hl in Hacc.
  - destruct (stage_run (Some Late) h2) as [st2|] eqn:H2run.
    + apply late_stays in H2run; auto. subst st2.
      destruct o2; simpl in *; try discriminate; inversion H2; subst;
        simpl in Hacc; rewrite stage_run_none in Hacc; discriminate.
    + simpl in Hacc. rewrite stage_run_none in Hacc. discriminate.
  - rewrite stage_run_none in Hacc. simpl in Hacc.
    rewrite stage_run_none in Hacc. discriminate.
Qed.

Lemma inside_call h st :
  stage_run (Some Outside) h = Some st -> st <> Outside ->
  exists h0 h', h = h0 ++ OpCall :: h' /\
                existsb is_return h' = false /\ existsb is_call h' = false.
Proof.
  revert st. induction h as [|o h IH] using rev_ind; intros st.
  - simpl. intros H. inversion H. congruence.
  - rewrite stage_run_app. simpl. intros Hrun Hne.
    destruct (stage_run (Some Outside) h) as [st0|] eqn:Hst0; [|discriminate].
    destruct o.
    1-3,5-7,9:
      (assert (Hne0 : st0 <> Outside)
        by (intros ->; simpl in Hrun; try destruct w; simpl in Hrun; congruence);
       destruct (IH st0 eq_refl Hne0) as (h0 & h' & -> & Hr & Hc);
       exists h0; eexists; rewrite <- app_assoc; simpl; split; [reflexivity|];
       rewrite !existsb_app, Hr, Hc; simpl; auto).
    + exists h, []. simpl. auto.
    + destruct st0; simpl in Hrun; inversion Hrun; subst; congruence.
Qed.

Lemma callback_inside_call sch h1 w d h2 :
  history (run sch spawned) = h1 ++ OpCallback w d :: h2 ->
  exists h0 h', h1 = h0 ++ OpCall :: h' /\
                existsb is_return h' = false /\ existsb is_call h' = false.
Proof.
  intros Hh. destruct (accepted sch) as [st Hacc].
  rewrite Hh, stage_run_app, stage_run_cons in Hacc.
  destruct (stage_run (Some Outside) h1) as [st1|] eqn:H1.
  - apply (inside_call h1 st1 H1). intros ->. simpl in Hacc.
    rewrite stage_run_none in Hacc. discriminate.
  - simpl in Hacc. rewrite stage_run_none in Hacc. discriminate.
Qed.

Lemma only_flush_calls_back a s :
  is_flush a = false ->
  filter is_callback (history (step a s)) = filter is_callback (history s).
Proof.
  destruct a; simpl; try discriminate; intros _.
  - unfold child_write. destruct (exit_status s); auto.
    destruct (writer_open _); auto. rewrite history_set_chan. reflexivity.
  - unfold child_close. destruct (exit_status s); auto.
    rewrite history_set_chan. reflexivity.
  - unfold child_exit. destruct (exit_status s); auto.
  - unfold drain_step.
    pose proof (enqueue_output_ops w fault (chan w s)) as Hops.
    destruct (enqueue_output_step w fault (chan w s)) as [c ops]. simpl in Hops.
    rewrite history_log, history_set_chan, filter_app.
    replace (filter is_callback ops) with (@nil op); [apply app_nil_r|].
    induction Hops as [|o ops Ho _ IH]; simpl; auto.
    destruct o; simpl in *; try discriminate; auto.
  - rewrite filter_app. simpl. apply app_nil_r.
Qed.

(** C6: every invocation of a consumer callback happens inside a call of
    [write_contents]: in any reachable history a callback operation is
    preceded by a call that has not returned yet; and no step of a drain
    thread (nor of the child, nor [poll]) invokes a callback: only steps of
    [write_contents] add callback invocations to the history. *)
Theorem C6_callbacks_only_in_flush sch :
  let s := run sch spawned in
  (forall h1 w d h2,
     history s = h1 ++ OpCallback w d :: h2 ->
     exists h0 h', h1 = h0 ++ OpCall :: h' /\
                   existsb is_return h' = false /\ existsb is_call h' = false)
  /\ (forall w fault,
        filter is_callback (history (drain_step w fault s)) =
        filter is_callback (history s))
  /\ (forall a, is_flush a = false ->
        filter is_callback (history (step a s)) = filter is_callback (history s)).
Proof.
  intros s. split; [|split].
  - intros h1 w d h2. apply callback_inside_call.
  - intros w fault. apply (only_flush_calls_back (Drain w fault)). reflexivity.
  - intros a. apply only_flush_calls_back.
Qed.

Lemma C6_callbacks_only_in_flush_witness :
  (exists h0 h',
     [OpRead Out (ReadData hello); OpPut Out hello; OpRead Out ReadEof;
      OpClose Out; OpRead Err ReadEof; OpClose Err; OpPoll (Some 0%Z);
      OpCall; OpQsize Out 1; OpGet Out hello] = h0 ++ OpCall :: h' /\
     existsb is_return h' = false /\ existsb is_call h' = false)
  /\ filter is_callback (history (step Poll (run echo_hello spawned))) =
     [OpCallback Out hello].
Proof.
  destruct (C6_callbacks_only_in_flush echo_hello) as (Hin & _ & Hstep).
  split.
  - apply (Hin _ Out hello [OpQsize Err 0; OpReturn]). reflexivity.
  - rewrite (Hstep Poll); reflexivity.
Defined.

(** C9: inside one call of [write_contents] everything done for stdout (the
    queue-length snapshot, the removals, the callback) comes before
    everything done for stderr: whenever a stderr operation precedes a stdout
    operation in a reachable history, a return from [write_contents] lies
    between them, so the two belong to different calls. *)
Theorem C9_stdout_before_stderr sch h1 o1 h2 o2 h3 :
  history (run sch spawned) = h1 ++ o1 :: h2 ++ o2 :: h3 ->
  side o1 = Some Err -> side o2 = Some Out -> In OpReturn h2.
Proof. apply stdout_before_stderr. Qed.

Lemma C9_stdout_before_stderr_witness : In OpReturn [OpReturn; OpCall].
Proof.
  apply (C9_stdout_before_stderr two_flushes
           [OpCall; OpQsize Out 0] (OpQsize Err 0) [OpReturn; OpCall]
           (OpQsize Out 0) [OpQsize Err 0; OpReturn]); reflexivity.
Defined.

(** ** The drain loop (C3, C8) *)

Lemma finished_forever sch w s :
  thread (chan w s) = Finished -> thread (chan w (run sch s)) = Finished.
Proof.
  revert s. induction sch as [|a sch IH]; simpl; auto.
  intros s Ht. apply IH. destruct a; simpl.
  - unfold child_write. destruct (exit_status s); auto.
    destruct (writer_open _); auto. destruct w, w0; simpl in *; auto.
  - unfold child_close. destruct (exit_status s); auto.
    destruct w, w0; simpl in *; auto.
  - unfold child_exit. destruct (exit_status s); auto. destruct w; simpl; auto.
  - unfold drain_step, enqueue_output_step.
    destruct w, w0; simpl in *; rewrite ?Ht; simpl; auto.
    + destruct (thread (stderr s)); simpl; auto.
      destruct fault; simpl; auto.
      destruct (read chunk_size (stream (stderr s))) as [[] ?]; simpl; auto.
    + destruct (thread (stdout s)); simpl; auto.
      destruct fault; simpl; auto.
      destruct (read chunk_size (stream (stdout s))) as [[] ?]; simpl; auto.
  - unfold write_contents_step. destruct (fpc s) as [| |w1 [|n] res|w1 res|]; norm; auto.
    + destruct (Queue.get_nowait (queue (chan w1 s))) as [[line q']|]; norm; auto.
      destruct w, w1; simpl in *; auto.
    + destruct w1; norm; auto.
  - destruct w; simpl; auto.
Qed.

Lemma queue_in_read_order sch w :
  let s := run sch spawned in
  reads w (history s) =
  gets w (history s) ++ queue (chan w s) ++ held (thread (chan w s)).
Proof.
  intros s. destruct (inv_chan _ (inv_reachable sch) w) as [H1 H2 _ _ _ _ _ _].
  fold s in H1, H2. rewrite H1, H2, app_assoc. reflexivity.
Qed.

(** C3: one iteration of [_enqueue_output].  At the loop head the thread
    reads at most 4096 bytes, exactly what the pipe holds up to that size,
    and waits while there is nothing to read.  A read that returns data is
    followed by one [put] of exactly those bytes at the tail of the queue and
    a return to the loop head.  A read that returns no bytes is followed by
    [stream.close()], after which the thread is over for good: no schedule
    starts it again.  In every reachable state the chunks read from a stream
    are, in read order, the chunks already removed, then the queue content,
    then the chunk the thread still holds. *)
Theorem C3_drain_loop w :
  (forall c line p',
     thread c = Reading -> read chunk_size (stream c) = (ReadData line, p') ->
     enqueue_output_step w false c =
       (mkChannel (written c) p' (Putting line) (queue c),
        [OpRead w (ReadData line)])
     /\ line = firstn 4096 (buffered (stream c))
     /\ 0 < length line <= 4096
     /\ buffered (stream c) = line ++ buffered p')
  /\ (forall c,
        thread c = Reading -> fst (read chunk_size (stream c)) = ReadBlocked ->
        enqueue_output_step w false c = (c, []))
  /\ (forall c fault line,
        thread c = Putting line ->
        enqueue_output_step w fault c =
          (mkChannel (written c) (stream c) Reading (queue c ++ [line]),
           [OpPut w line]))
  /\ (forall c p',
        thread c = Reading -> read chunk_size (stream c) = (ReadEof, p') ->
        enqueue_output_step w false c =
          (mkChannel (written c) (stream c) Closing (queue c),
           [OpRead w ReadEof]))
  /\ (forall c fault,
        thread c = Closing ->
        enqueue_output_step w fault c =
          (mkChannel (written c) (close (stream c)) Finished (queue c),
           [OpClose w]))
  /\ (forall c fault,
        thread c = Finished -> enqueue_output_step w fault c = (c, []))
  /\ (forall sch s,
        thread (chan w s) = Finished ->
        thread (chan w (run sch s)) = Finished)
  /\ (forall sch,
        let s := run sch spawned in
        reads w (history s) =
          gets w (history s) ++ queue (chan w s) ++ held (thread (chan w s))
        /\ Forall (fun line => 0 < length line <= 4096) (reads w (history s))).
Proof.
  repeat split.
  - unfold enqueue_output_step. rewrite H, H0. reflexivity.
  - apply read_data in H0. tauto.
  - apply read_data in H0. destruct H0 as (-> & _ & Hne & _).
    destruct (buffered (stream c)); [congruence|simpl; lia].
  - apply read_data in H0. destruct H0 as (-> & _). apply firstn_le_length.
  - apply read_data in H0. destruct H0 as (-> & -> & _).
    symmetry; apply firstn_skipn.
  - intros c Ht Hb. unfold enqueue_output_step. rewrite Ht.
    destruct (read chunk_size (stream c)) as [r p']. simpl in Hb. subst r.
    reflexivity.
  - intros c fault line Ht. unfold enqueue_output_step. rewrite Ht. reflexivity.
  - intros c p' Ht Hr. unfold enqueue_output_step. rewrite Ht, Hr.
    apply read_eof in Hr. destruct Hr as (-> & _). reflexivity.
  - intros c fault Ht. unfold enqueue_output_step. rewrite Ht. reflexivity.
  - intros c fault Ht. unfold enqueue_output_step. rewrite Ht. reflexivity.
  - intros sch s. apply finished_forever.
  - apply queue_in_read_order.
  - destruct (inv_chan _ (inv_reachable sch) w) as [_ _ _ _ H5 _ _ _].
    eapply Forall_impl; [|exact H5]. intros line [Hne Hle].
    unfold chunk_size in Hle. destruct line; [congruence|simpl in *; lia].
Qed.

Lemma C3_drain_loop_witness :
  enqueue_output_step Out false hello_channel =
    (mkChannel hello (mkPipe [] true false) (Putting hello) [],
     [OpRead Out (ReadData hello)])
  /\ thread (chan Out (run [Drain Out false; Flush] (run echo_hello spawned)))
     = Finished.
Proof.
  destruct (C3_drain_loop Out) as (Hread & _ & _ & _ & _ & _ & Hfin & _).
  split.
  - apply (Hread hello_channel hello (mkPipe [] true false)); reflexivity.
  - apply (Hfin [Drain Out false; Flush] (run echo_hello spawned)). reflexivity.
Defined.

Lemma cur_gets_suffix w h : exists pre, gets w h = pre ++ cur_gets w h.
Proof.
  induction h as [|o h [pre IH]] using rev_ind.
  - exists []. reflexivity.
  - rewrite gets_app, cur_gets_snoc, IH.
    destruct o; simpl; rewrite ?app_nil_r; eauto.
    + exists (pre ++ cur_gets w h). rewrite app_nil_r. reflexivity.
    + destruct (which_eqb w w0); simpl; rewrite ?app_nil_r; eauto.
      exists pre. rewrite app_assoc. reflexivity.
Qed.

Lemma concat_nonempty (l : list bytes) :
  Forall (fun x => x <> []) l -> concat l = [] -> l = [].
Proof.
  destruct l as [|x l]; auto. intros H Hc. inversion H; subst.
  simpl in Hc. apply app_eq_nil in Hc. tauto.
Qed.

Lemma chunks_nonempty sch w :
  let s := run sch spawned in
  Forall (fun line => line <> []) (puts w (history s)) /\
  Forall (fun line => line <> []) (gets w (history s)) /\
  Forall (fun line => line <> []) (queue (chan w s)).
Proof.
  intros s. destruct (inv_chan _ (inv_reachable sch) w) as [H1 H2 _ _ H5 _ _ _].
  fold s in H1, H2, H5.
  assert (Hp : Forall (fun line : bytes => line <> []) (puts w (history s))).
  { rewrite H1 in H5. apply Forall_app in H5. destruct H5 as [H5 _].
    eapply Forall_impl; [|exact H5]. intros l [Hl _]. exact Hl. }
  split; auto. rewrite H2 in Hp. apply Forall_app in Hp. exact Hp.
Qed.

(** C8: every chunk a drain thread has ever put on a queue is non-empty, and
    so is every chunk in a queue; hence when [write_contents] reaches the
    test [if contents:] for a stream, [contents] is empty exactly when the
    call removed no chunk from that stream's queue. *)
Theorem C8_chunks_nonempty sch w :
  let s := run sch spawned in
  Forall (fun line => line <> []) (puts w (history s))
  /\ Forall (fun line => line <> []) (queue (chan w s))
  /\ (forall res, fpc s = Deliver w res ->
        res = concat (cur_gets w (history s)) /\
        (res = [] <-> cur_gets w (history s) = [])).
Proof.
  intros s. destruct (chunks_nonempty sch w) as (Hp & Hg & Hq). fold s in Hp, Hg, Hq.
  split; [exact Hp|split; [exact Hq|]].
  intros res Hf.
  pose proof (inv_call _ (inv_reachable sch)) as Hcall. fold s in Hcall.
  unfold call_inv in Hcall. rewrite Hf in Hcall.
  assert (Hres : res = concat (cur_gets w (history s))).
  { destruct w; [destruct Hcall as [Hcall _]|]; auto. }
  split; [exact Hres|]. split.
  - intros ->. apply concat_nonempty; auto.
    destruct (cur_gets_suffix w (history s)) as [pre Hpre].
    rewrite Hpre in Hg. apply Forall_app in Hg. tauto.
  - intros Hc. rewrite Hres, Hc. reflexivity.
Qed.

Lemma C8_chunks_nonempty_witness :
  hello = concat (cur_gets Out (history (run at_deliver spawned))) /\
  (hello = [] <-> cur_gets Out (history (run at_deliver spawned)) = []).
Proof.
  destruct (C8_chunks_nonempty at_deliver Out) as (_ & _ & H).
  apply (H hello). reflexivity.
Defined.

(** ** One call of [write_contents] under interleaving (C2) *)

Lemma gets_silent w ops :
  Forall (fun o => is_caller_op o = false) ops -> gets w ops = [].
Proof.
  induction 1 as [|o ops Ho _ IH]; simpl; auto.
  destruct o; simpl in *; try discriminate; auto.
Qed.

Lemma env_step_effect a s w :
  is_flush a = false ->
  fpc (step a s) = fpc s /\
  gets w (history (step a s)) = gets w (history s) /\
  exists app, queue (chan w (step a s)) = queue (chan w s) ++ app.
Proof.
  destruct a; simpl; try discriminate; intros _.
  - unfold child_write. destruct (exit_status s); [repeat split; exists []; rewrite app_nil_r; reflexivity|].
    destruct (writer_open (stream (chan w0 s))); [|repeat split; exists []; rewrite app_nil_r; reflexivity].
    norm. repeat split. exists []. rewrite app_nil_r.
    destruct w, w0; reflexivity.
  - unfold child_close. destruct (exit_status s); [repeat split; exists []; rewrite app_nil_r; reflexivity|].
    norm. repeat split. exists []. rewrite app_nil_r.
    destruct w, w0; reflexivity.
  - unfold child_exit. destruct (exit_status s); [repeat split; exists []; rewrite app_nil_r; reflexivity|].
    simpl. repeat split. exists []. rewrite app_nil_r. destruct w; reflexivity.
  - unfold drain_step.
    pose proof (enqueue_output_ops w0 fault (chan w0 s)) as Hops.
    destruct (enqueue_output_step w0 fault (chan w0 s)) as [c ops] eqn:He.
    simpl in Hops. norm. repeat split.
    + rewrite gets_app, (gets_silent w ops Hops). apply app_nil_r.
    + unfold enqueue_output_step in He.
      destruct (thread (chan w0 s)) eqn:Ht.
      * destruct fault; [inversion He; subst; exists []; rewrite app_nil_r; destruct w, w0; reflexivity|].
        destruct (read chunk_size (stream (chan w0 s))) as [[] ?];
          inversion He; subst; exists []; rewrite app_nil_r;
          destruct w, w0; reflexivity.
      * inversion He; subst. destruct w, w0; simpl;
          try (exists []; rewrite app_nil_r; reflexivity);
          exists [line]; reflexivity.
      * inversion He; subst; exists []; rewrite app_nil_r; destruct w, w0; reflexivity.
      * inversion He; subst; exists []; rewrite app_nil_r; destruct w, w0; reflexivity.
      * inversion He; subst; exists []; rewrite app_nil_r; destruct w, w0; reflexivity.
  - hist. repeat split. exists []. rewrite app_nil_r. destruct w; reflexivity.
Qed.

Lemma draining_progress sch : forall s w n res,
  inv s -> fpc s = Draining w n res -> flushes sch <= n ->
  let j := flushes sch in
  fpc (run sch s) =
    Draining w (n - j) (res ++ concat (firstn j (queue (chan w s)))) /\
  gets w (history (run sch s)) =
    gets w (history s) ++ firstn j (queue (chan w s)).
Proof.
  induction sch as [|a sch IH]; intros s w n res Hinv Hf Hle; simpl.
  - rewrite Nat.sub_0_r, !app_nil_r. auto.
  - destruct (is_flush a) eqn:Ha.
    + destruct a; try discriminate. unfold flushes in *. simpl in *.
      destruct n as [|n]; [lia|].
      pose proof (ci_size _ _ (inv_chan _ Hinv w) _ _ Hf) as Hlen.
      destruct (queue (chan w s)) as [|line q'] eqn:Hq; [simpl in Hlen; lia|].
      assert (Hs : write_contents_step s =
                   log [OpGet w line]
                     (set_fpc (Draining w n (res ++ line))
                        (set_chan w (mkChannel (written (chan w s))
                           (stream (chan w s)) (thread (chan w s)) q') s))).
      { unfold write_contents_step. rewrite Hf, Hq. reflexivity. }
      assert (Hinv' : inv (write_contents_step s)) by (apply inv_write_contents; auto).
      rewrite Hs in *.
      destruct (IH _ w n (res ++ line) Hinv' eq_refl ltac:(lia)) as [A B].
      revert A B. norm. intros A B. rewrite A, B. hist.
      rewrite <- !app_assoc. auto.
    + destruct (env_step_effect a s w Ha) as (Hpc & Hg & app & Hq).
      unfold flushes in *. simpl in *. rewrite Ha in *.
      assert (Hinv' : inv (step a s)) by (apply inv_step; auto).
      rewrite <- Hpc in Hf.
      destruct (IH _ w n res Hinv' Hf Hle) as [A B].
      pose proof (ci_size _ _ (inv_chan _ Hinv w) _ _ ltac:(rewrite <- Hpc; exact Hf)) as Hlen.
      rewrite A, B, Hg, Hq.
      rewrite firstn_app.
      replace (length (filter is_flush sch) - length (queue (chan w s))) with 0 by lia.
      simpl. rewrite app_nil_r. auto.
Qed.

Lemma flushes_app sch1 sch2 : flushes (sch1 ++ sch2) = flushes sch1 + flushes sch2.
Proof. unfold flushes. rewrite filter_app, length_app. reflexivity. Qed.

Lemma split_last_flush sch n :
  flushes sch = S n ->
  exists sch1 sch2,
    sch = sch1 ++ Flush :: sch2 /\ flushes sch1 = n /\ flushes sch2 = 0.
Proof.
  induction sch as [|a sch IH] using rev_ind.
  - discriminate.
  - rewrite flushes_app. destruct (is_flush a) eqn:Ha.
    + destruct a; try discriminate. unfold flushes at 2. simpl. intros H.
      exists sch, []. repeat split; auto. lia.
    + unfold flushes at 2. simpl. rewrite Ha. simpl. rewrite Nat.add_0_r.
      intros H. destruct (IH H) as (sch1 & sch2 & -> & H1 & H2).
      exists sch1, (sch2 ++ [a]). rewrite <- app_assoc. simpl.
      repeat split; auto. rewrite flushes_app, H2. unfold flushes. simpl.
      rewrite Ha. reflexivity.
Qed.

Lemma env_run_effect sch : forall s w,
  flushes sch = 0 ->
  fpc (run sch s) = fpc s /\ gets w (history (run sch s)) = gets w (history s).
Proof.
  induction sch as [|a sch IH]; intros s w H; simpl; auto.
  unfold flushes in H. simpl in H. destruct (is_flush a) eqn:Ha; [discriminate|].
  destruct (env_step_effect a s w Ha) as (A & B & _).
  destruct (IH (step a s) w H) as (C & D). rewrite C, D. auto.
Qed.

Lemma read_all_loop_spec n : forall res q,
  n <= length q ->
  read_all_loop n res q = Some (res ++ concat (firstn n q), skipn n q).
Proof.
  induction n as [|n IH]; intros res q Hn; simpl.
  - rewrite app_nil_r. reflexivity.
  - destruct q as [|line q]; [simpl in Hn; lia|]. simpl.
    rewrite IH by (simpl in Hn; lia). rewrite <- app_assoc. reflexivity.
Qed.

Lemma read_all_from_queue_spec q :
  read_all_from_queue q = Some (concat q, Queue.empty).
Proof.
  unfold read_all_from_queue, Queue.qsize.
  rewrite read_all_loop_spec by lia. rewrite firstn_all, skipn_all. reflexivity.
Qed.

Lemma snapshot_exact sch0 w sch :
  let s0 := run sch0 spawned in
  fpc s0 = Snapshot w ->
  flushes sch = S (Queue.qsize (queue (chan w s0))) ->
  let s' := run sch (write_contents_step s0) in
  fpc s' = Deliver w (concat (queue (chan w s0))) /\
  gets w (history s') = gets w (history s0) ++ queue (chan w s0) /\
  puts w (history s') = puts w (history s0) ++ queue (chan w s').
Proof.
  intros s0 Hf Hn s'.
  assert (Hinv0 : inv s0) by apply inv_reachable.
  assert (Hs1 : write_contents_step s0 =
                log [OpQsize w (Queue.qsize (queue (chan w s0)))]
                    (set_fpc (Draining w (Queue.qsize (queue (chan w s0))) []) s0)).
  { unfold write_contents_step. rewrite Hf. reflexivity. }
  assert (Hinv1 : inv (write_contents_step s0)) by (apply inv_write_contents; auto).
  destruct (split_last_flush sch _ Hn) as (sch1 & sch2 & Hsch & H1 & H2).
  set (s1 := write_contents_step s0) in *.
  assert (F1 : fpc s1 = Draining w (Queue.qsize (queue (chan w s0))) [])
    by (rewrite Hs1; reflexivity).
  assert (Q1 : queue (chan w s1) = queue (chan w s0))
    by (rewrite Hs1; norm; reflexivity).
  assert (G1 : gets w (history s1) = gets w (history s0))
    by (rewrite Hs1; norm; hist; reflexivity).
  destruct (draining_progress sch1 s1 w _ [] Hinv1 F1 ltac:(lia)) as [C D].
  cbv zeta in C, D. rewrite H1, Q1 in C, D. rewrite G1 in D.
  unfold Queue.qsize in C, D. rewrite Nat.sub_diag, firstn_all in C.
  rewrite firstn_all in D. simpl in C.
  set (s2 := run sch1 s1) in *.
  assert (Hs3 : write_contents_step s2 =
                set_fpc (Deliver w (concat (queue (chan w s0)))) s2).
  { unfold write_contents_step. rewrite C. reflexivity. }
  assert (Hfg : fpc s' = Deliver w (concat (queue (chan w s0))) /\
                gets w (history s') = gets w (history s0) ++ queue (chan w s0)).
  { unfold s'. rewrite Hsch, run_app. simpl. fold s2.
    destruct (env_run_effect sch2 (write_contents_step s2) w H2) as [A B].
    rewrite A, B, Hs3. norm. auto. }
  destruct Hfg as [A B]. repeat split; auto.
  assert (Hinv' : inv s') by (apply inv_run; auto).
  rewrite (ci_puts _ _ (inv_chan _ Hinv' w)), B, (ci_puts _ _ (inv_chan _ Hinv0 w)).
  reflexivity.
Qed.

Lemma env_run_inv sch s :
  flushes sch = 0 -> inv s -> inv (run sch s) /\ fpc (run sch s) = fpc s.
Proof.
  intros H Hinv. split; [apply inv_run; auto|].
  apply (env_run_effect sch s Out H).
Qed.

Lemma returns_idle s : fpc s = Idle -> returns s.
Proof. intros H envs _. exists 0. exact H. Qed.

Lemma returns_step s :
  (forall sch, flushes sch = 0 -> returns (write_contents_step (run sch s))) ->
  forall envs, quiet envs -> exists k, fpc (rounds envs (S k) s) = Idle.
Proof.
  intros H envs Hq.
  destruct (H (envs 0) (Hq 0) (fun i => envs (S i))) as [k Hk].
  - intros i. apply Hq.
  - exists k. exact Hk.
Qed.

Lemma returns_next s :
  (forall sch, flushes sch = 0 -> returns (write_contents_step (run sch s))) ->
  returns s.
Proof.
  intros H envs Hq. destruct (returns_step s H envs Hq) as [k Hk]. eauto.
Qed.

Lemma returns_deliver_err s res : inv s -> fpc s = Deliver Err res -> returns s.
Proof.
  intros Hinv Hf. apply returns_next. intros sch Hsch.
  destruct (env_run_inv sch s Hsch Hinv) as [Hinv' Hf'].
  apply returns_idle. unfold write_contents_step. rewrite Hf', Hf. reflexivity.
Qed.

Lemma returns_draining_err n : forall s res,
  inv s -> fpc s = Draining Err n res -> returns s.
Proof.
  induction n as [|n IH]; intros s res Hinv Hf; apply returns_next; intros sch Hsch;
    destruct (env_run_inv sch s Hsch Hinv) as [Hinv' Hf']; rewrite Hf in Hf'.
  - apply returns_deliver_err with (res := res).
    + apply inv_write_contents; auto.
    + unfold write_contents_step. rewrite Hf'. reflexivity.
  - pose proof (ci_size _ _ (inv_chan _ Hinv' Err) _ _ Hf') as Hlen.
    destruct (queue (chan Err (run sch s))) as [|line q'] eqn:Hq;
      [simpl in Hlen; lia|].
    apply IH with (res := res ++ line).
    + apply inv_write_contents; auto.
    + unfold write_contents_step. rewrite Hf', Hq. reflexivity.
Qed.

Lemma returns_snapshot_err s : inv s -> fpc s = Snapshot Err -> returns s.
Proof.
  intros Hinv Hf. apply returns_next. intros sch Hsch.
  destruct (env_run_inv sch s Hsch Hinv) as [Hinv' Hf']. rewrite Hf in Hf'.
  eapply returns_draining_err.
  - apply inv_write_contents; eauto.
  - unfold write_contents_step. rewrite Hf'. reflexivity.
Qed.

Lemma returns_deliver_out s res : inv s -> fpc s = Deliver Out res -> returns s.
Proof.
  intros Hinv Hf. apply returns_next. intros sch Hsch.
  destruct (env_run_inv sch s Hsch Hinv) as [Hinv' Hf']. rewrite Hf in Hf'.
  apply returns_snapshot_err.
  - apply inv_write_contents; auto.
  - unfold write_contents_step. rewrite Hf'. reflexivity.
Qed.

Lemma returns_draining_out n : forall s res,
  inv s -> fpc s = Draining Out n res -> returns s.
Proof.
  induction n as [|n IH]; intros s res Hinv Hf; apply returns_next; intros sch Hsch;
    destruct (env_run_inv sch s Hsch Hinv) as [Hinv' Hf']; rewrite Hf in Hf'.
  - apply returns_deliver_out with (res := res).
    + apply inv_write_contents; auto.
    + unfold write_contents_step. rewrite Hf'. reflexivity.
  - pose proof (ci_size _ _ (inv_chan _ Hinv' Out) _ _ Hf') as Hlen.
    destruct (queue (chan Out (run sch s))) as [|line q'] eqn:Hq;
      [simpl in Hlen; lia|].
    apply IH with (res := res ++ line).
    + apply inv_write_contents; auto.
    + unfold write_contents_step. rewrite Hf', Hq. reflexivity.
Qed.

Lemma returns_snapshot_out s : inv s -> fpc s = Snapshot Out -> returns s.
Proof.
  intros Hinv Hf. apply returns_next. intros sch Hsch.
  destruct (env_run_inv sch s Hsch Hinv) as [Hinv' Hf']. rewrite Hf in Hf'.
  eapply returns_draining_out.
  - apply inv_write_contents; eauto.
  - unfold write_contents_step. rewrite Hf'. reflexivity.
Qed.

Lemma returns_always s : inv s -> returns s.
Proof.
  intros Hinv. destruct (fpc s) as [|[]|[] n res|[] res|] eqn:Hf.
  - apply returns_idle; auto.
  - apply returns_snapshot_out; auto.
  - apply returns_snapshot_err; auto.
  - eapply returns_draining_out; eauto.
  - eapply returns_draining_err; eauto.
  - eapply returns_deliver_out; eauto.
  - eapply returns_deliver_err; eauto.
  - destruct (inv_raised _ Hinv Hf).
Qed.

Lemma call_returns s envs :
  inv s -> quiet envs -> exists k, fpc (rounds envs (S k) s) = Idle.
Proof.
  intros Hinv Hq. apply returns_step; auto.
  intros sch Hsch. apply returns_always.
  apply inv_write_contents. apply inv_run. exact Hinv.
Qed.

Lemma silent_child sch w :
  let s := run sch spawned in
  written (chan w s) = [] -> callbacks w (history s) = [].
Proof.
  intros s Hw.
  destruct (inv_chan _ (inv_reachable sch) w) as [H1 H2 H3 H4 H5 _ _ H8].
  fold s in H1, H2, H3, H4, H5, H8.
  rewrite Hw in H3. symmetry in H3. apply app_eq_nil in H3. destruct H3 as [H3 _].
  apply concat_nonempty in H3;
    [|eapply Forall_impl; [|exact H5]; intros l [Hl _]; exact Hl].
  rewrite H3 in H1. symmetry in H1. apply app_eq_nil in H1. destruct H1 as [H1 _].
  rewrite H1 in H2. symmetry in H2. apply app_eq_nil in H2. destruct H2 as [H2 _].
  rewrite H2 in H4. simpl in H4. symmetry in H4. apply app_eq_nil in H4.
  destruct H4 as [H4 _]. apply concat_nonempty; auto.
Qed.


(** ** Consecutive calls on quiescent queues (C10) *)

Lemma since_qsize_snoc w h o :
  since_qsize w (h ++ [o]) =
  match o with
  | OpQsize w' _ => if which_eqb w w' then [] else since_qsize w h
  | OpPut w' line =>
      if which_eqb w w' then since_qsize w h ++ [line] else since_qsize w h
  | _ => since_qsize w h
  end.
Proof. unfold since_qsize. rewrite fold_left_app. reflexivity. Qed.

Lemma snapped_snoc w h o :
  snapped w (h ++ [o]) =
  match o with
  | OpCall => false
  | OpQsize w' _ => if which_eqb w w' then true else snapped w h
  | _ => snapped w h
  end.
Proof. unfold snapped. rewrite fold_left_app. reflexivity. Qed.

Lemma snap_inv_spawned : snap_inv spawned.
Proof. split; [intros []; reflexivity | simpl; discriminate]. Qed.

Lemma app_two (h : list op) a b : h ++ [a; b] = (h ++ [a]) ++ [b].
Proof. rewrite <- app_assoc. reflexivity. Qed.

Ltac snoc :=
  repeat (rewrite ?app_two, ?since_qsize_snoc, ?snapped_snoc, ?existsb_app, ?length_app,
           ?which_eqb_refl, ?app_nil_r; simpl).

Lemma snap_inv_frame s s' :
  (forall w, queue (chan w s') = queue (chan w s)) ->
  fpc s' = fpc s -> history s' = history s ->
  snap_inv s -> snap_inv s'.
Proof.
  intros Hq Hf Hh [H1 H2]. split.
  - intros w. rewrite Hq, Hf, Hh. apply H1.
  - rewrite Hf, Hh. exact H2.
Qed.

Lemma snapped_at_silent pc h o :
  is_caller_op o = false -> snapped_at pc h -> snapped_at pc (h ++ [o]).
Proof.
  intros Ho H.
  destruct pc as [|[]|[]|[]|]; simpl in *; snoc;
    destruct o; simpl in *; try discriminate; rewrite ?orb_false_r; auto.
Qed.

Ltac by_length H w' :=
  specialize (H w'); norm; unfold Queue.put;
  repeat match goal with w : which |- _ => destruct w end;
  simpl in *; snoc; simpl in *; lia.

Lemma snap_inv_drain w fault s : snap_inv s -> snap_inv (drain_step w fault s).
Proof.
  intros [H1 H2]. unfold drain_step, enqueue_output_step.
  destruct (thread (chan w s)) eqn:Ht.
  - destruct fault.
    + split; norm; [intros w'; by_length H1 w' | apply snapped_at_silent; auto].
    + destruct (read chunk_size (stream (chan w s))) as [[] p'] eqn:Hr; split; norm;
        try (intros w'; by_length H1 w');
        try (apply snapped_at_silent; auto).
      rewrite app_nil_r. exact H2.
  - split; norm; [intros w'; by_length H1 w' | apply snapped_at_silent; auto].
  - split; norm; [intros w'; by_length H1 w' | apply snapped_at_silent; auto].
  - split; norm; [intros w'; by_length H1 w' | rewrite app_nil_r; exact H2].
  - split; norm; [intros w'; by_length H1 w' | rewrite app_nil_r; exact H2].
Qed.

Lemma snap_inv_child a s :
  match a with ChildWrite _ _ | ChildClose _ | ChildExit _ => True | _ => False end ->
  snap_inv s -> snap_inv (step a s).
Proof.
  intros Ha. destruct a; try contradiction; apply snap_inv_frame; simpl.
  - intros w'. unfold child_write. destruct (exit_status s); auto.
    destruct (writer_open (stream (chan w s))); auto. destruct w, w'; reflexivity.
  - unfold child_write. destruct (exit_status s); auto.
    destruct (writer_open (stream (chan w s))); auto. apply fpc_set_chan.
  - unfold child_write. destruct (exit_status s); auto.
    destruct (writer_open (stream (chan w s))); auto. apply history_set_chan.
  - intros w'. unfold child_close. destruct (exit_status s); auto.
    destruct w, w'; reflexivity.
  - unfold child_close. destruct (exit_status s); auto. apply fpc_set_chan.
  - unfold child_close. destruct (exit_status s); auto. apply history_set_chan.
  - intros w'. unfold child_exit. destruct (exit_status s); auto.
    destruct w'; reflexivity.
  - unfold child_exit. destruct (exit_status s); auto.
  - unfold child_exit. destruct (exit_status s); auto.
Qed.

Lemma snap_inv_poll s : snap_inv s -> snap_inv (poll s).
Proof.
  intros [H1 H2]. split.
  - intros w'. specialize (H1 w'). destruct w'; simpl in *; snoc; exact H1.
  - simpl. destruct (fpc s) as [|[]|[]|[]|]; simpl in *; snoc;
      rewrite ?orb_false_r; auto.
Qed.

Lemma snap_inv_write_contents s :
  inv s -> snap_inv s -> snap_inv (write_contents_step s).
Proof.
  intros Hinv [H1 H2]. unfold write_contents_step.
  destruct (fpc s) as [|w|w [|n] res|w res|] eqn:Hf.
  - split; norm; [intros w'; by_length H1 w' | exact I].
  - split; norm; [intros w'|].
    + pose proof (H1 w') as H1'. unfold Queue.qsize.
      destruct w, w'; simpl in *; snoc; lia.
    + destruct w; simpl in *; snoc; auto.
  - split; norm; [intros w'; by_length H1 w' | destruct w; exact H2].
  - pose proof (ci_size _ _ (inv_chan _ Hinv w) _ _ Hf) as Hlen.
    destruct (queue (chan w s)) as [|line q'] eqn:Hq; [simpl in Hlen; lia|].
    simpl. split; norm; [intros w'|].
    + pose proof (H1 w') as H1'. destruct w, w'; simpl in *; snoc;
        rewrite ?Hq in *; simpl in *; lia.
    + destruct w; simpl in *; snoc; auto.
  - destruct w, res as [|b res]; simpl; split; norm;
      try (intros w'; by_length H1 w'); simpl in *; snoc;
      rewrite ?orb_false_r, ?orb_true_r; tauto.
  - split; rewrite ?Hf; auto.
Qed.

Lemma snap_inv_step a s : inv s -> snap_inv s -> snap_inv (step a s).
Proof.
  intros Hinv H. destruct a.
  - apply snap_inv_child; simpl; auto.
  - apply snap_inv_child; simpl; auto.
  - apply snap_inv_child; simpl; auto.
  - apply snap_inv_drain; auto.
  - apply snap_inv_write_contents; auto.
  - apply snap_inv_poll; auto.
Qed.

Lemma snap_inv_reachable sch : snap_inv (run sch spawned).
Proof.
  assert (H : forall s, inv s -> snap_inv s -> snap_inv (run sch s)).
  { induction sch as [|a sch IH]; simpl; auto.
    intros s Hinv Hs. apply IH; [apply inv_step | apply snap_inv_step]; auto. }
  apply H; [apply inv_spawned | apply snap_inv_spawned].
Qed.

Lemma step_extends a s : exists ops, history (step a s) = history s ++ ops.
Proof.
  destruct a; simpl.
  - unfold child_write. destruct (exit_status s); [exists []; rewrite app_nil_r; auto|].
    destruct (writer_open (stream (chan w s))); exists []; rewrite app_nil_r; auto.
    apply history_set_chan.
  - unfold child_close. destruct (exit_status s); exists []; rewrite app_nil_r; auto.
    apply history_set_chan.
  - unfold child_exit. destruct (exit_status s); exists []; rewrite app_nil_r; auto.
  - unfold drain_step. destruct (enqueue_output_step w fault (chan w s)) as [c ops].
    exists ops. norm. reflexivity.
  - unfold write_contents_step.
    destruct (fpc s) as [|w|w [|n] res|w res|]; norm; eauto.
    + exists []. rewrite app_nil_r. reflexivity.
    + destruct (Queue.get_nowait (queue (chan w s))) as [[line q']|]; norm; eauto.
      exists []. rewrite app_nil_r. reflexivity.
    + destruct (after_deliver w). norm. eauto.
    + exists []. rewrite app_nil_r. reflexivity.
  - eauto.
Qed.

Lemma run_extends sch : forall s, exists ops, history (run sch s) = history s ++ ops.
Proof.
  induction sch as [|a sch IH]; intros s; simpl.
  - exists []. rewrite app_nil_r. reflexivity.
  - destruct (step_extends a s) as [ops1 H1]. destruct (IH (step a s)) as [ops2 H2].
    exists (ops1 ++ ops2). rewrite H2, H1, app_assoc. reflexivity.
Qed.

Lemma since_empty w h0 ops :
  existsb is_call ops = true -> snapped w (h0 ++ ops) = true -> puts w ops = [] ->
  since_qsize w (h0 ++ ops) = [].
Proof.
  induction ops as [|o ops IH] using rev_ind.
  - discriminate.
  - rewrite app_assoc, since_qsize_snoc, snapped_snoc, existsb_app, puts_app.
    simpl. rewrite orb_false_r. intros Hc Hs Hp.
    apply app_eq_nil in Hp. destruct Hp as [Hp Hp'].
    destruct o; simpl in *; rewrite ?orb_false_r in Hc; auto; try discriminate.
    + destruct (which_eqb w w0); [discriminate | auto].
    + destruct (which_eqb w w0); auto.
Qed.

Lemma calls_grow h ops :
  calls h < calls (h ++ ops) -> existsb is_call ops = true.
Proof.
  unfold calls. rewrite filter_app, length_app. intros H.
  destruct (filter is_call ops) as [|o l] eqn:Hf; [simpl in H; lia|].
  assert (Hin : In o (filter is_call ops)) by (rewrite Hf; left; auto).
  apply filter_In in Hin. apply existsb_exists. eauto.
Qed.

Lemma drained_after_call sch0 sch1 w :
  let s0 := run sch0 spawned in
  let s1 := run sch1 s0 in
  fpc s1 = Idle -> calls (history s0) < calls (history s1) ->
  puts w (history s1) = puts w (history s0) ->
  queue (chan w s1) = [].
Proof.
  intros s0 s1 Hf Hc Hp.
  assert (Hsnap : snap_inv s1).
  { unfold s1, s0. rewrite <- run_app. apply snap_inv_reachable. }
  destruct Hsnap as [Hlen Hsn]. rewrite Hf in Hsn. simpl in Hsn.
  destruct (run_extends sch1 s0) as [ops Hops]. fold s1 in Hops.
  rewrite Hops in Hc, Hp, Hsn. apply calls_grow in Hc.
  rewrite puts_app in Hp.
  assert (Hp' : puts w ops = []).
  { apply app_inv_head with (l := puts w (history s0)). rewrite app_nil_r. exact Hp. }
  destruct Hsn as [So Se]; [rewrite existsb_app, Hc; apply orb_true_r|].
  specialize (Hlen w). rewrite Hf, Hops, since_empty in Hlen; auto.
  - destruct (queue (chan w s1)); [reflexivity | discriminate].
  - destruct w; auto.
Qed.

(** C10 does not hold as stated: a chunk appended during the first call,
    after that call has read the queue's length, stays in the queue.  In the
    run [put_during_call] followed by one more call, nothing is appended
    between the two calls or during the second, and the second call removes
    the chunk and invokes the stdout callback with it. *)
Lemma C10_chunk_left_by_first_call :
  let s1 := run put_during_call spawned in
  let s2 := run flush_one s1 in
  fpc s1 = Idle /\ calls (history s1) = 1 /\
  fpc s2 = Idle /\ calls (history s2) = 2 /\
  puts Out (history s2) = puts Out (history s1) /\
  gets Out (history s1) = [] /\ gets Out (history s2) = [hello] /\
  callbacks Out (history s1) = [] /\ callbacks Out (history s2) = [hello].
Proof. vm_compute. repeat split. Qed.

(** C10 (amended): let a call of [write_contents] start and return, and let
    no chunk be appended to a stream's queue from before that call on.  Then
    that queue is empty when the call returns, and no later step of
    [write_contents], in particular no later call, removes a chunk from it or
    invokes the stream's callback. *)
Theorem C10_flush_idempotent sch0 sch1 sch2 w :
  let s0 := run sch0 spawned in
  let s1 := run sch1 s0 in
  let s2 := run sch2 s1 in
  fpc s1 = Idle -> calls (history s0) < calls (history s1) ->
  puts w (history s2) = puts w (history s0) ->
  queue (chan w s1) = [] /\
  queue (chan w s2) = [] /\
  gets w (history s2) = gets w (history s1) /\
  callbacks w (history s2) = callbacks w (history s1).
Proof.
  intros s0 s1 s2 Hf Hc Hp.
  destruct (run_extends sch1 s0) as [ops1 H1]. fold s1 in H1.
  destruct (run_extends sch2 s1) as [ops2 H2]. fold s2 in H2.
  assert (Hp1 : puts w ops1 = [] /\ puts w ops2 = []).
  { rewrite H2, H1, !puts_app, <- app_assoc in Hp.
    rewrite <- (app_nil_r (puts w (history s0))) in Hp at 2.
    apply app_inv_head in Hp. apply app_eq_nil in Hp. exact Hp. }
  destruct Hp1 as [Hp1 Hp2].
  assert (Hq1 : queue (chan w s1) = []).
  { apply (drained_after_call sch0 sch1 w); auto.
    fold s0. fold s1. rewrite H1, puts_app, Hp1. apply app_nil_r. }
  assert (Hinv1 : inv s1) by (apply inv_run, inv_reachable).
  assert (Hinv2 : inv s2) by (apply inv_run, Hinv1).
  destruct (inv_chan _ Hinv1 w) as [_ A2 _ A4 _ _ _ _].
  destruct (inv_chan _ Hinv2 w) as [_ B2 _ B4 _ _ _ B8].
  rewrite Hq1, app_nil_r in A2. rewrite Hf in A4. simpl in A4.
  rewrite app_nil_r in A4.
  assert (Hg : gets w ops2 = [] /\ queue (chan w s2) = []).
  { rewrite H2, puts_app, Hp2, app_nil_r, A2, gets_app, <- app_assoc in B2.
    rewrite <- (app_nil_r (gets w (history s1))) in B2 at 1.
    apply app_inv_head in B2. symmetry in B2. apply app_eq_nil in B2. exact B2. }
  destruct Hg as [Hg Hq2].
  repeat split; auto.
  - rewrite H2, gets_app, Hg. apply app_nil_r.
  - rewrite H2, gets_app, Hg, app_nil_r, A4, delivered_app, <- app_assoc in B4.
    rewrite <- (app_nil_r (delivered w (history s1))) in B4 at 1.
    apply app_inv_head in B4. symmetry in B4. apply app_eq_nil in B4.
    destruct B4 as [B4 _]. rewrite H2, callbacks_app in B8 |- *.
    apply Forall_app in B8. destruct B8 as [_ B8].
    unfold delivered in B4. rewrite (concat_nonempty _ B8 B4). apply app_nil_r.
Qed.

Lemma C10_flush_idempotent_witness :
  gets Out (history (run flush_empty (run (flush_one ++ [Poll])
                                           (run enqueued spawned)))) =
  [hello]
  /\ callbacks Out (history (run flush_empty
                                 (run (flush_one ++ [Poll])
                                      (run enqueued spawned)))) =
     [hello].
Proof.
  destruct (C10_flush_idempotent enqueued (flush_one ++ [Poll]) flush_empty Out)
    as (_ & _ & Hg & Hc); [reflexivity | vm_compute; lia | reflexivity |].
  rewrite Hg, Hc. split; reflexivity.
Defined.

(** ** One whole call of [write_contents] (C2) *)

Lemma drain_alone_out q : forall wr st th e es rc res h,
  run (repeat Flush (length q))
      (mkProc (mkChannel wr st th q) e es rc (Draining Out (length q) res) h)
  = mkProc (mkChannel wr st th []) e es rc
           (Draining Out 0 (res ++ concat q)) (h ++ map (OpGet Out) q).
Proof.
  induction q as [|line q IH]; intros wr st th e es rc res h.
  - simpl. rewrite !app_nil_r. reflexivity.
  - cbn [length repeat run step]. unfold write_contents_step.
    cbn -[repeat run]. unfold log, set_fpc. cbn -[repeat run].
    rewrite IH. cbn [concat map]. rewrite <- !app_assoc. reflexivity.
Qed.

Lemma drain_alone_err q : forall o wr st th es rc res h,
  run (repeat Flush (length q))
      (mkProc o (mkChannel wr st th q) es rc (Draining Err (length q) res) h)
  = mkProc o (mkChannel wr st th []) es rc
           (Draining Err 0 (res ++ concat q)) (h ++ map (OpGet Err) q).
Proof.
  induction q as [|line q IH]; intros o wr st th es rc res h.
  - simpl. rewrite !app_nil_r. reflexivity.
  - cbn [length repeat run step]. unfold write_contents_step.
    cbn -[repeat run]. unfold log, set_fpc. cbn -[repeat run].
    rewrite IH. cbn [concat map]. rewrite <- !app_assoc. reflexivity.
Qed.

Lemma whole_call_schedule (a b : nat) :
  repeat Flush (7 + a + b) =
  [Flush; Flush] ++ repeat Flush a ++ [Flush; Flush; Flush]
  ++ repeat Flush b ++ [Flush; Flush].
Proof.
  replace (7 + a + b) with (2 + (a + (3 + (b + 2)))) by lia.
  rewrite !repeat_app. reflexivity.
Qed.

Lemma call_prefix wo so to qo e es rc h :
  run [Flush; Flush] (mkProc (mkChannel wo so to qo) e es rc Idle h)
  = mkProc (mkChannel wo so to qo) e es rc (Draining Out (length qo) [])
           (h ++ [OpCall; OpQsize Out (length qo)]).
Proof. cbn. unfold log, set_fpc. cbn. rewrite <- app_assoc. reflexivity. Qed.

Lemma call_middle o we se te qe es rc res h :
  run [Flush; Flush; Flush]
      (mkProc o (mkChannel we se te qe) es rc (Draining Out 0 res) h)
  = mkProc o (mkChannel we se te qe) es rc (Draining Err (length qe) [])
           (h ++ (if truthy res then [OpCallback Out res] else [])
              ++ [OpQsize Err (length qe)]).
Proof.
  cbn. unfold log, set_fpc. cbn. rewrite app_nil_r, <- app_assoc. reflexivity.
Qed.

Lemma call_suffix o e es rc res h :
  run [Flush; Flush] (mkProc o e es rc (Draining Err 0 res) h)
  = mkProc o e es rc Idle
           (h ++ (if truthy res then [OpCallback Err res] else [])
              ++ [OpReturn]).
Proof. cbn. unfold log, set_fpc. cbn. reflexivity. Qed.

Lemma whole_call_state wo so to qo we se te qe es rc h :
  run (repeat Flush (7 + length qo + length qe))
      (mkProc (mkChannel wo so to qo) (mkChannel we se te qe) es rc Idle h)
  = mkProc (mkChannel wo so to []) (mkChannel we se te []) es rc Idle
           (h ++ call_ops qo qe).
Proof.
  rewrite whole_call_schedule, !run_app.
  rewrite call_prefix, drain_alone_out, call_middle, drain_alone_err,
    call_suffix.
  unfold call_ops, Queue.qsize. cbn [app]. rewrite <- !app_assoc.
  cbn [app]. reflexivity.
Qed.

Lemma whole_call s :
  fpc s = Idle ->
  let qo := queue (stdout s) in
  let qe := queue (stderr s) in
  let s' := run (repeat Flush (7 + Queue.qsize qo + Queue.qsize qe)) s in
  fpc s' = Idle /\
  history s' = history s ++ call_ops qo qe /\
  queue (stdout s') = [] /\ queue (stderr s') = [].
Proof.
  destruct s as [[wo so to qo] [we se te qe] es rc f h].
  cbn [fpc stdout stderr queue history]. intros ->. unfold Queue.qsize.
  rewrite whole_call_state. cbn [fpc stdout stderr queue history]. auto.
Qed.

Lemma existsb_calls h : 0 < calls h -> existsb is_call h = true.
Proof.
  unfold calls. induction h as [|o h IH]; simpl; [lia|].
  destruct (is_call o); simpl; auto.
Qed.

(** C2: the contract of [write_contents] under any interleaving.
    (1) Once the queue length of a stream has been read, the call removes
    exactly that many chunks, namely the chunks that were in the queue at
    that moment; [res] is their concatenation, which is also what
    [read_all_from_queue] returns when nothing runs in between; chunks put
    meanwhile stay in the queue.  (2) At the test [if contents:] the callback is invoked with
    [res] exactly when [res] is non-empty, and no callback ever receives an
    empty sequence.  (3) [get_nowait] never raises [queue.Empty], and the
    call returns after finitely many of its own steps whatever the child and
    the drain threads do meanwhile.  (4) If the child has written nothing to
    a stream, that stream's callback has never been invoked.  (5) Both
    buffers are handled, stdout first: a call starts with the length of the
    stdout queue, goes on to the length of the stderr queue after the stdout
    callback, and returns after the stderr callback; whenever a call has
    returned, it has read the length of both queues.  (6) A call that no
    other thread interleaves with performs, on queues holding [qo] and [qe],
    the length of the stdout queue, one removal per chunk of [qo], the
    stdout callback on their concatenation if that is not empty, then the
    same on [qe] for stderr, and leaves both queues empty. *)
Theorem C2_flush_contract sch0 :
  let s := run sch0 spawned in
  (forall w sch,
     fpc s = Snapshot w ->
     flushes sch = S (Queue.qsize (queue (chan w s))) ->
     let s' := run sch (write_contents_step s) in
     fpc s' = Deliver w (concat (queue (chan w s))) /\
     gets w (history s') = gets w (history s) ++ queue (chan w s) /\
     puts w (history s') = puts w (history s) ++ queue (chan w s') /\
     read_all_from_queue (queue (chan w s)) =
       Some (concat (queue (chan w s)), Queue.empty))
  /\ (forall w res,
        fpc s = Deliver w res ->
        history (write_contents_step s) =
        history s ++ (if truthy res then [OpCallback w res] else [])
                  ++ snd (after_deliver w))
  /\ (forall w, Forall (fun d => d <> []) (callbacks w (history s)))
  /\ fpc s <> Raised
  /\ (forall envs, quiet envs -> exists k, fpc (rounds envs (S k) s) = Idle)
  /\ (forall w, written (chan w s) = [] -> callbacks w (history s) = [])
  /\ (fpc s = Idle ->
      fpc (write_contents_step s) = Snapshot Out /\
      history (write_contents_step s) = history s ++ [OpCall])
  /\ (forall res,
        fpc s = Deliver Out res -> fpc (write_contents_step s) = Snapshot Err)
  /\ (forall res,
        fpc s = Deliver Err res -> fpc (write_contents_step s) = Idle)
  /\ (fpc s = Idle -> 0 < calls (history s) ->
      snapped Out (history s) = true /\ snapped Err (history s) = true)
  /\ (fpc s = Idle ->
      let qo := queue (stdout s) in
      let qe := queue (stderr s) in
      let s' := run (repeat Flush (7 + Queue.qsize qo + Queue.qsize qe)) s in
      fpc s' = Idle /\
      history s' = history s ++ call_ops qo qe /\
      queue (stdout s') = [] /\ queue (stderr s') = []).
Proof.
  intros s. assert (Hinv : inv s) by apply inv_reachable.
  repeat apply conj.
  - intros w sch Hf Hn s'.
    destruct (snapshot_exact sch0 w sch Hf Hn) as (A & B & C).
    repeat split; auto. apply read_all_from_queue_spec.
  - intros w res Hf. unfold write_contents_step. rewrite Hf.
    destruct w; reflexivity.
  - intros w. apply (ci_callbacks _ _ (inv_chan _ Hinv w)).
  - apply (inv_raised _ Hinv).
  - intros envs. apply call_returns. exact Hinv.
  - intros w. apply silent_child.
  - intros Hf. unfold write_contents_step. rewrite Hf. split; reflexivity.
  - intros res Hf. unfold write_contents_step. rewrite Hf. reflexivity.
  - intros res Hf. unfold write_contents_step. rewrite Hf. reflexivity.
  - intros Hf Hc.
    pose proof (si_snapped _ (snap_inv_reachable sch0)) as Hs. fold s in Hs.
    rewrite Hf in Hs. apply Hs, existsb_calls, Hc.
  - apply whole_call.
Qed.

Lemma C2_flush_contract_witness :
  fpc (run [Flush; Drain Out false; Flush]
           (write_contents_step (run at_snapshot spawned))) = Deliver Out hello
  /\ callbacks Out (history (run flush_empty spawned)) = []
  /\ callbacks Err (history (run (repeat Flush 8) (run enqueued_err spawned)))
     = [hello]
  /\ snapped Err (history (run flush_empty spawned)) = true.
Proof.
  split; [|split; [|split]].
  - destruct (C2_flush_contract at_snapshot) as (Hsnap & _).
    destruct (Hsnap Out [Flush; Drain Out false; Flush]) as (Hpc & _);
      [reflexivity | reflexivity |].
    rewrite Hpc. reflexivity.
  - destruct (C2_flush_contract flush_empty) as (_ & _ & _ & _ & _ & Hsilent & _).
    apply (Hsilent Out). reflexivity.
  - destruct (C2_flush_contract enqueued_err)
      as (_ & _ & _ & _ & _ & _ & _ & _ & _ & _ & Hwhole).
    destruct (Hwhole eq_refl) as (_ & Hh & _).
    change (7 + Queue.qsize (queue (stdout (run enqueued_err spawned)))
            + Queue.qsize (queue (stderr (run enqueued_err spawned))))
      with 8 in Hh.
    rewrite Hh. reflexivity.
  - destruct (C2_flush_contract flush_empty)
      as (_ & _ & _ & _ & _ & _ & _ & _ & _ & Hboth & _).
    apply Hboth; [reflexivity | vm_compute; lia].
Defined.

(** ** Delivery of the child's output (C1) *)

Lemma conservation sch w :
  let s := run sch spawned in
  written (chan w s) =
  delivered w (history s) ++ in_hand w (fpc s) ++ concat (queue (chan w s)) ++
  concat (held (thread (chan w s))) ++ buffered (stream (chan w s)).
Proof.
  intros s. destruct (inv_chan _ (inv_reachable sch) w) as [H1 H2 H3 H4 _ _ _ _].
  fold s in H1, H2, H3, H4.
  rewrite H3, H1, H2, !concat_app, H4, <- !app_assoc. reflexivity.
Qed.

Lemma delivery_slice sch w h1 d h2 :
  history (run sch spawned) = h1 ++ OpCallback w d :: h2 ->
  exists rest, written (chan w (run sch spawned)) = delivered w h1 ++ d ++ rest.
Proof.
  intros Hh. pose proof (conservation sch w) as Hc. cbv zeta in Hc.
  rewrite Hc, Hh.
  rewrite delivered_app. unfold delivered at 2. simpl.
  rewrite which_eqb_refl. simpl. fold (delivered w h2).
  rewrite <- !app_assoc. eexists. reflexivity.
Qed.

Lemma delivery_complete sch w :
  let s := run sch spawned in
  thread (chan w s) = Finished -> queue (chan w s) = [] -> in_hand w (fpc s) = [] ->
  delivered w (history s) = written (chan w s).
Proof.
  intros s Ht Hq Hf. pose proof (conservation sch w) as Hc. cbv zeta in Hc.
  fold s in Hc. rewrite Hc.
  destruct (ci_eof _ _ (inv_chan _ (inv_reachable sch) w)) as [Hb _]; [fold s; auto|].
  fold s in Hb. rewrite Ht, Hq, Hf, Hb. simpl. rewrite app_nil_r. reflexivity.
Qed.

Lemma finished_no_puts sch : forall s w,
  thread (chan w s) = Finished ->
  puts w (history (run sch s)) = puts w (history s).
Proof.
  induction sch as [|a sch IH]; intros s w Ht; simpl; auto.
  rewrite IH by (apply (finished_forever [a]); exact Ht).
  destruct a; simpl.
  - unfold child_write. destruct (exit_status s); auto.
    destruct (writer_open (stream (chan w0 s))); auto.
    rewrite history_set_chan. reflexivity.
  - unfold child_close. destruct (exit_status s); auto.
    rewrite history_set_chan. reflexivity.
  - unfold child_exit. destruct (exit_status s); auto.
  - unfold drain_step.
    destruct (enqueue_output_step w0 fault (chan w0 s)) as [c ops] eqn:He.
    norm. rewrite puts_app.
    replace (puts w ops) with (@nil bytes); [apply app_nil_r|].
    destruct w, w0;
      try (unfold enqueue_output_step in He; simpl in *; rewrite Ht in He;
           inversion He; reflexivity).
    + destruct (enqueue_output_ops_other Out Err fault (chan Err s)) as (_ & B & _);
        [discriminate|]. rewrite He in B. symmetry. exact B.
    + destruct (enqueue_output_ops_other Err Out fault (chan Out s)) as (_ & B & _);
        [discriminate|]. rewrite He in B. symmetry. exact B.
  - unfold write_contents_step.
    destruct (fpc s) as [|w1|w1 [|n] res|w1 res|]; norm; hist; auto.
    + destruct (Queue.get_nowait (queue (chan w1 s))) as [[line q']|]; norm; hist; auto.
    + destruct w1, res; simpl; norm; hist; auto.
  - hist. reflexivity.
Qed.

Lemma delivery_after_drain sch sch1 w :
  let s := run sch spawned in
  let s1 := run sch1 s in
  thread (chan w s) = Finished ->
  fpc s1 = Idle -> calls (history s) < calls (history s1) ->
  delivered w (history s1) = written (chan w s1).
Proof.
  intros s s1 Ht Hf Hc.
  assert (Hq : queue (chan w s1) = []).
  { apply (drained_after_call sch sch1 w); auto.
    apply finished_no_puts. exact Ht. }
  unfold s1, s. rewrite <- run_app. apply delivery_complete.
  - rewrite run_app. apply finished_forever. exact Ht.
  - rewrite run_app. exact Hq.
  - rewrite run_app. fold s. fold s1. rewrite Hf. reflexivity.
Qed.

(** C1 does not hold as stated: what the callbacks have received depends on
    when [write_contents] is called.  In the run [late_drain] the child
    writes [hello] and exits, the caller sees the exit and completes its call
    of [write_contents], and the stdout callback has received nothing: the
    chunk reaches the queue only afterwards, and stays there. *)
Lemma C1_late_drain_undelivered :
  let s := run late_drain spawned in
  written (stdout s) = hello /\
  exit_status s = Some 0%Z /\
  usage (history s) = [OpPoll (Some 0%Z); OpCall; OpReturn] /\
  thread (stdout s) = Finished /\
  queue (stdout s) = [hello] /\
  delivered Out (history s) = [] /\
  delivered Out (history s) <> written (stdout s).
Proof. vm_compute. repeat split; discriminate. Qed.

(** C1 (amended): in every reachable state, for each stream, the bytes the
    child has written are exactly the bytes delivered to the callback so far,
    followed by the bytes still on their way (in [res], in the queue, in a
    drain thread's [line], in the pipe), so nothing is lost, duplicated or
    reordered; every callback invocation receives the slice of the child's
    output that starts where the previous deliveries ended; and once the
    drain thread of the stream has finished, the delivered bytes are exactly
    the bytes written as soon as the queue has been emptied, which every call
    of [write_contents] made from then on achieves by the time it returns. *)
Theorem C1_delivery_exactly_once sch w :
  let s := run sch spawned in
  written (chan w s) =
    delivered w (history s) ++ in_hand w (fpc s) ++ concat (queue (chan w s)) ++
    concat (held (thread (chan w s))) ++ buffered (stream (chan w s))
  /\ (forall h1 d h2,
        history s = h1 ++ OpCallback w d :: h2 ->
        exists rest, written (chan w s) = delivered w h1 ++ d ++ rest)
  /\ (thread (chan w s) = Finished -> queue (chan w s) = [] ->
      in_hand w (fpc s) = [] ->
      delivered w (history s) = written (chan w s))
  /\ (forall sch1,
        let s1 := run sch1 s in
        thread (chan w s) = Finished ->
        fpc s1 = Idle -> calls (history s) < calls (history s1) ->
        delivered w (history s1) = written (chan w s1)).
Proof.
  intros s. split; [|split; [|split]].
  - apply conservation.
  - intros h1 d h2. apply delivery_slice.
  - apply delivery_complete.
  - intros sch1. apply delivery_after_drain.
Qed.

Lemma C1_delivery_exactly_once_witness :
  delivered Out (history (run echo_hello spawned)) = hello /\
  written (stdout (run echo_hello spawned)) = hello /\
  exists rest,
    written (stdout (run echo_hello spawned)) =
    delivered Out
      [OpRead Out (ReadData hello); OpPut Out hello; OpRead Out ReadEof;
       OpClose Out; OpRead Err ReadEof; OpClose Err; OpPoll (Some 0%Z);
       OpCall; OpQsize Out 1; OpGet Out hello] ++ hello ++ rest.
Proof.
  destruct (C1_delivery_exactly_once echo_hello Out) as (_ & Hslice & Hall & _).
  split; [|split].
  - rewrite Hall; reflexivity.
  - reflexivity.
  - apply (Hslice _ hello [OpQsize Err 0; OpReturn]). reflexivity.
Defined.

(** ** Failures (C4, C5) *)









(** ** The waiting loops of [do_execute] (C7) *)

Lemma usage_app h1 h2 : usage (h1 ++ h2) = usage h1 ++ usage h2.
Proof. apply filter_app. Qed.

Lemma usage_silent ops :
  Forall (fun o => is_caller_op o = false) ops -> usage ops = [].
Proof.
  induction 1 as [|o ops Ho _ IH]; simpl; auto.
  destruct o; simpl in *; try discriminate; auto.
Qed.

Lemma env_step_usage a p :
  fpc (env_step a p) = fpc p /\
  returncode (env_step a p) = returncode p /\
  usage (history (env_step a p)) = usage (history p).
Proof.
  unfold env_step. destruct a; simpl; auto.
  - unfold child_write. destruct (exit_status p); auto.
    destruct (writer_open (stream (chan w p))); auto. destruct w; auto.
  - unfold child_close. destruct (exit_status p); auto. destruct w; auto.
  - unfold child_exit. destruct (exit_status p); auto.
  - unfold drain_step.
    pose proof (enqueue_output_ops w fault (chan w p)) as Hops.
    destruct (enqueue_output_step w fault (chan w p)) as [c ops]. simpl in Hops.
    norm. rewrite usage_app, (usage_silent ops Hops), app_nil_r.
    destruct w; auto.
Qed.

Lemma write_contents_usage p :
  usage (history (write_contents_step p)) =
  usage (history p) ++
  (if is_idle (fpc p) then [OpCall]
   else if is_idle (fpc (write_contents_step p)) then [OpReturn] else []).
Proof.
  unfold write_contents_step.
  destruct (fpc p) as [|w|w [|n] res|w res|] eqn:Hf; norm;
    rewrite ?usage_app; simpl; rewrite ?app_nil_r; auto.
  - destruct (Queue.get_nowait (queue (chan w p))) as [[line q']|]; norm;
      rewrite ?usage_app; simpl; rewrite ?app_nil_r; auto.
  - destruct w, res; norm; rewrite ?usage_app; simpl; rewrite ?app_nil_r; auto.
  - rewrite Hf. simpl. rewrite app_nil_r. reflexivity.
Qed.

Lemma write_contents_leaves_idle p :
  fpc p = Idle -> fpc (write_contents_step p) = Snapshot Out.
Proof. intros H. unfold write_contents_step. rewrite H. reflexivity. Qed.

Lemma write_contents_returncode p :
  returncode (write_contents_step p) = returncode p.
Proof.
  unfold write_contents_step.
  destruct (fpc p) as [|w|w [|n] res|w res|]; auto.
  - destruct (Queue.get_nowait (queue (chan w p))) as [[line q']|]; auto.
    destruct w; auto.
  - destruct w; auto.
Qed.

Lemma repeat_snoc (n : nat) :
  concat (repeat loop_iteration n) ++ loop_iteration =
  concat (repeat loop_iteration (S n)).
Proof.
  induction n as [|n IH]; auto.
  change (concat (repeat loop_iteration (S n)))
    with (loop_iteration ++ concat (repeat loop_iteration n)).
  rewrite <- app_assoc, IH. reflexivity.
Qed.

Lemma loop_inv_env a c p : loop_inv c p -> loop_inv c (env_step a p).
Proof.
  destruct (env_step_usage a p) as (Hf & Hr & Hu).
  destruct c; simpl; rewrite ?Hf, ?Hr, ?Hu; auto.
Qed.

Lemma raising_spec p w d : raising p = Some (w, d) -> raises_at w d p.
Proof.
  unfold raising, callback_due, raises_at.
  destruct (fpc p) as [|w1|w1 n res|w1 res|]; try discriminate.
  destruct (truthy res) eqn:Ht; try discriminate.
  destruct (decode res) eqn:Hd; try discriminate.
  intros H. inversion H; subst. auto.
Qed.

Lemma raising_idle p : fpc p = Idle -> raising p = None.
Proof. intros H. unfold raising, callback_due. rewrite H. reflexivity. Qed.

Lemma loop_inv_wait c p :
  loop_inv c p ->
  match wait_step c p with
  | (Unwound w d, p') => raised_inv w d p'
  | (c', p') => loop_inv c' p'
  end.
Proof.
  destruct c as [|final| |w0 d0]; simpl.
  - intros [Hf [n Hu]].
    destruct (exit_status p) as [code|] eqn:He; simpl;
      exists n; eexists; (split; [reflexivity|]); (split; [split; congruence|]);
      left; rewrite usage_app, Hu; auto.
  - intros (n & r & Hr & Hfin & H).
    destruct (raising p) as [[w d]|] eqn:Hraise.
    { apply raising_spec in Hraise. destruct Hraise as (Hd & Ht & Hdec).
      repeat split; auto. exists n, r.
      destruct H as [[Hf _]|[_ Hh]]; [congruence | exact Hh]. }
    pose proof (write_contents_usage p) as Hu.
    pose proof (write_contents_returncode p) as Hrc.
    destruct H as [[Hf Hh]|[Hf Hh]].
    + rewrite Hf in Hu. simpl in Hu.
      pose proof (write_contents_leaves_idle p Hf) as Hs. rewrite Hs. simpl.
      exists n, r. rewrite Hrc, Hs. repeat split; try apply Hfin; auto.
      right. split; [discriminate|]. rewrite Hu, Hh, <- app_assoc. reflexivity.
    + destruct (is_idle (fpc p)) eqn:Hi; [destruct (fpc p); try discriminate; congruence|].
      destruct (is_idle (fpc (write_contents_step p))) eqn:Hi'.
      * assert (Hidle : fpc (write_contents_step p) = Idle)
          by (destruct (fpc (write_contents_step p)); try discriminate; auto).
        destruct final; simpl.
        -- split; auto. destruct r as [code|];
             [|destruct Hfin as [_ Hfin]; discriminate (Hfin eq_refl)].
           exists n, code. rewrite Hrc, Hu, Hh, <- app_assoc. auto.
        -- split; auto. destruct Hfin as [Hfin _]. rewrite (Hfin eq_refl) in Hh.
           exists (S n). rewrite Hu, Hh, <- app_assoc. apply repeat_snoc.
      * simpl. exists n, r. rewrite Hrc, Hu, app_nil_r. repeat split; try apply Hfin; auto.
        right. split; auto. intros X. rewrite X in Hi'. discriminate.
  - auto.
  - intros [].
Qed.

Lemma loop_inv_spawned : loop_inv AtPoll spawned.
Proof. simpl. split; auto. exists 0. reflexivity. Qed.

Lemma kernel_inv_step a k : kernel_inv k -> kernel_inv (exec_step a k).
Proof.
  unfold kernel_inv. destruct a as [a|spawn]; simpl.
  - unfold exec_env. destruct (pc k) as [|c p|q c p|ps|e ps|w d ps p] eqn:Hpc;
      simpl; rewrite ?Hpc; auto.
    + apply loop_inv_env.
    + intros [Hq Hp]. split; auto. apply loop_inv_env. exact Hp.
  - unfold do_execute_step.
    destruct (pc k) as [|c p|q c p|ps|e ps|w d ps p] eqn:Hpc; simpl.
    + intros _. destruct spawn; simpl; [apply loop_inv_spawned|].
      intros p [].
    + intros H. pose proof (loop_inv_wait c p H) as H'.
      destruct c as [|final| |w0 d0].
      * destruct (wait_step AtPoll p) as [[|f| |w1 d1] p1]; simpl; auto.
        split; auto. intros q [].
      * destruct (wait_step (InFlush final) p) as [[|f| |w1 d1] p1]; simpl; auto.
        split; auto. intros q [].
      * destruct (nonzero (returncode p)); simpl.
        -- intros p' [<-|[]]. exact H.
        -- destruct spawn; simpl.
           ++ split; [exact H | apply loop_inv_spawned].
           ++ intros p' [<-|[]]. exact H.
      * destruct H.
    + intros [Hq H]. pose proof (loop_inv_wait c p H) as H'.
      destruct c as [|final| |w0 d0].
      * destruct (wait_step AtPoll p) as [[|f| |w1 d1] p1]; simpl; auto.
        split; auto. intros q' [<-|[]]. exact Hq.
      * destruct (wait_step (InFlush final) p) as [[|f| |w1 d1] p1]; simpl; auto.
        split; auto. intros q' [<-|[]]. exact Hq.
      * simpl. intros p' [<-|[<-|[]]]; auto.
      * destruct H.
    + rewrite Hpc. auto.
    + rewrite Hpc. auto.
    + rewrite Hpc. auto.
Qed.

Lemma kernel_inv_run sch : forall k, kernel_inv k -> kernel_inv (exec_run sch k).
Proof.
  induction sch as [|a sch IH]; simpl; auto using kernel_inv_step.
Qed.






Lemma exit_status_step a p code :
  exit_status p = Some code -> exit_status (step a p) = Some code.
Proof.
  intros H. destruct a; simpl.
  - unfold child_write. rewrite H. exact H.
  - unfold child_close. rewrite H. exact H.
  - unfold child_exit. rewrite H. exact H.
  - unfold drain_step. destruct (enqueue_output_step w fault (chan w p)).
    destruct w; exact H.
  - unfold write_contents_step.
    destruct (fpc p) as [|w|w [|n] res|w res|]; auto.
    + destruct (Queue.get_nowait (queue (chan w p))) as [[line q']|]; auto.
      destruct w; auto.
    + destruct w; auto.
  - exact H.
Qed.

Lemma exit_status_run sch : forall p code,
  exit_status p = Some code -> exit_status (run sch p) = Some code.
Proof.
  induction sch as [|a sch IH]; simpl; auto using exit_status_step.
Qed.


















(** ** What [decode] accepts *)








(** A callback that raises ends [do_execute] at once.  In the run
    [compile_and_garble] the program has written the first byte of a
    two-byte character and is still running; the call of [write_contents]
    hands that byte to the stdout callback, [decode] raises, and the
    exception leaves [do_execute]: the program is never polled again and no
    final call is made. *)
Remark callback_error_leaves_do_execute :
  let k := exec_run compile_and_garble entered in
  exists q p,
    pc k = CallbackRaised Out half_char [q] p /\
    decode half_char = None /\
    exit_status p = None /\
    usage (history p) = [OpPoll None; OpCall] /\
    iopub k = [RunningCmd; RunningCmd] /\
    forall spawn, do_execute_step spawn k = k.
Proof. vm_compute. eexists. eexists. repeat split. Qed.

(** What a callback that returns sends.  In the run [compile_and_print] the
    program's output reaches the stdout callback in one piece and is sent,
    decoded, as one [stream] message after the two command lines. *)
Remark output_is_decoded_and_sent :
  iopub (exec_run compile_and_print entered) =
  [RunningCmd; RunningCmd; Stream Out (map Byte.to_N hello)].
Proof. vm_compute. reflexivity. Qed.

(** * The kernel around the engine: properties *)

(** ** Strings *)

Lemma eqb_str_eq a : forall b, eqb_str a b = true <-> a = b.
Proof.
  induction a as [|x a IH]; intros [|y b]; simpl; split; try congruence; auto.
  - intros H. apply andb_prop in H. destruct H as [Hx Ha].
    apply N.eqb_eq in Hx. apply IH in Ha. congruence.
  - intros H. inversion H; subst. rewrite N.eqb_refl. simpl. apply IH. reflexivity.
Qed.

Lemma eqb_str_refl a : eqb_str a a = true.
Proof. apply eqb_str_eq. reflexivity. Qed.

Lemma count_char_app c s1 s2 :
  count_char c (s1 ++ s2) = count_char c s1 + count_char c s2.
Proof. unfold count_char. rewrite filter_app, length_app. reflexivity. Qed.

Lemma count_char_rev c s : count_char c (rev s) = count_char c s.
Proof.
  induction s as [|x s IH]; simpl; auto.
  rewrite count_char_app, IH. unfold count_char. simpl.
  destruct (N.eqb c x); simpl; lia.
Qed.

Lemma count_lstrip c s :
  isspace c = false -> count_char c (lstrip s) = count_char c s.
Proof.
  intros Hc. induction s as [|x s IH]; simpl; auto.
  destruct (isspace x) eqn:Hx; auto.
  rewrite IH. unfold count_char. simpl.
  destruct (N.eqb c x) eqn:E; auto. apply N.eqb_eq in E. congruence.
Qed.

Lemma count_strip c s :
  isspace c = false -> count_char c (strip s) = count_char c s.
Proof.
  intros Hc. unfold strip, rstrip.
  rewrite count_char_rev, count_lstrip, count_char_rev, count_lstrip; auto.
Qed.

Lemma forallb_rev' (f : char -> bool) s : forallb f (rev s) = forallb f s.
Proof.
  induction s as [|x s IH]; simpl; auto.
  rewrite forallb_app, IH. simpl. rewrite andb_true_r. apply andb_comm.
Qed.

Lemma split_on_length sep s : forall cur,
  length (split_on_from sep cur s) = S (count_char sep s).
Proof.
  induction s as [|x s IH]; intros cur; simpl; auto.
  unfold count_char in *. simpl. rewrite N.eqb_sym.
  destruct (N.eqb sep x); simpl; rewrite IH; reflexivity.
Qed.

Lemma split_ws_tokens s : forall cur,
  forallb (fun c => negb (isspace c)) cur = true ->
  Forall is_token (split_ws_from cur s).
Proof.
  induction s as [|x s IH]; intros cur Hcur; simpl.
  - destruct cur as [|y cur]; constructor; auto. split.
    + intros H. apply (f_equal (@length char)) in H.
      rewrite length_rev in H. discriminate.
    + rewrite forallb_rev'. exact Hcur.
  - destruct (isspace x) eqn:Hx.
    + destruct cur as [|y cur]; [apply IH; reflexivity|].
      constructor; [|apply IH; reflexivity]. split.
      * intros H. apply (f_equal (@length char)) in H.
        rewrite length_rev in H. discriminate.
      * rewrite forallb_rev'. exact Hcur.
    + apply IH. simpl. rewrite Hx. exact Hcur.
Qed.

Lemma split_ws_is_tokens s : Forall is_token (split_ws s).
Proof. apply split_ws_tokens. reflexivity. Qed.

(** ** Reading a line of a cell *)

Lemma read_directive_none line :
  read_directive line = None <-> is_directive line = false.
Proof.
  unfold read_directive, is_directive.
  destruct (startswith (lit "//%") (strip line)); split; try congruence.
  destruct (split_on colon (strip (skipn 3 (strip line)))) as [|a [|b [|c l]]];
    discriminate.
Qed.

Lemma read_directive_malformed line :
  read_directive line = Some None <-> malformed line = true.
Proof.
  unfold read_directive, malformed, is_directive.
  destruct (startswith (lit "//%") (strip line)); cbn [andb];
    [|split; discriminate].
  generalize (skipn 3 (strip line)). intros body.
  pose proof (split_on_length colon (strip body) []) as Hlen.
  rewrite count_strip in Hlen by reflexivity.
  fold (split_on colon (strip body)) in Hlen.
  destruct (split_on colon (strip body)) as [|a [|b [|c l]]];
    simpl in Hlen; inversion Hlen as [Hc]; simpl; split; congruence.
Qed.

(** ** [_magic] *)

Lemma apply_all_cons key value ds k v :
  apply_all ((key, value) :: ds) k v =
  apply_all ds (fst (magic_apply key value k v)) (snd (magic_apply key value k v)).
Proof.
  unfold apply_all. cbn [fold_left fst snd].
  destruct (magic_apply key value k v). reflexivity.
Qed.

Lemma magic_loop_spec lines : forall k v out,
  magic_loop lines k v out =
  (fst (apply_all (directives lines) k v),
   out ++ flat_map (fun kv => [Warning (key_value (fst kv) (snd kv));
                               Printed (key_value (fst kv) (snd kv))])
                   (directives lines),
   if existsb malformed lines then inl ValueError
   else inr (snd (apply_all (directives lines) k v))).
Proof.
  induction lines as [|line lines IH]; intros k v out.
  - simpl. rewrite app_nil_r. reflexivity.
  - cbn [magic_loop directives existsb].
    destruct (read_directive line) as [[[key value]|]|] eqn:Hr.
    + assert (Hm : malformed line = false).
      { destruct (malformed line) eqn:Hm; auto.
        apply read_directive_malformed in Hm. congruence. }
      rewrite Hm, apply_all_cons. cbn [orb flat_map fst snd].
      destruct (magic_apply key value k v) as [k' v'] eqn:Ha.
      rewrite IH, <- app_assoc. reflexivity.
    + apply read_directive_malformed in Hr. rewrite Hr. cbn [orb flat_map].
      rewrite app_nil_r. reflexivity.
    + assert (Hm : malformed line = false).
      { unfold malformed. apply read_directive_none in Hr. rewrite Hr. reflexivity. }
      rewrite Hm. cbn [orb]. apply IH.
Qed.

Lemma directives_none lines :
  (forall line, In line lines -> is_directive line = false) ->
  directives lines = [] /\ existsb malformed lines = false.
Proof.
  induction lines as [|line lines IH]; simpl; auto.
  intros H. assert (Hd : is_directive line = false) by (apply H; auto).
  destruct IH as [IH1 IH2]; [intros l Hl; apply H; auto|].
  apply read_directive_none in Hd as Hr. rewrite Hr, IH2.
  unfold malformed. rewrite Hd. auto.
Qed.

(** X1 ([_magic]).  A cell none of whose lines, once stripped, starts with
    ["//%"] leaves the kernel's attributes as they are, logs and prints
    nothing, and comes back wrapped in [int main() { ... return 0; }] after
    one leading newline, with empty compiler and linker flag lists. *)
Theorem magic_without_directives code k :
  (forall line, In line (splitlines code) -> is_directive line = false) ->
  _magic code k = (k, [], inr (main_wrapper code, [], [])).
Proof.
  intros H. unfold _magic. rewrite magic_loop_spec.
  destruct (directives_none _ H) as [Hd Hm]. rewrite Hd, Hm. reflexivity.
Qed.

Lemma magic_outcome code k :
  (existsb malformed (splitlines code) = true ->
   snd (_magic code k) = inl ValueError)
  /\ (existsb malformed (splitlines code) = false ->
      exists code' cf lf, snd (_magic code k) = inr (code', cf, lf)).
Proof.
  unfold _magic. rewrite magic_loop_spec.
  split; intros H; rewrite H; simpl; eauto.
Qed.

(** X2 ([_magic], line 119).  [_magic] raises [ValueError] exactly when some
    directive line has, after ["//%"], a text that does not contain exactly
    one colon; with no such line it returns the code and the two flag
    lists. *)
Theorem magic_raises_iff code k :
  (existsb malformed (splitlines code) = true ->
   snd (_magic code k) = inl ValueError)
  /\ (existsb malformed (splitlines code) = false ->
      exists code' cf lf, snd (_magic code k) = inr (code', cf, lf)).
Proof. exact (magic_outcome code k). Qed.

Lemma magic_without_directives_witness :
  _magic plain_cell new_kernel =
  (new_kernel, [], inr (main_wrapper plain_cell, [], [])).
Proof.
  apply (magic_without_directives plain_cell new_kernel).
  intros line Hin. vm_compute in Hin.
  destruct Hin as [<-|[<-|[]]]; reflexivity.
Defined.

Lemma magic_raises_iff_witness :
  snd (_magic bad_cell new_kernel) = inl ValueError /\
  exists code' cf lf, snd (_magic flags_cell new_kernel) = inr (code', cf, lf).
Proof.
  split.
  - apply (proj1 (magic_raises_iff bad_cell new_kernel)). reflexivity.
  - apply (proj2 (magic_raises_iff flags_cell new_kernel)). reflexivity.
Defined.

Lemma default_headers_tokens : Forall is_token default_headers.
Proof. apply split_ws_is_tokens. Qed.

Lemma include_lines_topcodes hs :
  Forall is_token hs -> Forall is_topcode (map include_line hs).
Proof.
  induction 1 as [|h hs Hh _ IH]; simpl; constructor; auto.
  left. exists h. auto.
Qed.

Lemma magic_apply_effect key value k v :
  let r := magic_apply key value k v in
  files (fst r) = files k /\
  compiler (fst r) = (if is_key "compiler" (key, value) then value else compiler k) /\
  (sets_suffix (key, value) = false -> file_suffix (fst r) = file_suffix k) /\
  add_main (snd r) = add_main v && negb (is_main_no (key, value)) /\
  cflags (snd r) = cflags v ++ tokens_of "cflags" [(key, value)] /\
  ldflags (snd r) = ldflags v ++ tokens_of "ldflags" [(key, value)] /\
  exists new, topcodes (snd r) = topcodes v ++ new /\ Forall is_topcode new.
Proof.
  destruct k as [fl sx cp], v as [tc am cf lf].
  unfold magic_apply, is_key, sets_suffix, is_main_no, tokens_of, is_key.
  cbn [fst snd flat_map files file_suffix compiler topcodes add_main cflags ldflags].
  set (c1 := eqb_str key (lit "compiler")).
  set (c2 := eqb_str key (lit "suffix")).
  set (c3 := eqb_str key (lit "includes")).
  set (c4 := eqb_str key (lit "namespace")).
  set (c5 := eqb_str key (lit "main")).
  set (c6 := eqb_str key (lit "cflags")).
  set (c7 := eqb_str key (lit "ldflags")).
  set (n := contains (lit "nvcc") value).
  set (m := eqb_str value (lit "no")).
  set (f := eqb_str value (lit "full")).
  set (hs := if negb f then split_ws value else default_headers).
  assert (Hh : Forall is_token hs).
  { unfold hs. destruct f; simpl; [apply default_headers_tokens | apply split_ws_is_tokens]. }
  apply include_lines_topcodes in Hh.
  repeat split.
  - destruct c1, c2, n; reflexivity.
  - destruct c1, c2, n; reflexivity.
  - destruct c1, c2, n; simpl; intros; try discriminate; reflexivity.
  - destruct c3, c4, c5, c6, c7, m, am; reflexivity.
  - destruct c3, c4, c5, c6, c7, m; cbn; rewrite ?app_nil_r; reflexivity.
  - destruct c3, c4, c5, c6, c7, m; cbn; rewrite ?app_nil_r; reflexivity.
  - destruct c3, c4.
    + exists (map include_line hs ++ [namespace_line value]). split.
      * destruct c5, c6, c7, m; cbn; rewrite app_assoc; reflexivity.
      * apply Forall_app. split; auto. constructor; auto. right. eauto.
    + exists (map include_line hs). split; auto.
      destruct c5, c6, c7, m; reflexivity.
    + exists [namespace_line value]. split.
      * destruct c5, c6, c7, m; reflexivity.
      * constructor; auto. right. eauto.
    + exists []. split; auto.
      destruct c5, c6, c7, m; cbn; rewrite app_nil_r; reflexivity.
Qed.

Lemma apply_all_effect ds : forall k v,
  let r := apply_all ds k v in
  files (fst r) = files k /\
  compiler (fst r) = last_value "compiler" ds (compiler k) /\
  (existsb sets_suffix ds = false -> file_suffix (fst r) = file_suffix k) /\
  add_main (snd r) = add_main v && negb (existsb is_main_no ds) /\
  cflags (snd r) = cflags v ++ tokens_of "cflags" ds /\
  ldflags (snd r) = ldflags v ++ tokens_of "ldflags" ds /\
  exists new, topcodes (snd r) = topcodes v ++ new /\ Forall is_topcode new.
Proof.
  induction ds as [|[key value] ds IH]; intros k v.
  - cbn. rewrite andb_true_r, !app_nil_r. repeat split; auto.
    exists []. rewrite app_nil_r. auto.
  - cbv zeta. rewrite apply_all_cons.
    destruct (magic_apply_effect key value k v) as (A1 & A2 & A3 & A4 & A5 & A6 & new1 & A7 & A8).
    cbv zeta in A1, A2, A3, A4, A5, A6, A7.
    destruct (IH (fst (magic_apply key value k v)) (snd (magic_apply key value k v)))
      as (B1 & B2 & B3 & B4 & B5 & B6 & new2 & B7 & B8).
    cbv zeta in B1, B2, B3, B4, B5, B6, B7.
    repeat split.
    + congruence.
    + rewrite B2, A2. reflexivity.
    + cbn [existsb]. intros H. apply orb_false_elim in H. destruct H as [H1 H2].
      rewrite B3, A3; auto.
    + rewrite B4, A4. cbn [existsb]. rewrite negb_orb, andb_assoc. reflexivity.
    + rewrite B5, A5. unfold tokens_of. cbn [flat_map].
      rewrite app_nil_r, app_assoc. reflexivity.
    + rewrite B6, A6. unfold tokens_of. cbn [flat_map].
      rewrite app_nil_r, app_assoc. reflexivity.
    + exists (new1 ++ new2). split.
      * rewrite B7, A7, app_assoc. reflexivity.
      * apply Forall_app. auto.
Qed.

Lemma tokens_of_tokens key ds : Forall is_token (tokens_of key ds).
Proof.
  unfold tokens_of. induction ds as [|kv ds IH]; simpl; auto.
  apply Forall_app. split; auto.
  destruct (is_key key kv); [apply split_ws_is_tokens | constructor].
Qed.

Lemma magic_success code k k' out code' cf lf :
  _magic code k = (k', out, inr (code', cf, lf)) ->
  let ds := directives (splitlines code) in
  code' = assemble (snd (apply_all ds k magic_start)) code /\
  cf = cflags (snd (apply_all ds k magic_start)) /\
  lf = ldflags (snd (apply_all ds k magic_start)).
Proof.
  unfold _magic. rewrite magic_loop_spec.
  destruct (existsb malformed (splitlines code)); [discriminate|].
  intros H. inversion H; subst. auto.
Qed.

Lemma magic_flag_lists code k k' out code' cf lf :
  _magic code k = (k', out, inr (code', cf, lf)) ->
  cf = tokens_of "cflags" (directives (splitlines code)) /\
  lf = tokens_of "ldflags" (directives (splitlines code)) /\
  Forall is_token cf /\ Forall is_token lf.
Proof.
  intros H. apply magic_success in H. destruct H as (_ & Hc & Hl).
  destruct (apply_all_effect (directives (splitlines code)) k magic_start)
    as (_ & _ & _ & _ & A5 & A6 & _).
  cbv zeta in A5, A6. simpl in A5, A6. rewrite A5 in Hc. rewrite A6 in Hl.
  subst. repeat split; auto using tokens_of_tokens.
Qed.

(** X3 ([_magic], lines 141-146).  When [_magic] returns, the compiler flags
    are the white-space separated words of the values of all [cflags]
    directives, in the order of the lines, and the linker flags those of the
    [ldflags] directives; no flag is empty or contains white space. *)
Theorem magic_flags code k k' out code' cf lf :
  _magic code k = (k', out, inr (code', cf, lf)) ->
  cf = tokens_of "cflags" (directives (splitlines code)) /\
  lf = tokens_of "ldflags" (directives (splitlines code)) /\
  Forall is_token cf /\ Forall is_token lf.
Proof. exact (magic_flag_lists code k k' out code' cf lf). Qed.

(** X4 ([_magic], lines 132-140 and 148-151).  The code [_magic] returns is
    the cell's text, unchanged and complete (directive lines included),
    wrapped in [main] unless a directive [main:no] is present, and preceded by
    lines that are each an [#include <header>] of a non-empty header name or a
    [using namespace ...;], joined by newlines. *)
Theorem magic_code_shape code k k' out code' cf lf :
  _magic code k = (k', out, inr (code', cf, lf)) ->
  exists tops,
    Forall is_topcode tops /\
    code' = join (lit "
") tops ++
            (if existsb is_main_no (directives (splitlines code))
             then code else main_wrapper code).
Proof.
  intros H. apply magic_success in H. destruct H as (Hc & _ & _).
  destruct (apply_all_effect (directives (splitlines code)) k magic_start)
    as (_ & _ & _ & A4 & _ & _ & new & A7 & A8).
  cbv zeta in A4, A7. simpl in A4, A7.
  exists new. split; auto. rewrite Hc. unfold assemble. rewrite A4, A7.
  destruct (existsb is_main_no (directives (splitlines code))); reflexivity.
Qed.

Lemma last_value_none key ds d :
  (forall kv, In kv ds -> is_key key kv = false) -> last_value key ds d = d.
Proof.
  unfold last_value. revert d. induction ds as [|kv ds IH]; intros d H; simpl; auto.
  rewrite (H kv) by (left; auto). apply IH. intros kv' Hin. apply H. right. auto.
Qed.

Lemma last_value_last key ds1 kv ds2 d :
  is_key key kv = true ->
  (forall kv', In kv' ds2 -> is_key key kv' = false) ->
  last_value key (ds1 ++ kv :: ds2) d = snd kv.
Proof.
  intros Hk H. unfold last_value. rewrite fold_left_app. simpl. rewrite Hk.
  apply (last_value_none key ds2 (snd kv) H).
Qed.

Lemma magic_attributes code k :
  let ds := directives (splitlines code) in
  let k' := fst (fst (_magic code k)) in
  files k' = files k
  /\ ((forall kv, In kv ds -> is_key "compiler" kv = false) ->
      compiler k' = compiler k)
  /\ (forall ds1 kv ds2,
        ds = ds1 ++ kv :: ds2 -> is_key "compiler" kv = true ->
        (forall kv', In kv' ds2 -> is_key "compiler" kv' = false) ->
        compiler k' = snd kv)
  /\ (existsb sets_suffix ds = false -> file_suffix k' = file_suffix k).
Proof.
  intros ds k'.
  assert (Hk : k' = fst (apply_all ds k magic_start)).
  { unfold k', _magic. rewrite magic_loop_spec.
    destruct (existsb malformed (splitlines code)); reflexivity. }
  destruct (apply_all_effect ds k magic_start) as (A1 & A2 & A3 & _).
  cbv zeta in A1, A2, A3. rewrite <- Hk in A1, A2, A3.
  repeat split; auto.
  - intros H. rewrite A2. apply last_value_none, H.
  - intros ds1 kv ds2 Hds Hkv H. rewrite A2, Hds. apply last_value_last; auto.
Qed.

(** X5 ([_magic], lines 126-131).  [_magic] never touches [self.files].  The
    compiler is left alone by a cell without a [compiler] directive and is
    otherwise the value of the last one that was read.  The file suffix is
    left alone unless a [suffix] directive or a [compiler] directive naming
    [nvcc] was read.  This holds also when [_magic] raises: the attributes
    keep what the directives before the faulty line did. *)
Theorem magic_kernel_attributes code k :
  let ds := directives (splitlines code) in
  let k' := fst (fst (_magic code k)) in
  files k' = files k
  /\ ((forall kv, In kv ds -> is_key "compiler" kv = false) ->
      compiler k' = compiler k)
  /\ (forall ds1 kv ds2,
        ds = ds1 ++ kv :: ds2 -> is_key "compiler" kv = true ->
        (forall kv', In kv' ds2 -> is_key "compiler" kv' = false) ->
        compiler k' = snd kv)
  /\ (existsb sets_suffix ds = false -> file_suffix k' = file_suffix k).
Proof. exact (magic_attributes code k). Qed.

Lemma magic_flags_witness :
  tokens_of "cflags" (directives (splitlines flags_cell)) =
    [lit "-O2"; lit "-Wall"; lit "-g"] /\
  Forall is_token [lit "-O2"; lit "-Wall"; lit "-g"].
Proof.
  destruct (_magic flags_cell new_kernel) as [[k' out] [e|[[code' cf] lf]]] eqn:Hm;
    [vm_compute in Hm; discriminate|].
  destruct (magic_flags flags_cell new_kernel k' out code' cf lf Hm)
    as (Hc & _ & Ht & _).
  vm_compute in Hm. inversion Hm as [[Hk Ho Hcode Hcf Hlf]].
  rewrite <- Hc, <- Hcf. split; [reflexivity|].
  rewrite <- Hcf in Ht. exact Ht.
Defined.

Lemma magic_code_shape_witness :
  exists tops,
    Forall is_topcode tops /\
    fst (fst (match snd (_magic flags_cell new_kernel) with
              | inr r => r
              | inl _ => ([], [], [])
              end)) =
    join (lit "
") tops ++ main_wrapper flags_cell.
Proof.
  destruct (_magic flags_cell new_kernel) as [[k' out] [e|[[code' cf] lf]]] eqn:Hm;
    [vm_compute in Hm; discriminate|].
  destruct (magic_code_shape flags_cell new_kernel k' out code' cf lf Hm)
    as (tops & Ht & Hc).
  exists tops. split; [exact Ht | exact Hc].
Defined.

Lemma magic_kernel_attributes_witness :
  compiler (fst (fst (_magic flags_cell new_kernel))) = lit "nvcc" /\
  file_suffix (fst (fst (_magic plain_cell new_kernel))) = lit ".cc".
Proof.
  split.
  - destruct (magic_kernel_attributes flags_cell new_kernel) as (_ & _ & H & _).
    apply (H [(lit "cflags", lit "-O2  -Wall")] (lit "compiler", lit "nvcc")
             [(lit "ldflags", lit "-lm"); (lit "cflags", lit "-g")]).
    + vm_compute. reflexivity.
    + reflexivity.
    + intros kv [<-|[<-|[]]]; reflexivity.
  - destruct (magic_kernel_attributes plain_cell new_kernel) as (_ & _ & _ & H).
    apply H. vm_compute. reflexivity.
Defined.

(** ** [compile] *)

(** X6 ([compile], [create_jupyter_subprocess]).  Called with one of the flag
    lists left at its default [None], [compile] raises [TypeError] before
    anything is written or started.  With both lists it announces on stderr
    the command [compiler source -std=c++11 cflags... -o binary ldflags...],
    words joined by single spaces, and then returns a process exactly when
    the process could be started. *)
Theorem compile_flag_lists cp src bin cf lf spawn :
  (cf = None \/ lf = None -> compile cp src bin cf lf spawn = ([], inl TypeError))
  /\ (forall cf' lf',
        cf = Some cf' -> lf = Some lf' ->
        exists r,
          compile cp src bin cf lf spawn =
            ([running_cmd (cp :: src :: lit "-std=c++11" :: cf'
                           ++ lit "-o" :: bin :: lf')], r)
          /\ (r = inr spawned <-> spawn = Started)).
Proof.
  split.
  - intros [->| ->]; unfold compile, compile_args; [reflexivity|].
    destruct cf; reflexivity.
  - intros cf' lf' -> ->. unfold compile, compile_args, create_jupyter_subprocess.
    destruct spawn as [|e]; simpl; eexists; split; try reflexivity;
      split; congruence.
Qed.

Lemma compile_flag_lists_witness :
  compile (lit "g++") (lit "a.cc") (lit "a.out") None None Started
  = ([], inl TypeError)
  /\ exists r,
       compile (lit "g++") (lit "a.cc") (lit "a.out") (Some [lit "-g"]) (Some [])
               (Fails FileNotFound) =
       ([running_cmd [lit "g++"; lit "a.cc"; lit "-std=c++11"; lit "-g";
                      lit "-o"; lit "a.out"]], r)
       /\ (r = inr spawned <-> Fails FileNotFound = Started).
Proof.
  split.
  - apply (proj1 (compile_flag_lists (lit "g++") (lit "a.cc") (lit "a.out")
                    None None Started)). left. reflexivity.
  - apply (proj2 (compile_flag_lists (lit "g++") (lit "a.cc") (lit "a.out")
                    (Some [lit "-g"]) (Some []) (Fails FileNotFound))
             [lit "-g"] []); reflexivity.
Defined.

(** ** Temporary files *)

Lemma eqb_str_sym a b : eqb_str a b = eqb_str b a.
Proof.
  destruct (eqb_str a b) eqn:E1, (eqb_str b a) eqn:E2; auto.
  - apply eqb_str_eq in E1. subst. rewrite eqb_str_refl in E2. discriminate.
  - apply eqb_str_eq in E2. subst. rewrite eqb_str_refl in E1. discriminate.
Qed.

Lemma eqb_str_neq a b : a <> b -> eqb_str a b = false.
Proof.
  intros H. destruct (eqb_str a b) eqn:E; auto. apply eqb_str_eq in E. contradiction.
Qed.

Lemma exists_after_remove p q d :
  exists_file p (filter (fun e => negb (eqb_str q (fst e))) d) =
  if eqb_str q p then false else exists_file p d.
Proof.
  unfold exists_file. induction d as [|[n c] d IH]; simpl.
  - destruct (eqb_str q p); reflexivity.
  - destruct (eqb_str q n) eqn:Hq; simpl.
    + rewrite IH. destruct (eqb_str q p) eqn:Hp; auto.
      apply eqb_str_eq in Hq. subst n. rewrite (eqb_str_sym p q), Hp. reflexivity.
    + rewrite IH. destruct (eqb_str q p) eqn:Hp; auto.
      apply eqb_str_eq in Hp. subst p. rewrite Hq. reflexivity.
Qed.

Lemma read_after_remove p q d :
  q <> p ->
  read_file p (filter (fun e => negb (eqb_str q (fst e))) d) = read_file p d.
Proof.
  intros Hn. unfold read_file. induction d as [|[n c] d IH]; simpl; auto.
  destruct (eqb_str q n) eqn:Hq; simpl.
  - apply eqb_str_eq in Hq. subst n.
    rewrite (eqb_str_neq p q) by congruence. exact IH.
  - destruct (eqb_str p n); auto.
Qed.

Lemma remove_each_gone ps : forall d d',
  remove_each ps d = (d', None) ->
  forall p, exists_file p d = false \/ In p ps -> exists_file p d' = false.
Proof.
  induction ps as [|q ps IH]; simpl; intros d d' H p Hp.
  - inversion H; subst. destruct Hp as [Hp|[]]; exact Hp.
  - unfold os_remove in H. destruct (exists_file q d) eqn:Hq; [|discriminate].
    apply (IH _ _ H). rewrite exists_after_remove.
    destruct (eqb_str q p) eqn:E; auto.
    destruct Hp as [Hp|[Hp|Hp]]; auto.
    subst. rewrite eqb_str_refl in E. discriminate.
Qed.

Lemma remove_each_keeps ps : forall d d' r,
  remove_each ps d = (d', r) ->
  forall p, ~ In p ps -> read_file p d' = read_file p d.
Proof.
  induction ps as [|q ps IH]; simpl; intros d d' r H p Hp.
  - inversion H; subst. reflexivity.
  - unfold os_remove in H. destruct (exists_file q d) eqn:Hq.
    + rewrite (IH _ _ _ H) by tauto. apply read_after_remove. tauto.
    + inversion H; subst. reflexivity.
Qed.

(** X7 ([cleanup_files]).  When every file of [self.files] exists and no name
    is listed twice, [cleanup_files] raises nothing, removes each of them,
    and leaves every other file with its content. *)
Theorem cleanup_removes_tracked k d :
  NoDup (files k) ->
  (forall p, In p (files k) -> exists_file p d = true) ->
  exists d',
    cleanup_files k d = (d', None) /\
    (forall p, In p (files k) -> exists_file p d' = false) /\
    (forall p, ~ In p (files k) -> read_file p d' = read_file p d).
Proof.
  unfold cleanup_files. generalize (files k). intros ps. revert d.
  induction ps as [|q ps IH]; intros d Hnd Hex.
  - exists d. simpl. repeat split; auto. intros p [].
  - inversion Hnd as [|? ? Hq Hnd']; subst.
    simpl. unfold os_remove. rewrite (Hex q) by (left; auto).
    destruct (IH (filter (fun e => negb (eqb_str q (fst e))) d) Hnd')
      as (d' & Hr & Hgone & Hkeep).
    { intros p Hp. rewrite exists_after_remove.
      rewrite eqb_str_neq by (intros ->; contradiction).
      apply Hex. right. exact Hp. }
    exists d'. split; [exact Hr|]. split.
    + intros p [<-|Hp]; auto.
      apply (remove_each_gone ps _ _ Hr). left.
      rewrite exists_after_remove, eqb_str_refl. reflexivity.
    + intros p Hp. rewrite Hkeep by (simpl in Hp; tauto).
      apply read_after_remove. simpl in Hp. tauto.
Qed.

Lemma cleanup_removes_tracked_witness :
  exists d',
    cleanup_files sample_kernel sample_disk = (d', None) /\
    exists_file (lit "/tmp/a.out") d' = false /\
    read_file (lit "/home/user/notes") d' = Some (lit "keep").
Proof.
  destruct (cleanup_removes_tracked sample_kernel sample_disk)
    as (d' & Hr & Hgone & Hkeep).
  - constructor; [simpl; intros [H|[]]; discriminate|].
    constructor; [simpl; tauto | constructor].
  - intros p [<-|[<-|[]]]; reflexivity.
  - exists d'. split; [exact Hr|]. split.
    + apply Hgone. right. left. reflexivity.
    + rewrite Hkeep; [reflexivity|].
      intros [H|[H|[]]]; discriminate.
Defined.

(** X8 ([cleanup_files], [do_shutdown]).  [self.files] is never emptied: after
    a clean-up that succeeded, a second one raises [FileNotFoundError] on the
    first file of the list and changes nothing. *)
Theorem cleanup_twice_raises k d d' :
  files k <> [] ->
  cleanup_files k d = (d', None) ->
  cleanup_files k d' = (d', Some (FileNotFoundError (hd [] (files k)))).
Proof.
  unfold cleanup_files. destruct (files k) as [|q ps]; [congruence|].
  intros _ H. simpl. unfold os_remove.
  rewrite (remove_each_gone (q :: ps) d d' H q) by (right; left; auto).
  reflexivity.
Qed.

Lemma cleanup_twice_raises_witness :
  cleanup_files sample_kernel [(lit "/home/user/notes", lit "keep")] =
  ([(lit "/home/user/notes", lit "keep")],
   Some (FileNotFoundError (lit "/tmp/a.cc"))).
Proof.
  apply (cleanup_twice_raises sample_kernel sample_disk).
  - discriminate.
  - reflexivity.
Defined.

Lemma remove_each_stops ps : forall d d' e,
  remove_each ps d = (d', Some e) ->
  exists pre p post,
    ps = pre ++ p :: post /\
    e = FileNotFoundError p /\
    remove_each pre d = (d', None) /\
    exists_file p d' = false /\
    (forall q, ~ In q pre -> read_file q d' = read_file q d).
Proof.
  induction ps as [|q ps IH]; simpl; intros d d' e H; [discriminate|].
  unfold os_remove in H. destruct (exists_file q d) eqn:Hq.
  - destruct (IH _ _ _ H) as (pre & p & post & -> & -> & Hr & Hp & Hkeep).
    exists (q :: pre), p, post. repeat split; auto.
    + simpl. unfold os_remove. rewrite Hq. exact Hr.
    + intros x Hx. rewrite Hkeep by (simpl in Hx; tauto).
      apply read_after_remove. simpl in Hx. tauto.
  - inversion H; subst. exists [], q, ps. repeat split; auto.
Qed.

(** X9 ([cleanup_files]).  When [cleanup_files] raises, it is
    [FileNotFoundError] for a file of the list that does not exist at that
    point; the files listed before it have been removed, those listed after
    it have not been looked at, and files outside of the part of the list
    before it are untouched. *)
Theorem cleanup_stops_at_missing k d d' e :
  cleanup_files k d = (d', Some e) ->
  exists pre p post,
    files k = pre ++ p :: post /\
    e = FileNotFoundError p /\
    remove_each pre d = (d', None) /\
    exists_file p d' = false /\
    (forall q, ~ In q pre -> read_file q d' = read_file q d).
Proof. apply remove_each_stops. Qed.

Lemma cleanup_stops_at_missing_witness :
  exists pre p post,
    [lit "/tmp/a.cc"; lit "/tmp/gone"; lit "/tmp/a.out"] = pre ++ p :: post /\
    FileNotFoundError (lit "/tmp/gone") = FileNotFoundError p /\
    remove_each pre sample_disk =
      ([(lit "/tmp/a.out", []); (lit "/home/user/notes", lit "keep")], None) /\
    exists_file p [(lit "/tmp/a.out", []); (lit "/home/user/notes", lit "keep")]
      = false /\
    (forall q, ~ In q pre ->
       read_file q [(lit "/tmp/a.out", []); (lit "/home/user/notes", lit "keep")]
       = read_file q sample_disk).
Proof.
  apply (cleanup_stops_at_missing
           (mkCppKernel [lit "/tmp/a.cc"; lit "/tmp/gone"; lit "/tmp/a.out"]
                        (lit ".cc") (lit "g++"))
           sample_disk).
  reflexivity.
Defined.

(** ** [do_execute] up to the compiler process *)

(** X10 ([do_execute], line 164).  A cell with a faulty directive line makes
    [do_execute] raise [ValueError] before any temporary file is created,
    any message is sent or any process is started. *)
Theorem prepare_rejects_cell code tmp_src tmp_bin spawn k d :
  existsb malformed (splitlines code) = true ->
  exists k' out,
    do_execute_prepare code tmp_src tmp_bin spawn k d =
      (k', d, out, [], inl ValueError) /\
    files k' = files k.
Proof.
  intros H. unfold do_execute_prepare.
  pose proof (proj1 (magic_outcome code k) H) as Hr.
  destruct (magic_attributes code k) as (Hf & _).
  cbv zeta in Hf.
  destruct (_magic code k) as [[k1 out] r]. simpl in Hr, Hf. subst r.
  exists k1, out. auto.
Qed.

Lemma prepare_rejects_cell_witness :
  exists k' out,
    do_execute_prepare bad_cell (Created (lit "/tmp/tmp1"))
                       (Created (lit "/tmp/tmp2")) Started
                       new_kernel sample_disk =
      (k', sample_disk, out, [], inl ValueError) /\
    files k' = files new_kernel.
Proof.
  apply (prepare_rejects_cell bad_cell (Created (lit "/tmp/tmp1"))
           (Created (lit "/tmp/tmp2")) Started new_kernel sample_disk).
  reflexivity.
Defined.

(** X11 ([do_execute], lines 164-169 and 182; [new_temp_file]; [compile]).  For
    a cell without faulty directive line, when the suffix in force after
    the directives holds no path separator and the library creates both
    temporary files, [do_execute] has a source file named with that suffix
    and a binary file named with [.out], records both in [self.files],
    writes the code [_magic] returned to the source file, announces and
    starts the compiler chosen by the directives on these two names with the
    flags of the directives, and later runs the binary file alone as the
    command. *)
Theorem prepare_builds_command code stem_src stem_bin spawn k d :
  existsb malformed (splitlines code) = false ->
  has_separator (file_suffix (fst (fst (_magic code k)))) = false ->
  let ds := directives (splitlines code) in
  exists k' d' out code' r,
    do_execute_prepare code (Created stem_src) (Created stem_bin) spawn k d =
      (k', d', out,
       [running_cmd (compiler k' :: (stem_src ++ file_suffix k')
                     :: lit "-std=c++11" :: tokens_of "cflags" ds
                     ++ lit "-o" :: (stem_bin ++ lit ".out")
                     :: tokens_of "ldflags" ds)],
       r)
    /\ files k' = files k ++ [stem_src ++ file_suffix k'; stem_bin ++ lit ".out"]
    /\ fst (fst (_magic code k)) =
       mkCppKernel (files k) (file_suffix k') (compiler k')
    /\ snd (_magic code k) =
       inr (code', tokens_of "cflags" ds, tokens_of "ldflags" ds)
    /\ (stem_src ++ file_suffix k' <> stem_bin ++ lit ".out" ->
        read_file (stem_src ++ file_suffix k') d' = Some code')
    /\ exists_file (stem_bin ++ lit ".out") d' = true
    /\ (spawn = Started ->
        r = inr (mkPrepared (stem_src ++ file_suffix k')
                            (stem_bin ++ lit ".out") spawned)
        /\ forall pr, r = inr pr -> run_cmd pr = [stem_bin ++ lit ".out"])
    /\ (forall e, spawn = Fails e -> r = inl (SpawnError e)).
Proof.
  intros H Hsep ds. unfold do_execute_prepare.
  destruct (proj2 (magic_outcome code k) H) as (code' & cf & lf & Hr).
  destruct (magic_attributes code k) as (Hf & _). cbv zeta in Hf.
  destruct (_magic code k) as [[k1 out] r] eqn:Hm. simpl in Hr, Hf, Hsep.
  subst r.
  destruct (magic_flag_lists code k _ _ _ _ _ Hm) as (-> & -> & _).
  fold ds. unfold new_temp_file, NamedTemporaryFile. rewrite Hsep.
  change (has_separator (lit ".out")) with false.
  unfold compile, compile_args, create_jupyter_subprocess.
  cbn [files file_suffix compiler].
  destruct k1 as [fl sx cp]. simpl in Hf. subst fl.
  destruct spawn as [|e]; cbn [init fst snd];
    exists (mkCppKernel ((files k ++ [stem_src ++ sx]) ++ [stem_bin ++ lit ".out"])
                        sx cp);
    eexists; exists out, code'; eexists;
    cbn [files file_suffix compiler];
    (split; [reflexivity|]);
    (split; [rewrite <- app_assoc; reflexivity|]);
    (split; [reflexivity|]); (split; [reflexivity|]).
  - split; [|split; [|split]].
    + intros Hn. unfold read_file, write_file. cbn [find map fst snd].
      rewrite (eqb_str_neq _ _ Hn), !eqb_str_refl. reflexivity.
    + unfold exists_file. cbn [existsb fst]. rewrite eqb_str_refl. reflexivity.
    + intros _. split; [reflexivity|]. intros pr Hpr. inversion Hpr. reflexivity.
    + intros e He. discriminate.
  - split; [|split; [|split]].
    + intros Hn. unfold read_file, write_file. cbn [find map fst snd].
      rewrite (eqb_str_neq _ _ Hn), !eqb_str_refl. reflexivity.
    + unfold exists_file. cbn [existsb fst]. rewrite eqb_str_refl. reflexivity.
    + intros He. discriminate.
    + intros e' He. inversion He. reflexivity.
Qed.

Lemma prepare_builds_command_witness :
  exists k' d' out msgs r,
    do_execute_prepare flags_cell (Created (lit "/tmp/tmpA"))
                       (Created (lit "/tmp/tmpB")) Started
                       new_kernel [] = (k', d', out, msgs, r) /\
    files k' = [lit "/tmp/tmpA.cu"; lit "/tmp/tmpB.out"].
Proof.
  destruct (prepare_builds_command flags_cell (lit "/tmp/tmpA") (lit "/tmp/tmpB")
              Started new_kernel [] eq_refl eq_refl)
    as (k' & d' & out & code' & r & Heq & Hfiles & Hmagic & _).
  exists k', d', out. eexists. exists r. split; [exact Heq|].
  rewrite Hfiles. apply (f_equal file_suffix) in Hmagic.
  cbn [file_suffix] in Hmagic. rewrite <- Hmagic. vm_compute. reflexivity.
Defined.

(** X16 ([do_execute], lines 165-168; [new_temp_file], lines 95-96).  When
    the source file cannot be created, as is the case whenever the suffix
    set by the directives holds a path separator, [do_execute] raises
    before anything is recorded in [self.files], written to disk, sent or
    started.  When only the binary file cannot be created, the source file
    has been written and recorded, and nothing has been sent or started. *)
Theorem prepare_without_temp_file code tmp_src tmp_bin spawn k d :
  existsb malformed (splitlines code) = false ->
  let k1 := fst (fst (_magic code k)) in
  (has_separator (file_suffix k1) = true ->
   NamedTemporaryFile (file_suffix k1) tmp_src = None)
  /\ (NamedTemporaryFile (file_suffix k1) tmp_src = None ->
      exists out,
        do_execute_prepare code tmp_src tmp_bin spawn k d =
          (k1, d, out, [], inl TempFileError) /\
        files k1 = files k)
  /\ (forall src code' cf lf,
        NamedTemporaryFile (file_suffix k1) tmp_src = Some src ->
        tmp_bin = NotCreated ->
        snd (_magic code k) = inr (code', cf, lf) ->
        exists k2 out,
          do_execute_prepare code tmp_src tmp_bin spawn k d =
            (k2, write_file src code' ((src, []) :: d), out, [],
             inl TempFileError) /\
          files k2 = files k ++ [src] /\
          read_file src (write_file src code' ((src, []) :: d)) = Some code').
Proof.
  intros H k1.
  destruct (proj2 (magic_outcome code k) H) as (code0 & cf0 & lf0 & Hr).
  destruct (magic_attributes code k) as (Hf & _). cbv zeta in Hf.
  unfold do_execute_prepare. subst k1.
  destruct (_magic code k) as [[k1 out] r]. simpl in Hr, Hf. subst r.
  cbn [fst snd]. split; [|split].
  - intros Hsep. unfold NamedTemporaryFile. rewrite Hsep.
    destruct tmp_src; reflexivity.
  - intros Hn. unfold new_temp_file. rewrite Hn. exists out. auto.
  - intros src code' cf lf Hs -> Hm. inversion Hm; subst.
    unfold new_temp_file. rewrite Hs. cbn [NamedTemporaryFile].
    eexists. exists out. split; [reflexivity|]. cbn [files].
    split; [rewrite Hf; reflexivity|].
    unfold read_file, write_file. cbn [find map fst snd].
    rewrite !eqb_str_refl. reflexivity.
Qed.

Lemma prepare_without_temp_file_witness :
  exists k1 out,
    do_execute_prepare slash_cell (Created (lit "/tmp/tmpA"))
                       (Created (lit "/tmp/tmpB")) Started new_kernel sample_disk
    = (k1, sample_disk, out, [], inl TempFileError) /\
    files k1 = [].
Proof.
  destruct (prepare_without_temp_file slash_cell (Created (lit "/tmp/tmpA"))
              (Created (lit "/tmp/tmpB")) Started new_kernel sample_disk
              eq_refl) as (Hsep & Hfail & _).
  destruct (Hfail (Hsep eq_refl)) as (out & Heq & Hfiles).
  eexists. exists out. split; [exact Heq | exact Hfiles].
Defined.

(** ** More about the engine *)

Lemma step_history_polls a s c :
  In (OpPoll (Some c)) (history (step a s)) ->
  In (OpPoll (Some c)) (history s) \/ (a = Poll /\ exit_status s = Some c).
Proof.
  destruct (step_extends a s) as [ops Hops]. rewrite Hops.
  intros Hin. apply in_app_or in Hin. destruct Hin as [Hin|Hin]; auto.
  right. destruct a; simpl in Hops.
  - exfalso. unfold child_write in Hops. destruct (exit_status s);
      [|destruct (writer_open (stream (chan w s))); rewrite ?history_set_chan in Hops];
      rewrite <- (app_nil_r (history s)) in Hops at 1;
      apply app_inv_head in Hops; subst ops; destruct Hin.
  - exfalso. unfold child_close in Hops. destruct (exit_status s);
      rewrite ?history_set_chan in Hops;
      rewrite <- (app_nil_r (history s)) in Hops at 1;
      apply app_inv_head in Hops; subst ops; destruct Hin.
  - exfalso. unfold child_exit in Hops. destruct (exit_status s); simpl in Hops;
      rewrite <- (app_nil_r (history s)) in Hops at 1;
      apply app_inv_head in Hops; subst ops; destruct Hin.
  - exfalso. unfold drain_step in Hops.
    pose proof (enqueue_output_ops w fault (chan w s)) as Hsil.
    destruct (enqueue_output_step w fault (chan w s)) as [c0 ops0].
    rewrite history_log, history_set_chan in Hops. apply app_inv_head in Hops.
    subst ops0. simpl in Hsil. rewrite Forall_forall in Hsil.
    specialize (Hsil _ Hin). discriminate.
  - exfalso. unfold write_contents_step in Hops.
    destruct (fpc s) as [|w|w [|n] res|w res|].
    + rewrite history_log, history_set_fpc in Hops. apply app_inv_head in Hops.
      subst ops. destruct Hin as [H|[]]; discriminate.
    + rewrite history_log, history_set_fpc in Hops. apply app_inv_head in Hops.
      subst ops. destruct Hin as [H|[]]; discriminate.
    + rewrite history_set_fpc in Hops.
      rewrite <- (app_nil_r (history s)) in Hops at 1.
      apply app_inv_head in Hops. subst ops. destruct Hin.
    + destruct (Queue.get_nowait (queue (chan w s))) as [[line q']|].
      * rewrite history_log, history_set_fpc, history_set_chan in Hops.
        apply app_inv_head in Hops. subst ops. destruct Hin as [H|[]]; discriminate.
      * rewrite history_set_fpc in Hops.
        rewrite <- (app_nil_r (history s)) in Hops at 1.
        apply app_inv_head in Hops. subst ops. destruct Hin.
    + destruct w, res; simpl in Hops; apply app_inv_head in Hops; subst ops;
        simpl in Hin; intuition discriminate.
    + rewrite <- (app_nil_r (history s)) in Hops at 1.
      apply app_inv_head in Hops. subst ops. destruct Hin.
  - apply app_inv_head in Hops. subst ops. destruct Hin as [H|[]].
    inversion H. auto.
Qed.

Lemma returncode_step a s :
  returncode (step a s) = returncode s \/
  (a = Poll /\ returncode (step a s) = exit_status s).
Proof.
  destruct a; simpl; auto.
  - left. unfold child_write. destruct (exit_status s); auto.
    destruct (writer_open (stream (chan w s))); auto. destruct w; auto.
  - left. unfold child_close. destruct (exit_status s); auto. destruct w; auto.
  - left. unfold child_exit. destruct (exit_status s); auto.
  - left. unfold drain_step. destruct (enqueue_output_step w fault (chan w s)).
    destruct w; auto.
  - left. apply write_contents_returncode.
Qed.

Lemma exit_status_fresh a s :
  exit_status s = None ->
  exit_status (step a s) = None \/ exists code, a = ChildExit code.
Proof.
  intros H. destruct a; simpl; eauto; left.
  - unfold child_write. rewrite H.
    destruct (writer_open (stream (chan w s))); auto. destruct w; auto.
  - unfold child_close. rewrite H. destruct w; auto.
  - unfold drain_step. destruct (enqueue_output_step w fault (chan w s)).
    destruct w; auto.
  - unfold write_contents_step.
    destruct (fpc s) as [|w|w [|n] res|w res|]; auto.
    + destruct (Queue.get_nowait (queue (chan w s))) as [[line q']|]; auto.
      destruct w; auto.
    + destruct w; auto.
Qed.

Lemma returncode_is_exit_status sch :
  let s := run sch spawned in
  (returncode s = None \/ returncode s = exit_status s)
  /\ (forall c, In (OpPoll (Some c)) (history s) -> exit_status s = Some c).
Proof.
  assert (H : forall s,
             (returncode s = None \/ returncode s = exit_status s) /\
             (forall c, In (OpPoll (Some c)) (history s) -> exit_status s = Some c) ->
             let s' := run sch s in
             (returncode s' = None \/ returncode s' = exit_status s') /\
             (forall c, In (OpPoll (Some c)) (history s') -> exit_status s' = Some c)).
  { induction sch as [|a sch IH]; simpl; auto.
    intros s [Hrc Hh]. apply IH. split.
    - destruct (returncode_step a s) as [E|[-> E]].
      + rewrite E. destruct Hrc as [Hrc|Hrc]; auto.
        destruct (exit_status s) as [c|] eqn:He; auto.
        right. rewrite Hrc. symmetry. apply exit_status_step. exact He.
      + right. exact E.
    - intros c Hin. apply step_history_polls in Hin.
      destruct Hin as [Hin|[-> He]].
      + apply exit_status_step, Hh, Hin.
      + exact He. }
  apply H. simpl. split; auto. intros c [].
Qed.


(** ** The processes of [do_execute] *)

Lemma procs_reachable_step a k :
  (forall p, In p (procs_of k) -> exists sch, p = run sch spawned) ->
  forall p, In p (procs_of (exec_step a k)) -> exists sch, p = run sch spawned.
Proof.
  intros H.
  assert (Henv : forall a0 p, (exists sch, p = run sch spawned) ->
                              exists sch, env_step a0 p = run sch spawned).
  { intros a0 p [sch ->]. unfold env_step. destruct (is_caller_action a0); eauto.
    exists (sch ++ [a0]). rewrite run_app. reflexivity. }
  assert (Hwait : forall c p, (exists sch, p = run sch spawned) ->
                              exists sch, snd (wait_step c p) = run sch spawned).
  { intros c p [sch ->]. destruct c as [|final| |w0 d0]; simpl; eauto.
    - exists (sch ++ [Poll]). rewrite run_app. simpl.
      destruct (exit_status (run sch spawned)); reflexivity.
    - destruct (raising (run sch spawned)) as [[w d]|]; simpl; eauto.
      exists (sch ++ [Flush]). rewrite run_app. simpl.
      destruct (is_idle (fpc (write_contents_step (run sch spawned)))); reflexivity. }
  unfold procs_of in *. destruct a as [a|spawn]; simpl.
  - unfold exec_env.
    destruct (pc k) as [|c p0|q c p0|ps|e ps|w d ps p0] eqn:Hpc; simpl;
      rewrite ?Hpc; auto.
    + intros p [<-|[]]. apply Henv, H. left. auto.
    + intros p [<-|[<-|[]]]; [apply H; left; auto|].
      apply Henv, H. right. left. auto.
  - unfold do_execute_step.
    destruct (pc k) as [|c p0|q c p0|ps|e ps|w d ps p0] eqn:Hpc; simpl;
      rewrite ?Hpc; auto.
    + destruct spawn; simpl; [|intros p []].
      intros p [<-|[]]. exists []. reflexivity.
    + assert (Hp0 : exists sch, p0 = run sch spawned) by (apply H; left; auto).
      pose proof (Hwait c p0 Hp0) as Hw.
      destruct c as [|final| |w0 d0];
        try (destruct (wait_step _ p0) as [[|f| |w1 d1] p1]; simpl in *;
             intros p [<-|[]]; exact Hw).
      destruct (nonzero (returncode p0)); simpl.
      * intros p [<-|[]]. exact Hp0.
      * destruct spawn; simpl.
        -- intros p [<-|[<-|[]]]; [exact Hp0 | exists []; reflexivity].
        -- intros p [<-|[]]. exact Hp0.
    + assert (Hq : exists sch, q = run sch spawned) by (apply H; left; auto).
      assert (Hp0 : exists sch, p0 = run sch spawned)
        by (apply H; right; left; auto).
      pose proof (Hwait c p0 Hp0) as Hw.
      destruct c as [|final| |w0 d0];
        try (destruct (wait_step _ p0) as [[|f| |w1 d1] p1]; simpl in *;
             (intros p [<-|[<-|[]]]; [exact Hq | exact Hw])).
      simpl. intros p [<-|[<-|[]]]; auto.
Qed.

Lemma procs_reachable sch p :
  In p (procs_of (exec_run sch entered)) -> exists sch', p = run sch' spawned.
Proof.
  assert (H : forall k,
             (forall p, In p (procs_of k) -> exists sch', p = run sch' spawned) ->
             forall p, In p (procs_of (exec_run sch k)) ->
                       exists sch', p = run sch' spawned).
  { induction sch as [|a sch IH]; simpl; auto.
    intros k Hk. apply IH. apply procs_reachable_step. exact Hk. }
  apply H. intros p' [].
Qed.

Lemma nonzero_false r : nonzero r = false -> r = Some 0%Z.
Proof. destruct r as [[| |]|]; simpl; congruence. Qed.

Lemma compiled_ok_step a k : compiled_ok k -> compiled_ok (exec_step a k).
Proof.
  unfold compiled_ok, procs_of. intros [H1 H2].
  destruct a as [a|spawn]; simpl.
  - unfold exec_env.
    destruct (pc k) as [|c p0|q c p0|ps|e ps|w d ps p0] eqn:Hpc; simpl;
      rewrite ?Hpc; auto; split; try discriminate.
    intros q0 p rest X. inversion X; subst. eapply H1. reflexivity.
  - unfold do_execute_step.
    destruct (pc k) as [|c p0|q c p0|ps|e ps|w d ps p0] eqn:Hpc; simpl;
      rewrite ?Hpc; auto.
    + destruct spawn; simpl; split; discriminate.
    + destruct c as [|final| |w0 d0].
      * destruct (wait_step AtPoll p0) as [[|f| |w1 d1] p1]; simpl;
          split; discriminate.
      * destruct (wait_step (InFlush final) p0) as [[|f| |w1 d1] p1]; simpl;
          split; discriminate.
      * destruct (nonzero (returncode p0)) eqn:Hn; simpl.
        -- split; [discriminate|]. intros p X. inversion X; subst. split; auto.
           apply in_or_app. right. left. reflexivity.
        -- apply nonzero_false in Hn. destruct spawn; simpl; split;
             try discriminate.
           intros q' p' rest X. inversion X; subst. exact Hn.
      * simpl. split; discriminate.
    + assert (Hq : returncode q = Some 0%Z) by (eapply H1; reflexivity).
      destruct c as [|final| |w0 d0].
      * destruct (wait_step AtPoll p0) as [[|f| |w1 d1] p1]; simpl;
          (split; [|discriminate]);
          intros q0 p rest X; inversion X; subst; exact Hq.
      * destruct (wait_step (InFlush final) p0) as [[|f| |w1 d1] p1]; simpl;
          (split; [|discriminate]);
          intros q0 p rest X; inversion X; subst; exact Hq.
      * simpl. split; [|discriminate].
        intros q0 p rest X. inversion X; subst. exact Hq.
      * simpl. split; [|discriminate].
        intros q0 p rest X. inversion X; subst. exact Hq.
Qed.

Lemma compiled_ok_run sch : forall k, compiled_ok k -> compiled_ok (exec_run sch k).
Proof.
  induction sch as [|a sch IH]; simpl; auto using compiled_ok_step.
Qed.

(** X13 ([do_execute], lines 169-182).  The program is started only after the
    compiler has exited with status 0; and when [do_execute] returns with
    the compiler as its only process, the compiler's status was not 0 and
    the message saying so was sent. *)
Theorem program_runs_only_after_successful_compile sch :
  let k := exec_run sch entered in
  (forall q p rest,
     procs_of k = q :: p :: rest ->
     returncode q = Some 0%Z /\ exit_status q = Some 0%Z)
  /\ (forall p,
        pc k = Returned [p] ->
        nonzero (returncode p) = true /\
        In (CompileFailed (returncode p)) (iopub k)).
Proof.
  intros k.
  assert (Hk : compiled_ok k).
  { apply compiled_ok_run. split; simpl; discriminate. }
  destruct Hk as [H1 H2]. split; [|exact H2].
  intros q p rest Hps. pose proof (H1 _ _ _ Hps) as Hrc. split; [exact Hrc|].
  destruct (procs_reachable sch q) as [sch' ->].
  { fold k. rewrite Hps. left. reflexivity. }
  destruct (returncode_is_exit_status sch') as [[Hn|He] _].
  - rewrite Hrc in Hn. discriminate.
  - rewrite <- He. exact Hrc.
Qed.

Lemma program_runs_only_after_successful_compile_witness :
  returncode (nth 0 (procs_of (exec_run compile_and_print entered)) spawned)
  = Some 0%Z.
Proof.
  destruct (program_runs_only_after_successful_compile compile_and_print)
    as [H _].
  destruct (H (nth 0 (procs_of (exec_run compile_and_print entered)) spawned)
              (nth 1 (procs_of (exec_run compile_and_print entered)) spawned)
              []) as [Hrc _]; [vm_compute; reflexivity | exact Hrc].
Defined.

(** ** Leaving a waiting loop *)

Lemma waited_for_inv k p :
  kernel_inv k -> In p (waited_for k) -> loop_inv AfterLoop p.
Proof.
  unfold kernel_inv, waited_for.
  destruct (pc k) as [|c q|q c q'|ps|e ps|w d ps q]; simpl.
  - intros _ [].
  - destruct c as [|final| |w0 d0]; simpl;
      [intros _ [] | intros _ [] | | intros _ []].
    intros Hl [<-|[]]. exact Hl.
  - intros [Hq Hq']. destruct c as [|final| |w0 d0]; simpl.
    + intros [<-|[]]; exact Hq.
    + intros [<-|[]]; exact Hq.
    + intros [<-|[<-|[]]]; auto.
    + intros [<-|[]]; exact Hq.
  - auto.
  - auto.
  - intros [Hd _]. apply Hd.
Qed.

Lemma waited_for_procs k p : In p (waited_for k) -> In p (procs_of k).
Proof.
  unfold waited_for, procs_of.
  destruct (pc k) as [|c q|q c q'|ps|e ps|w d ps q]; simpl; auto.
  - destruct c as [|final| |w0 d0]; simpl; auto; intros [].
  - destruct c as [|final| |w0 d0]; simpl; auto; intros [<-|[]]; auto.
  - intros Hin. apply in_or_app. auto.
Qed.

(** X12 ([do_execute], lines 170-173 and 183-187).  A waiting loop of
    [do_execute] is left at its end only after the child has exited: every
    process [do_execute] has finished waiting for, hence every process of a
    [do_execute] that has returned, has an exit status, and the
    [returncode] that [do_execute] then tests is that status. *)
Theorem loop_left_after_exit sch :
  let k := exec_run sch entered in
  (forall p, In p (waited_for k) ->
     exists code, exit_status p = Some code /\ returncode p = Some code)
  /\ (forall ps p, pc k = Returned ps -> In p ps ->
        exists code, exit_status p = Some code /\ returncode p = Some code).
Proof.
  intros k.
  assert (Hk : kernel_inv k) by (apply kernel_inv_run; exact I).
  assert (H : forall p, In p (waited_for k) ->
              exists code, exit_status p = Some code /\ returncode p = Some code).
  { intros p Hin.
    destruct (waited_for_inv k p Hk Hin) as (_ & n & code & Hrc & _).
    exists code. split; [|exact Hrc].
    destruct (procs_reachable sch p (waited_for_procs k p Hin)) as [sch' ->].
    destruct (returncode_is_exit_status sch') as [[Hn|He] _].
    - rewrite Hrc in Hn. discriminate.
    - rewrite <- He. exact Hrc. }
  split; [exact H|].
  intros ps p Hpc Hin. apply H. unfold waited_for. rewrite Hpc. exact Hin.
Qed.

Lemma loop_left_after_exit_witness :
  exists code,
    exit_status
      (nth 1 (waited_for (exec_run compile_and_print entered)) spawned)
    = Some code /\
    returncode
      (nth 1 (waited_for (exec_run compile_and_print entered)) spawned)
    = Some code.
Proof.
  destruct (loop_left_after_exit compile_and_print) as [H _].
  apply H. vm_compute. right. left. reflexivity.
Defined.

(** ** Each callback at most once per call *)

Lemma once_run_app st h1 h2 :
  once_run st (h1 ++ h2) = once_run (once_run st h1) h2.
Proof. apply fold_left_app. Qed.

Lemma once_run_none h : once_run None h = None.
Proof. induction h; simpl; auto. Qed.

Lemma once_step_other st o :
  is_caller_op o = false \/ (exists r, o = OpPoll r) -> once_step st o = st.
Proof.
  intros [H|[r ->]].
  - destruct st as [[|a b]|], o; simpl in *; try discriminate; reflexivity.
  - destruct st as [[|a b]|]; reflexivity.
Qed.

Lemma once_run_other st ops :
  Forall (fun o => is_caller_op o = false \/ exists r, o = OpPoll r) ops ->
  once_run st ops = st.
Proof.
  intros H. revert st. induction H as [|o ops Ho _ IH]; intros st; simpl; auto.
  rewrite once_step_other by exact Ho. apply IH.
Qed.

Lemma env_ops a s :
  is_flush a = false ->
  fpc (step a s) = fpc s /\
  exists ops,
    history (step a s) = history s ++ ops /\
    Forall (fun o => is_caller_op o = false \/ exists r, o = OpPoll r) ops.
Proof.
  intros Ha. split; [apply (env_step_effect a s Out Ha)|].
  destruct a; try discriminate; simpl.
  - exists []. rewrite app_nil_r. split; auto.
    unfold child_write. destruct (exit_status s); auto.
    destruct (writer_open (stream (chan w s))); auto. apply history_set_chan.
  - exists []. rewrite app_nil_r. split; auto.
    unfold child_close. destruct (exit_status s); auto. apply history_set_chan.
  - exists []. rewrite app_nil_r. split; auto.
    unfold child_exit. destruct (exit_status s); auto.
  - unfold drain_step.
    pose proof (enqueue_output_ops w fault (chan w s)) as Hsil.
    destruct (enqueue_output_step w fault (chan w s)) as [c ops].
    exists ops. rewrite history_log, history_set_chan. split; auto.
    simpl in Hsil. eapply Forall_impl; [|exact Hsil]. auto.
  - eexists. split; [reflexivity|]. constructor; eauto.
Qed.

Lemma once_reachable sch :
  exists st,
    once_run (Some NoCall) (history (run sch spawned)) = Some st /\
    once_ok (fpc (run sch spawned)) st.
Proof.
  assert (H : forall s,
             inv s ->
             (exists st, once_run (Some NoCall) (history s) = Some st /\
                         once_ok (fpc s) st) ->
             exists st, once_run (Some NoCall) (history (run sch s)) = Some st /\
                        once_ok (fpc (run sch s)) st).
  { induction sch as [|a sch IH]; simpl; auto.
    intros s Hinv (st & Hrun & Hok). apply IH; [apply inv_step, Hinv|].
    destruct (is_flush a) eqn:Ha.
    - destruct a; try discriminate. simpl. unfold write_contents_step.
      destruct (fpc s) as [|w|w [|n] res|w res|] eqn:Hf.
      + simpl in Hok. subst st. exists (InCall false false).
        rewrite history_log, history_set_fpc, once_run_app, Hrun. split; reflexivity.
      + exists st. rewrite history_log, history_set_fpc, once_run_app, Hrun.
        split; [destruct w; simpl in Hok; [subst st|destruct Hok as [a0 ->]];
                reflexivity|].
        rewrite fpc_log, fpc_set_fpc. destruct w; exact Hok.
      + exists st. rewrite history_set_fpc, fpc_set_fpc. split; [exact Hrun|].
        destruct w; exact Hok.
      + pose proof (ci_size _ _ (inv_chan _ Hinv w) _ _ Hf) as Hlen.
        destruct (queue (chan w s)) as [|line q'] eqn:Hq; [simpl in Hlen; lia|].
        unfold Queue.get_nowait. exists st.
        rewrite history_log, history_set_fpc, history_set_chan, once_run_app, Hrun.
        split; [destruct w; simpl in Hok; [subst st|destruct Hok as [a0 ->]];
                reflexivity|].
        rewrite fpc_log, fpc_set_fpc. destruct w; exact Hok.
      + destruct w; simpl in Hok.
        * subst st. destruct res as [|b res]; simpl.
          -- exists (InCall false false).
             rewrite app_nil_r. split; eauto.
          -- exists (InCall true false). rewrite once_run_app, Hrun.
             split; simpl; eauto.
        * destruct Hok as [a0 ->]. exists NoCall.
          destruct res as [|b res]; simpl; rewrite once_run_app, Hrun;
            split; reflexivity.
      + destruct (inv_raised _ Hinv Hf).
    - destruct (env_ops a s Ha) as (Hpc & ops & Hops & Hsil).
      exists st. rewrite Hops, once_run_app, Hrun, Hpc.
      split; [apply once_run_other, Hsil | exact Hok]. }
  apply H; [apply inv_spawned|]. exists NoCall. split; reflexivity.
Qed.

Lemma done_stays w h : forall a b st,
  once_run (Some (InCall a b)) h = Some st ->
  existsb is_return h = false ->
  done_for w (InCall a b) = true -> done_for w st = true.
Proof.
  induction h as [|o h IH]; simpl; intros a b st Hrun Hex Hd.
  - inversion Hrun; subst. exact Hd.
  - apply orb_false_elim in Hex. destruct Hex as [Ho Hex].
    destruct o as [| | | | | |w0 d| |]; simpl in *; try discriminate;
      try (apply (IH _ _ _ Hrun Hex Hd));
      try (rewrite once_run_none in Hrun; discriminate).
    destruct w0.
    + destruct a; [rewrite once_run_none in Hrun; discriminate|].
      apply (IH _ _ _ Hrun Hex). destruct w; auto.
    + destruct b; [rewrite once_run_none in Hrun; discriminate|].
      apply (IH _ _ _ Hrun Hex). destruct w; auto.
Qed.

Lemma once_run_cons st o h : once_run st (o :: h) = once_run (once_step st o) h.
Proof. reflexivity. Qed.

Lemma first_callback st w d :
  once_step st (OpCallback w d) = None \/
  exists a b, once_step st (OpCallback w d) = Some (InCall a b) /\
              done_for w (InCall a b) = true.
Proof.
  destruct st as [[|a b]|]; simpl; auto.
  destruct w, a, b; simpl; eauto.
Qed.

Lemma second_callback a b w d :
  done_for w (InCall a b) = true ->
  once_step (Some (InCall a b)) (OpCallback w d) = None.
Proof. destruct w, a, b; simpl; auto; discriminate. Qed.

(** X14 ([write_contents]).  Between two invocations of the callback of the
    same stream a call of [write_contents] has returned: one call invokes
    each callback at most once, whatever the child and the drain threads do
    meanwhile. *)
Theorem callback_once_per_call sch w h1 d1 h2 d2 h3 :
  history (run sch spawned) =
    h1 ++ OpCallback w d1 :: h2 ++ OpCallback w d2 :: h3 ->
  In OpReturn h2.
Proof.
  intros Hh. destruct (once_reachable sch) as (st & Hrun & _).
  rewrite Hh, once_run_app, once_run_cons, once_run_app, once_run_cons in Hrun.
  destruct (existsb is_return h2) eqn:Hex; [apply in_is_return; exact Hex|].
  exfalso.
  destruct (first_callback (once_run (Some NoCall) h1) w d1)
    as [E|(a & b & E & Hd)]; rewrite E in Hrun.
  - rewrite once_run_none in Hrun. simpl in Hrun.
    rewrite once_run_none in Hrun. discriminate.
  - destruct (once_run (Some (InCall a b)) h2) as [st2|] eqn:H2.
    + pose proof (done_stays w h2 a b st2 H2 Hex Hd) as Hd2.
      destruct st2 as [|a2 b2]; [destruct w; discriminate|].
      rewrite (second_callback a2 b2 w d2 Hd2), once_run_none in Hrun.
      discriminate.
    + simpl in Hrun. rewrite once_run_none in Hrun. discriminate.
Qed.

Lemma callback_once_per_call_witness :
  In OpReturn
     [OpQsize Err 0; OpReturn; OpRead Out (ReadData hello); OpPut Out hello;
      OpCall; OpQsize Out 1; OpGet Out hello].
Proof.
  apply (callback_once_per_call
           (enqueued ++ flush_one ++
            [ChildWrite Out hello; Drain Out false; Drain Out false] ++ flush_one)
           Out
           [OpRead Out (ReadData hello); OpPut Out hello; OpCall; OpQsize Out 1;
            OpGet Out hello]
           hello
           [OpQsize Err 0; OpReturn; OpRead Out (ReadData hello); OpPut Out hello;
            OpCall; OpQsize Out 1; OpGet Out hello]
           hello
           [OpQsize Err 0; OpReturn]).
  vm_compute.
  reflexivity.
Defined.

(** ** Delivery is always possible *)

Lemma closed_chan w fault c :
  (closed (stream c) = true -> thread c = Finished) ->
  closed (stream (fst (enqueue_output_step w fault c))) = true ->
  thread (fst (enqueue_output_step w fault c)) = Finished.
Proof.
  intros H. unfold enqueue_output_step.
  destruct (thread c) eqn:Ht; simpl; auto.
  - destruct fault; simpl.
    + intros X. specialize (H X). discriminate.
    + unfold read. destruct (closed (stream c)) eqn:Hc.
      * specialize (H eq_refl). discriminate.
      * destruct (buffered (stream c)); [destruct (writer_open (stream c))|];
          simpl; rewrite ?Hc, ?Ht; auto; discriminate.
  - intros X. specialize (H X). discriminate.
  - rewrite Ht. exact H.
Qed.

Lemma flush_keeps_channel s w :
  written (chan w (write_contents_step s)) = written (chan w s) /\
  stream (chan w (write_contents_step s)) = stream (chan w s) /\
  thread (chan w (write_contents_step s)) = thread (chan w s) /\
  puts w (history (write_contents_step s)) = puts w (history s).
Proof.
  unfold write_contents_step.
  destruct (fpc s) as [|w1|w1 [|n] res|w1 res|]; norm; hist; auto.
  - destruct (Queue.get_nowait (queue (chan w1 s))) as [[line q']|]; norm; hist; auto.
    destruct w, w1; simpl; hist; auto.
  - destruct w1, (truthy res); simpl; norm; hist; auto.
Qed.

Lemma closed_step a s w :
  (closed (stream (chan w s)) = true -> thread (chan w s) = Finished) ->
  closed (stream (chan w (step a s))) = true ->
  thread (chan w (step a s)) = Finished.
Proof.
  intros H. destruct a; simpl.
  - unfold child_write. destruct (exit_status s); auto.
    destruct (writer_open (stream (chan w0 s))) eqn:Hw; auto.
    destruct w, w0; simpl in *; unfold os_write; rewrite ?Hw; simpl; auto.
  - unfold child_close. destruct (exit_status s); auto.
    destruct w, w0; simpl in *; auto.
  - unfold child_exit. destruct (exit_status s); auto. destruct w; simpl; auto.
  - unfold drain_step.
    pose proof (closed_chan w0 fault (chan w0 s)) as Hc.
    destruct (enqueue_output_step w0 fault (chan w0 s)) as [c ops].
    rewrite chan_log. simpl in Hc.
    destruct w, w0; simpl in *; auto.
  - destruct (flush_keeps_channel s w) as (_ & -> & -> & _). exact H.
  - destruct w; simpl; auto.
Qed.

Lemma closed_reachable sch w :
  closed (stream (chan w (run sch spawned))) = true ->
  thread (chan w (run sch spawned)) = Finished.
Proof.
  assert (H : forall s,
             (closed (stream (chan w s)) = true -> thread (chan w s) = Finished) ->
             closed (stream (chan w (run sch s))) = true ->
             thread (chan w (run sch s)) = Finished).
  { induction sch as [|a sch IH]; simpl; auto.
    intros s Hs. apply IH. apply closed_step. exact Hs. }
  apply H. destruct w; simpl; discriminate.
Qed.

Lemma drain_ready_reachable sch w :
  thread (chan w (run sch spawned)) <> Crashed ->
  drain_ready (chan w (run sch spawned)).
Proof.
  intros Ht. split; [exact Ht|]. split.
  - apply closed_reachable.
  - intros H. apply (ci_eof _ _ (inv_chan _ (inv_reachable sch) w) H).
Qed.

Lemma skipn_shorter (n : nat) (l : bytes) :
  0 < n -> l <> [] -> length (skipn n l) < length l.
Proof.
  intros Hn Hl. rewrite length_skipn. destruct l; [congruence|].
  cbn [length]. lia.
Qed.

Lemma drain_once w c :
  drain_ready c ->
  let c' := fst (enqueue_output_step w false c) in
  drain_ready c' /\ written c' = written c /\
  drain_work c' <= pred (drain_work c).
Proof.
  intros (Hc & Hcl & Heof). unfold enqueue_output_step, drain_work, drain_ready.
  destruct (thread c) eqn:Ht.
  - unfold read. destruct (closed (stream c)) eqn:Hclosed.
    { specialize (Hcl eq_refl). discriminate. }
    destruct (buffered (stream c)) as [|b bs] eqn:Hb.
    + destruct (writer_open (stream c)); simpl; rewrite ?Ht, ?Hb, ?Hclosed; simpl;
        repeat split; auto; try discriminate; try lia.
    + simpl fst. cbn [thread stream written buffered closed].
      repeat split; auto; try discriminate.
      * intros [X|X]; discriminate.
      * pose proof (skipn_shorter chunk_size (b :: bs)) as Hs.
        assert (0 < chunk_size) by (unfold chunk_size; lia).
        assert (b :: bs <> []) by discriminate.
        specialize (Hs H H0). simpl length in *. lia.
  - simpl. repeat split; auto; try discriminate.
    + intros X. specialize (Hcl X). discriminate.
    + intros [X|X]; discriminate.
    + lia.
  - simpl. rewrite (Heof (or_introl eq_refl)). simpl.
    repeat split; auto; discriminate.
  - simpl. rewrite Ht, (Heof (or_intror eq_refl)). repeat split; auto.
  - contradiction.
Qed.

Lemma drain_times_done w n : forall c,
  drain_ready c -> drain_work c <= n ->
  let c' := drain_times w n c in
  buffered (stream c') = [] /\ held (thread c') = [] /\
  written c' = written c /\ thread c' <> Crashed.
Proof.
  induction n as [|n IH]; intros c Hr Hw; simpl.
  - unfold drain_work in Hw. destruct Hr as (Hc & _).
    destruct (buffered (stream c)); [|simpl in Hw; lia].
    destruct (thread c); simpl in *; try lia; auto.
  - destruct (drain_once w c Hr) as (Hr' & Hwr & Hle). cbv zeta in Hr', Hwr, Hle.
    destruct (IH (fst (enqueue_output_step w false c)) Hr') as (A & B & C & D);
      [lia|].
    cbv zeta in A, B, C, D. rewrite C, Hwr. auto.
Qed.

Lemma drain_run w n : forall s,
  chan w (run (repeat (Drain w false) n) s) = drain_times w n (chan w s).
Proof.
  induction n as [|n IH]; intros s; simpl; auto.
  rewrite IH. f_equal. unfold drain_step.
  destruct (enqueue_output_step w false (chan w s)) as [c ops].
  rewrite chan_log, chan_set_same. reflexivity.
Qed.

Lemma flushes_keep_channel n : forall s w,
  let s' := run (repeat Flush n) s in
  written (chan w s') = written (chan w s) /\
  stream (chan w s') = stream (chan w s) /\
  thread (chan w s') = thread (chan w s) /\
  puts w (history s') = puts w (history s).
Proof.
  induction n as [|n IH]; intros s w; simpl; auto.
  destruct (IH (write_contents_step s) w) as (A & B & C & D).
  destruct (flush_keeps_channel s w) as (A' & B' & C' & D').
  cbv zeta in A, B, C, D. rewrite A, B, C, D. auto.
Qed.

Lemma rounds_alone k : forall s,
  rounds (fun _ => []) k s = run (repeat Flush k) s.
Proof. induction k as [|k IH]; intros s; simpl; auto. Qed.

Lemma flush_returns s :
  inv s -> exists k, fpc (run (repeat Flush (S k)) s) = Idle.
Proof.
  intros Hinv. destruct (call_returns s (fun _ => []) Hinv) as [k Hk].
  - intros i. reflexivity.
  - exists k. rewrite <- rounds_alone. exact Hk.
Qed.

Lemma call_counted s n :
  fpc s = Idle -> calls (history s) < calls (history (run (repeat Flush (S n)) s)).
Proof.
  intros Hf. simpl.
  destruct (run_extends (repeat Flush n) (write_contents_step s)) as [ops Hops].
  rewrite Hops. unfold write_contents_step. rewrite Hf.
  rewrite history_log, history_set_fpc. unfold calls.
  rewrite !filter_app, !length_app. simpl. lia.
Qed.

(** X15 ([_enqueue_output], [write_contents]).  Nothing the child has written
    is ever lost for good: from every reachable state in which the drain
    thread of a stream has not died of a read error, letting that thread
    and the caller of [write_contents] run, and nobody else, reaches a state
    in which the callback of the stream has received every byte the child
    has written to it. *)
Theorem delivery_possible sch w :
  let s := run sch spawned in
  thread (chan w s) <> Crashed ->
  exists sch',
    only_drain_and_flush w sch' /\
    delivered w (history (run sch' s)) = written (chan w s).
Proof.
  intros s Ht.
  pose proof (drain_ready_reachable sch w Ht) as Hready. fold s in Hready.
  set (n := drain_work (chan w s)).
  set (s1 := run (repeat (Drain w false) n) s).
  destruct (drain_times_done w n (chan w s) Hready (Nat.le_refl _))
    as (Hb & Hh & Hw & _).
  cbv zeta in Hb, Hh, Hw. rewrite <- drain_run in Hb, Hh, Hw. fold s1 in Hb, Hh, Hw.
  assert (Hinv1 : inv s1) by (apply inv_run, inv_reachable).
  destruct (flush_returns s1 Hinv1) as [k1 Hk1].
  set (s2 := run (repeat Flush (S k1)) s1) in *.
  assert (Hinv2 : inv s2) by (apply inv_run, Hinv1).
  destruct (flush_returns s2 Hinv2) as [k2 Hk2].
  set (s3 := run (repeat Flush (S k2)) s2) in *.
  destruct (flushes_keep_channel (S k1) s1 w) as (A1 & B1 & C1 & _).
  destruct (flushes_keep_channel (S k2) s2 w) as (A2 & B2 & C2 & D2).
  cbv zeta in A1, B1, C1, A2, B2, C2, D2.
  fold s2 in A1, B1, C1, A2, B2, C2, D2. fold s3 in A2, B2, C2, D2.
  exists (repeat (Drain w false) n ++ repeat Flush (S k1) ++ repeat Flush (S k2)).
  split.
  - unfold only_drain_and_flush. rewrite !Forall_app. repeat split.
    + apply Forall_forall. intros a Ha. apply repeat_spec in Ha. auto.
    + apply Forall_forall. intros a Ha. apply repeat_spec in Ha. auto.
    + apply Forall_forall. intros a Ha. apply repeat_spec in Ha. auto.
  - rewrite !run_app. fold s1. fold s2. fold s3.
    assert (Hs2 : s2 = run (sch ++ repeat (Drain w false) n ++ repeat Flush (S k1))
                           spawned).
    { unfold s2, s1, s. rewrite !run_app. reflexivity. }
    assert (Hq : queue (chan w s3) = []).
    { unfold s3. rewrite Hs2.
      apply (drained_after_call
               (sch ++ repeat (Drain w false) n ++ repeat Flush (S k1))
               (repeat Flush (S k2)) w).
      - rewrite <- Hs2. exact Hk2.
      - rewrite <- Hs2. apply call_counted. exact Hk1.
      - rewrite <- Hs2. exact D2. }
    assert (Hs3 : s3 = run (sch ++ repeat (Drain w false) n ++ repeat Flush (S k1)
                                ++ repeat Flush (S k2)) spawned).
    { unfold s3. rewrite Hs2, <- run_app, <- !app_assoc. reflexivity. }
    pose proof (conservation
                  (sch ++ repeat (Drain w false) n ++ repeat Flush (S k1)
                       ++ repeat Flush (S k2)) w) as Hcons.
    cbv zeta in Hcons. rewrite <- Hs3 in Hcons.
    rewrite Hk2, Hq, C2, C1, Hh, B2, B1, Hb in Hcons. simpl in Hcons.
    rewrite app_nil_r in Hcons. rewrite <- Hcons, A2, A1, Hw. reflexivity.
Qed.

Lemma delivery_possible_witness :
  exists sch',
    only_drain_and_flush Err sch' /\
    delivered Err (history (run sch'
                     (run [ChildWrite Err hello; ChildWrite Out hello] spawned)))
    = hello.
Proof.
  apply (delivery_possible [ChildWrite Err hello; ChildWrite Out hello] Err).
  discriminate.
Defined.
